(** * router1: the negotiated rip-up-and-reroute loop of nextpnr

    A shallow embedding of [common/router1.cc]: the arc work queue, the
    arc index ([wire_to_arcs] / [arc_to_wires]), the score book, setup,
    the per-arc A* search with its commit phase, the rip-up entry points,
    the outer loop and the post-route validator.

    Conventions of the embedding.
    - [delay_t] and the C++ [int] counters are integers of [Z]; the model
      describes the executions in which no signed overflow (undefined in
      C++) occurs.
    - A [NetInfo*] is a net identifier; [nullptr] is [None].
    - [std::unordered_map] is a [gmap], [std::unordered_set] a [gset]; a
      range-for over one of them visits [map_to_list] / [elements].
    - [std::priority_queue] is the list of its elements; [top] selects an
      element that the comparator ranks below no other one, by one scan.
    - The architecture ([Context]) is an interface: class [Arch]. *)

From stdpp Require Import base gmap sets list relations.
From Stdlib Require Import ZArith Lia.

Local Open Scope Z_scope.

(** ** Identifiers and plain data *)

Abbreviation WireId := Z (only parsing).
Abbreviation PipId := Z (only parsing).
Abbreviation NetId := nat (only parsing).
Abbreviation delay_t := Z (only parsing).

(** [WireId()] and [PipId()], the default-constructed "no wire", "no pip". *)
Definition WireId_none : Z := -1.
Definition PipId_none : Z := -1.

Definition INT_MAX : Z := 2147483647.

(** [enum PlaceStrength] of nextpnr.h, in declaration order. *)
Inductive PlaceStrength :=
  | STRENGTH_NONE | STRENGTH_WEAK | STRENGTH_STRONG
  | STRENGTH_FIXED | STRENGTH_LOCKED | STRENGTH_USER.

Global Instance PlaceStrength_eq_dec : EqDecision PlaceStrength.
Proof. solve_decision. Defined.

Definition strength_rank (s : PlaceStrength) : Z :=
  match s with
  | STRENGTH_NONE => 0 | STRENGTH_WEAK => 1 | STRENGTH_STRONG => 2
  | STRENGTH_FIXED => 3 | STRENGTH_LOCKED => 4 | STRENGTH_USER => 5
  end.

(** [PortRef]: the cell pointer (tested against [nullptr], and read for
    the message of one [log_error]) and the timing budget. *)
Record PortRef := mk_PortRef { cell : option nat; budget : Z }.

Record PipMap := mk_PipMap { pip : Z; strength : PlaceStrength }.

Record NetInfo := mk_NetInfo {
  driver : PortRef;
  users : list PortRef;
  wires : gmap Z PipMap
}.

Record arc_key := mk_arc_key { net_info : nat; user_idx : nat }.

Global Instance arc_key_eq_dec : EqDecision arc_key.
Proof. solve_decision. Defined.

Global Instance arc_key_countable : Countable arc_key.
Proof.
  refine (inj_countable' (λ a, (net_info a, user_idx a))
                         (λ p, mk_arc_key p.1 p.2) _).
  by intros [].
Defined.

Record arc_entry := mk_arc_entry { arc : arc_key; pri : Z }.

(** [arc_entry::Greater] *)
Definition arc_entry_Greater (lhs rhs : arc_entry) : bool :=
  bool_decide (pri lhs > pri rhs).

Record QueuedWire := mk_QueuedWire {
  qw_wire : Z;
  qw_pip : Z;
  qw_delay : Z;
  qw_penalty : Z;
  qw_bonus : Z;
  qw_togo : Z;
  qw_randtag : Z
}.

(** A default-constructed [QueuedWire]. *)
Definition QueuedWire_default : QueuedWire :=
  mk_QueuedWire WireId_none PipId_none 0 0 0 0 0.

(** [QueuedWire::Greater].  The comparator first asserts
    [NPNR_ASSERT(l >= 0); NPNR_ASSERT(r >= 0);]: [QueuedWire_Greater_asserts]
    says whether both hold, [QueuedWire_Greater] is the value returned when
    they do.  The comparator is [noexcept], so a failed assertion ends the
    program ([std_terminate] below). *)
Definition QueuedWire_nonneg (q : QueuedWire) : bool :=
  bool_decide (qw_delay q + qw_penalty q + qw_togo q >= 0).

Definition QueuedWire_Greater_asserts (lhs rhs : QueuedWire) : bool :=
  QueuedWire_nonneg lhs && QueuedWire_nonneg rhs.

Definition QueuedWire_Greater (lhs rhs : QueuedWire) : bool :=
  let l := qw_delay lhs + qw_penalty lhs + qw_togo lhs - qw_bonus lhs in
  let r := qw_delay rhs + qw_penalty rhs + qw_togo rhs - qw_bonus rhs in
  if bool_decide (l = r) then bool_decide (qw_randtag lhs > qw_randtag rhs)
  else bool_decide (l > r).

(** ** [std::priority_queue]

    [top()] is an element [t] with [comp t x] false for every queued [x];
    which one among several, and which pairs of elements the comparator is
    called on, is left to the heap algorithm of the standard library.  The
    model is the queue that keeps its elements in the order they were
    pushed and finds the top by one scan: among several it takes the
    earliest pushed, and it calls the comparator on the pairs
    [pq_extract] compares. *)
Section priority_queue.
Context {T : Type} (comp : T → T → bool).

Definition pq_push (x : T) (q : list T) : list T := q ++ [x].

Fixpoint pq_extract (best : T) (q : list T) : T * list T :=
  match q with
  | [] => (best, [])
  | x :: q' =>
      if comp best x
      then let '(b, r) := pq_extract x q' in (b, best :: r)
      else let '(b, r) := pq_extract best q' in (b, x :: r)
  end.

Definition pq_top (q : list T) : option T :=
  match q with
  | [] => None
  | x :: q' => Some (pq_extract x q').1
  end.

Definition pq_pop (q : list T) : list T :=
  match q with
  | [] => []
  | x :: q' => (pq_extract x q').2
  end.

(** Whether the assertions of the comparator hold at every call of the
    scan. *)
Fixpoint pq_extract_asserts (asserts : T → T → bool) (best : T) (q : list T) : bool :=
  match q with
  | [] => true
  | x :: q' =>
      asserts best x && pq_extract_asserts asserts (if comp best x then x else best) q'
  end.

Definition pq_top_asserts (asserts : T → T → bool) (q : list T) : bool :=
  match q with
  | [] => true
  | x :: q' => pq_extract_asserts asserts x q'
  end.
End priority_queue.

(** [Router1Cfg] *)
Record Router1Cfg := mk_Router1Cfg {
  maxIterCnt : Z;
  cleanupReroute : bool;
  fullCleanupReroute : bool;
  useEstimate : bool;
  wireRipupPenalty : Z;
  netRipupPenalty : Z;
  wireReuseBonus : Z;
  pipReuseBonus : Z;
  estimatePrecision : Z
}.

(** [Router1Cfg::Router1Cfg], for the default settings and the penalty unit
    [getRipupDelayPenalty()]. *)
Definition Router1Cfg_default (ripupDelayPenalty : Z) : Router1Cfg :=
  let wireRipupPenalty := ripupDelayPenalty in
  {| maxIterCnt := 200;
     cleanupReroute := true;
     fullCleanupReroute := true;
     useEstimate := true;
     wireRipupPenalty := wireRipupPenalty;
     netRipupPenalty := 10 * ripupDelayPenalty;
     wireReuseBonus := wireRipupPenalty `quot` 8;
     pipReuseBonus := wireRipupPenalty `quot` 2;
     estimatePrecision := 100 * ripupDelayPenalty |}.

(** ** The architecture interface

    The members of [Context] that router1.cc calls.  [Ctx] is the whole
    state behind the [Context*]: the netlist with the wire map of every
    net, the binding tables and the generator behind [rng()].  The three
    binding primitives return [None] when an assertion inside them fails. *)
Class Arch := {
  Ctx : Type;
  (** the nets in the order a range-for over [ctx->nets] visits them *)
  nets : Ctx → list nat;
  (** [*net_info] *)
  deref : Ctx → nat → NetInfo;
  getNetinfoSourceWire : Ctx → nat → Z;
  getNetinfoSinkWire : Ctx → nat → PortRef → Z;
  getPipsDownhill : Ctx → Z → list Z;
  getPipSrcWire : Ctx → Z → Z;
  getPipDstWire : Ctx → Z → Z;
  (** [getWireDelay(w).maxDelay()], [getPipDelay(p).maxDelay()] *)
  getWireDelay_maxDelay : Ctx → Z → Z;
  getPipDelay_maxDelay : Ctx → Z → Z;
  estimateDelay : Ctx → Z → Z → Z;
  getDelayEpsilon : Ctx → Z;
  checkWireAvail : Ctx → Z → bool;
  checkPipAvail : Ctx → Z → bool;
  getConflictingWireWire : Ctx → Z → Z;
  getConflictingWireNet : Ctx → Z → option nat;
  getConflictingPipWire : Ctx → Z → Z;
  getConflictingPipNet : Ctx → Z → option nat;
  bindWire : Ctx → Z → nat → PlaceStrength → option Ctx;
  bindPip : Ctx → Z → nat → PlaceStrength → option Ctx;
  unbindWire : Ctx → Z → option Ctx;
  rng : Ctx → Z * Ctx;
  (** [ctx->check()]: [false] when one of its assertions fails *)
  ctx_check : Ctx → bool;
  timing_analysis : Ctx → Ctx
}.

(** ** Exceptions and outcomes *)

Inductive exn :=
  | log_execution_error_exception   (* log_error, log_assert *)
  | assertion_failure               (* NPNR_ASSERT *)
  | out_of_range                    (* unordered_map::at *)
  | undefined_behaviour             (* vector index out of range, top() of an empty queue, null dereference *)
  | std_terminate.                  (* an NPNR_ASSERT failing inside a noexcept comparator *)

Inductive outcome (A : Type) :=
  | Ret (a : A)
  | Throw (e : exn)
  | OutOfFuel.
Arguments Ret {A} a.
Arguments Throw {A} e.
Arguments OutOfFuel {A}.

(** Whether a run returned normally. *)
Definition returns {T} (r : outcome T) : bool :=
  match r with Ret _ => true | _ => false end.

(** The calls the router makes on the architecture and its one report, in
    program order (a ghost field of the state below). *)
Inductive Event :=
  | EvBindWire (w : Z) (n : nat) (st : PlaceStrength)
  | EvBindPip (p : Z) (n : nat) (st : PlaceStrength)
  | EvUnbindWire (w : Z)
  | EvRipupNet (n : nat)
  | EvRipupWire (w : Z)
  | EvRipupPip (p : Z)
  | EvWarnNoRoute (a : arc_key)
  | EvLock
  | EvUnlock.

Global Instance Event_eq_dec : EqDecision Event.
Proof. solve_decision. Defined.

Definition is_ripup (e : Event) : bool :=
  match e with
  | EvRipupNet _ | EvRipupWire _ | EvRipupPip _ => true
  | _ => false
  end.

(** ** [struct Router1] *)
Section Router1.
Context `{A : Arch}.

Record Router1 := mk_Router1 {
  ctx : Ctx;
  arc_queue : list arc_entry;
  wire_to_arcs : gmap Z (gset arc_key);
  arc_to_wires : gmap arc_key (gset Z);
  queued_arcs : gset arc_key;
  visited : gmap Z QueuedWire;
  queue : list QueuedWire;
  wireScores : gmap Z Z;
  netScores : gmap nat Z;
  arcs_with_ripup : Z;
  arcs_without_ripup : Z;
  ripup_flag : bool;
  trace : list Event
}.

(** [Router1(ctx, cfg)]: every container empty; [ripup_flag] has no
    initialiser in the source and is written before it is read. *)
Definition Router1_new (c : Ctx) : Router1 :=
  {| ctx := c; arc_queue := []; wire_to_arcs := ∅; arc_to_wires := ∅;
     queued_arcs := ∅; visited := ∅; queue := []; wireScores := ∅;
     netScores := ∅; arcs_with_ripup := 0; arcs_without_ripup := 0;
     ripup_flag := false; trace := [] |}.

Definition set_ctx (x : Ctx) (s : Router1) : Router1 :=
  mk_Router1 x (arc_queue s) (wire_to_arcs s) (arc_to_wires s) (queued_arcs s)
    (visited s) (queue s) (wireScores s) (netScores s) (arcs_with_ripup s)
    (arcs_without_ripup s) (ripup_flag s) (trace s).
Definition set_arc_queue (x : list arc_entry) (s : Router1) : Router1 :=
  mk_Router1 (ctx s) x (wire_to_arcs s) (arc_to_wires s) (queued_arcs s)
    (visited s) (queue s) (wireScores s) (netScores s) (arcs_with_ripup s)
    (arcs_without_ripup s) (ripup_flag s) (trace s).
Definition set_wire_to_arcs (x : gmap Z (gset arc_key)) (s : Router1) : Router1 :=
  mk_Router1 (ctx s) (arc_queue s) x (arc_to_wires s) (queued_arcs s)
    (visited s) (queue s) (wireScores s) (netScores s) (arcs_with_ripup s)
    (arcs_without_ripup s) (ripup_flag s) (trace s).
Definition set_arc_to_wires (x : gmap arc_key (gset Z)) (s : Router1) : Router1 :=
  mk_Router1 (ctx s) (arc_queue s) (wire_to_arcs s) x (queued_arcs s)
    (visited s) (queue s) (wireScores s) (netScores s) (arcs_with_ripup s)
    (arcs_without_ripup s) (ripup_flag s) (trace s).
Definition set_queued_arcs (x : gset arc_key) (s : Router1) : Router1 :=
  mk_Router1 (ctx s) (arc_queue s) (wire_to_arcs s) (arc_to_wires s) x
    (visited s) (queue s) (wireScores s) (netScores s) (arcs_with_ripup s)
    (arcs_without_ripup s) (ripup_flag s) (trace s).
Definition set_visited (x : gmap Z QueuedWire) (s : Router1) : Router1 :=
  mk_Router1 (ctx s) (arc_queue s) (wire_to_arcs s) (arc_to_wires s) (queued_arcs s)
    x (queue s) (wireScores s) (netScores s) (arcs_with_ripup s)
    (arcs_without_ripup s) (ripup_flag s) (trace s).
Definition set_queue (x : list QueuedWire) (s : Router1) : Router1 :=
  mk_Router1 (ctx s) (arc_queue s) (wire_to_arcs s) (arc_to_wires s) (queued_arcs s)
    (visited s) x (wireScores s) (netScores s) (arcs_with_ripup s)
    (arcs_without_ripup s) (ripup_flag s) (trace s).
Definition set_wireScores (x : gmap Z Z) (s : Router1) : Router1 :=
  mk_Router1 (ctx s) (arc_queue s) (wire_to_arcs s) (arc_to_wires s) (queued_arcs s)
    (visited s) (queue s) x (netScores s) (arcs_with_ripup s)
    (arcs_without_ripup s) (ripup_flag s) (trace s).
Definition set_netScores (x : gmap nat Z) (s : Router1) : Router1 :=
  mk_Router1 (ctx s) (arc_queue s) (wire_to_arcs s) (arc_to_wires s) (queued_arcs s)
    (visited s) (queue s) (wireScores s) x (arcs_with_ripup s)
    (arcs_without_ripup s) (ripup_flag s) (trace s).
Definition set_arcs_with_ripup (x : Z) (s : Router1) : Router1 :=
  mk_Router1 (ctx s) (arc_queue s) (wire_to_arcs s) (arc_to_wires s) (queued_arcs s)
    (visited s) (queue s) (wireScores s) (netScores s) x
    (arcs_without_ripup s) (ripup_flag s) (trace s).
Definition set_arcs_without_ripup (x : Z) (s : Router1) : Router1 :=
  mk_Router1 (ctx s) (arc_queue s) (wire_to_arcs s) (arc_to_wires s) (queued_arcs s)
    (visited s) (queue s) (wireScores s) (netScores s) (arcs_with_ripup s)
    x (ripup_flag s) (trace s).
Definition set_ripup_flag (x : bool) (s : Router1) : Router1 :=
  mk_Router1 (ctx s) (arc_queue s) (wire_to_arcs s) (arc_to_wires s) (queued_arcs s)
    (visited s) (queue s) (wireScores s) (netScores s) (arcs_with_ripup s)
    (arcs_without_ripup s) x (trace s).
Definition emit (e : Event) (s : Router1) : Router1 :=
  mk_Router1 (ctx s) (arc_queue s) (wire_to_arcs s) (arc_to_wires s) (queued_arcs s)
    (visited s) (queue s) (wireScores s) (netScores s) (arcs_with_ripup s)
    (arcs_without_ripup s) (ripup_flag s) (trace s ++ [e]).

(** ** The monad of router code: state, exceptions, and fuel for the loops
    that the source does not bound. *)
Definition M (T : Type) : Type := Router1 → outcome T * Router1.

Global Instance M_ret : MRet M := λ T x s, (Ret x, s).

Global Instance M_bind : MBind M := λ T U f m s,
  match m s with
  | (Ret x, s') => f x s'
  | (Throw e, s') => (Throw e, s')
  | (OutOfFuel, s') => (OutOfFuel, s')
  end.

Definition get : M Router1 := λ s, (Ret s, s).
Definition modify (f : Router1 → Router1) : M unit := λ s, (Ret tt, f s).
Definition throw {T} (e : exn) : M T := λ s, (Throw e, s).
Definition out_of_fuel {T} : M T := λ s, (OutOfFuel, s).

Definition NPNR_ASSERT (b : bool) : M unit :=
  if b then mret tt else throw assertion_failure.
Definition log_assert (b : bool) : M unit :=
  if b then mret tt else throw log_execution_error_exception.
Definition log_error {T} : M T := throw log_execution_error_exception.

Fixpoint for_each {T} (l : list T) (body : T → M unit) : M unit :=
  match l with
  | [] => mret tt
  | x :: l' => body x;; for_each l' body
  end.

Fixpoint foldM {T U} (body : U → T → M U) (l : list T) (u : U) : M U :=
  match l with
  | [] => mret u
  | x :: l' => u' ← body u x; foldM body l' u'
  end.

(** Calls on the architecture. *)
Definition call_unbindWire (w : Z) : M unit := λ s,
  match unbindWire (ctx s) w with
  | Some c => (Ret tt, emit (EvUnbindWire w) (set_ctx c s))
  | None => (Throw assertion_failure, emit (EvUnbindWire w) s)
  end.

Definition call_bindWire (w : Z) (n : nat) (st : PlaceStrength) : M unit := λ s,
  match bindWire (ctx s) w n st with
  | Some c => (Ret tt, emit (EvBindWire w n st) (set_ctx c s))
  | None => (Throw assertion_failure, emit (EvBindWire w n st) s)
  end.

Definition call_bindPip (p : Z) (n : nat) (st : PlaceStrength) : M unit := λ s,
  match bindPip (ctx s) p n st with
  | Some c => (Ret tt, emit (EvBindPip p n st) (set_ctx c s))
  | None => (Throw assertion_failure, emit (EvBindPip p n st) s)
  end.

Definition call_rng : M Z := λ s,
  let '(r, c) := rng (ctx s) in (Ret r, set_ctx c s).

(** Reads with the default of [operator[]] / of an absent score. *)
Definition arcs_of (m : gmap Z (gset arc_key)) (w : Z) : gset arc_key :=
  default ∅ (m !! w).
Definition wires_of (m : gmap arc_key (gset Z)) (a : arc_key) : gset Z :=
  default ∅ (m !! a).
Definition wire_score (m : gmap Z Z) (w : Z) : Z := default 0 (m !! w).
Definition net_score (m : gmap nat Z) (n : nat) : Z := default 0 (m !! n).

(** What a bare [wire_to_arcs[w]] / [arc_to_wires[arc]] does to the map:
    the entry exists afterwards. *)
Definition touch_wire (w : Z) : M unit :=
  modify (λ s, set_wire_to_arcs
                 (<[w := arcs_of (wire_to_arcs s) w]> (wire_to_arcs s)) s).
Definition touch_arc (arc : arc_key) : M unit :=
  modify (λ s, set_arc_to_wires
                 (<[arc := wires_of (arc_to_wires s) arc]> (arc_to_wires s)) s).

(** [wire_to_arcs[w].insert(arc); arc_to_wires[arc].insert(w);] *)
Definition attach (arc : arc_key) (w : Z) : M unit :=
  modify (λ s, set_wire_to_arcs
                 (<[w := {[arc]} ∪ arcs_of (wire_to_arcs s) w]> (wire_to_arcs s)) s);;
  modify (λ s, set_arc_to_wires
                 (<[arc := {[w]} ∪ wires_of (arc_to_wires s) arc]> (arc_to_wires s)) s).

(** ** The arc work queue *)

(** [arc_queue_insert(arc, src_wire, dst_wire)] *)
Definition arc_queue_insert3 (arc : arc_key) (src_wire dst_wire : Z) : M unit :=
  s ← get;
  if decide (arc ∈ queued_arcs s) then mret tt else
  match users (deref (ctx s) (net_info arc)) !! user_idx arc with
  | None => throw undefined_behaviour
  | Some u =>
      let pri := estimateDelay (ctx s) src_wire dst_wire - budget u in
      let entry := mk_arc_entry arc pri in
      modify (λ s, set_arc_queue (pq_push entry (arc_queue s)) s);;
      modify (λ s, set_queued_arcs ({[arc]} ∪ queued_arcs s) s)
  end.

(** [arc_queue_insert(arc)] *)
Definition arc_queue_insert (arc : arc_key) : M unit :=
  s ← get;
  if decide (arc ∈ queued_arcs s) then mret tt else
  let net_info := net_info arc in
  let user_idx := user_idx arc in
  let src_wire := getNetinfoSourceWire (ctx s) net_info in
  match users (deref (ctx s) net_info) !! user_idx with
  | None => throw undefined_behaviour
  | Some u =>
      let dst_wire := getNetinfoSinkWire (ctx s) net_info u in
      arc_queue_insert3 arc src_wire dst_wire
  end.

(** [arc_queue_pop()] *)
Definition arc_queue_pop : M arc_key :=
  s ← get;
  match pq_top arc_entry_Greater (arc_queue s) with
  | None => throw undefined_behaviour
  | Some entry =>
      modify (λ s, set_arc_queue (pq_pop arc_entry_Greater (arc_queue s)) s);;
      modify (λ s, set_queued_arcs (queued_arcs s ∖ {[arc entry]}) s);;
      mret (arc entry)
  end.

(** ** The rip-up entry points *)

(** The block that [ripup_net], [ripup_wire] and [ripup_pip] each spell
    out for a wire [w]:
    [for (auto &it : wire_to_arcs[w]) { arc_to_wires[it].erase(w);
     arc_queue_insert(it); } wire_to_arcs[w].clear(); ctx->unbindWire(w);
     wireScores[w]++;] *)
Definition ripup_one_wire (w : Z) : M unit :=
  touch_wire w;;
  s ← get;
  for_each (elements (arcs_of (wire_to_arcs s) w)) (λ it,
    modify (λ s, set_arc_to_wires
                   (<[it := wires_of (arc_to_wires s) it ∖ {[w]}]> (arc_to_wires s)) s);;
    arc_queue_insert it);;
  modify (λ s, set_wire_to_arcs (<[w := ∅]> (wire_to_arcs s)) s);;
  call_unbindWire w;;
  modify (λ s, set_wireScores (<[w := wire_score (wireScores s) w + 1]> (wireScores s)) s).

Definition ripup_net (net : nat) : M unit :=
  modify (emit (EvRipupNet net));;
  modify (λ s, set_netScores (<[net := net_score (netScores s) net + 1]> (netScores s)) s);;
  s ← get;
  let net_wires_copy := wires (deref (ctx s) net) in
  for_each (map_to_list net_wires_copy) (λ it, ripup_one_wire it.1);;
  modify (set_ripup_flag true).

Definition ripup_wire (wire : Z) : M unit :=
  modify (emit (EvRipupWire wire));;
  s ← get;
  let w := getConflictingWireWire (ctx s) wire in
  (if decide (w = WireId_none) then
     match getConflictingWireNet (ctx s) wire with
     | Some n => ripup_net n
     | None => mret tt
     end
   else ripup_one_wire w);;
  modify (set_ripup_flag true).

Definition ripup_pip (pip : Z) : M unit :=
  modify (emit (EvRipupPip pip));;
  s ← get;
  let w := getConflictingPipWire (ctx s) pip in
  (if decide (w = WireId_none) then
     match getConflictingPipNet (ctx s) pip with
     | Some n => ripup_net n
     | None => mret tt
     end
   else ripup_one_wire w);;
  modify (set_ripup_flag true).

(** [skip_net]; [ARCH_ECP5] is not defined for this architecture. *)
Definition skip_net (net_info : NetInfo) : bool :=
  bool_decide (cell (driver net_info) = None).

(** ** [setup] *)

Record setup_maps := mk_setup_maps {
  src_to_net : gmap Z nat;
  dst_to_arc : gmap Z arc_key
}.

(** The loop [while (src_wire != cursor)] of [setup]; nothing in the source
    bounds it, hence the fuel. *)
Fixpoint setup_walk (fuel : nat) (net : nat) (arc : arc_key)
    (src_wire dst_wire cursor : Z) : M unit :=
  if decide (src_wire = cursor) then mret tt else
  match fuel with
  | O => out_of_fuel
  | S fuel' =>
      s ← get;
      match wires (deref (ctx s) net) !! cursor with
      | None => arc_queue_insert3 arc src_wire dst_wire
      | Some it =>
          NPNR_ASSERT (bool_decide (pip it ≠ PipId_none));;
          let cursor' := getPipSrcWire (ctx s) (pip it) in
          attach arc cursor';;
          setup_walk fuel' net arc src_wire dst_wire cursor'
      end
  end.

(** The pairs [(user_idx, net_info->users[user_idx])] that a loop
    [for (int user_idx = 0; user_idx < int(net_info->users.size()); user_idx++)]
    goes through (no such loop of the source writes the vector). *)
Definition indexed_users (net_info : NetInfo) : list (nat * PortRef) :=
  imap (λ i u, (i, u)) (users net_info).

(** One iteration of the loop over the users of a net.  The message of the
    first [log_error] reads [net_info->users[user_idx].cell->name]: with a
    null [cell] that is a null dereference, and not the error. *)
Definition setup_user (fuel : nat) (net : nat) (src_wire : Z)
    (maps : setup_maps) (iu : nat * PortRef) : M setup_maps :=
  s ← get;
  let user_idx := iu.1 in
  let dst_wire := getNetinfoSinkWire (ctx s) net iu.2 in
  if decide (dst_wire = WireId_none) then
    match cell iu.2 with
    | None => throw undefined_behaviour
    | Some _ => log_error
    end
  else
  match dst_to_arc maps !! dst_wire with
  | Some other =>
      if decide (net_info other = net) then mret maps else log_error
  | None =>
      if decide (is_Some (src_to_net maps !! dst_wire)) then log_error else
      let arc := mk_arc_key net user_idx in
      let maps' := mk_setup_maps (src_to_net maps)
                                 (<[dst_wire := arc]> (dst_to_arc maps)) in
      match wires (deref (ctx s) net) !! src_wire with
      | None => arc_queue_insert3 arc src_wire dst_wire;; mret maps'
      | Some _ =>
          attach arc dst_wire;;
          setup_walk fuel net arc src_wire dst_wire dst_wire;;
          mret maps'
      end
  end.

(** One iteration of the loop over [ctx->nets]. *)
Definition setup_net (fuel : nat) (maps : setup_maps) (net : nat) : M setup_maps :=
  s ← get;
  let net_info := deref (ctx s) net in
  if skip_net net_info then mret maps else
  let src_wire := getNetinfoSourceWire (ctx s) net in
  if decide (src_wire = WireId_none) then log_error else
  if decide (is_Some (src_to_net maps !! src_wire)) then log_error else
  if decide (is_Some (dst_to_arc maps !! src_wire)) then log_error else
  maps ← foldM (setup_user fuel net src_wire) (indexed_users net_info) maps;
  let maps := mk_setup_maps (<[src_wire := net]> (src_to_net maps))
                            (dst_to_arc maps) in
  s ← get;
  let unbind_wires :=
    filter (λ it : Z * PipMap,
              strength_rank (strength it.2) < strength_rank STRENGTH_LOCKED
              ∧ wire_to_arcs s !! it.1 = None)
           (map_to_list (wires (deref (ctx s) net))) in
  for_each unbind_wires (λ it, call_unbindWire it.1);;
  mret maps.

Definition setup (fuel : nat) : M unit :=
  s ← get;
  foldM (setup_net fuel) (nets (ctx s)) (mk_setup_maps ∅ ∅);;
  mret tt.

(** ** [check] (compiled in unless [NDEBUG]) *)

Definition check_wire (net : nat) (arc : arc_key) (valid_wires_for_net : gset Z)
    (wire : Z) : M (gset Z) :=
  touch_wire wire;;
  s ← get;
  log_assert (bool_decide (arc ∈ arcs_of (wire_to_arcs s) wire));;
  log_assert (bool_decide (is_Some (wires (deref (ctx s) net) !! wire)));;
  mret ({[wire]} ∪ valid_wires_for_net).

Definition check_user (net : nat) (acc : gset arc_key * gset Z)
    (iu : nat * PortRef) : M (gset arc_key * gset Z) :=
  s ← get;
  let dst_wire := getNetinfoSinkWire (ctx s) net iu.2 in
  log_assert (bool_decide (dst_wire ≠ WireId_none));;
  let arc := mk_arc_key net iu.1 in
  touch_arc arc;;
  valid_wires_for_net ← foldM (check_wire net arc)
                              (elements (wires_of (arc_to_wires s) arc)) acc.2;
  mret ({[arc]} ∪ acc.1, valid_wires_for_net).

Definition check_net (valid_arcs : gset arc_key) (net : nat) : M (gset arc_key) :=
  s ← get;
  let net_info := deref (ctx s) net in
  if skip_net net_info then mret valid_arcs else
  let src_wire := getNetinfoSourceWire (ctx s) net in
  log_assert (bool_decide (src_wire ≠ WireId_none));;
  acc ← foldM (check_user net) (indexed_users net_info) (valid_arcs, ∅);
  for_each (map_to_list (wires net_info))
           (λ it, log_assert (bool_decide (it.1 ∈ acc.2)));;
  mret acc.1.

Definition check : M unit :=
  s ← get;
  valid_arcs ← foldM check_net (nets (ctx s)) ∅;
  s ← get;
  for_each (map_to_list (wire_to_arcs s))
           (λ it, for_each (elements it.2)
                    (λ arc, log_assert (bool_decide (arc ∈ valid_arcs))));;
  for_each (map_to_list (arc_to_wires s))
           (λ it, log_assert (bool_decide (it.1 ∈ valid_arcs))).

(** ** [route_arc] *)

(** The locals of the A* main loop. *)
Record search_locals := mk_search_locals {
  visitCnt : Z;
  maxVisitCnt : Z;
  best_est : Z;
  best_score : Z
}.

(** The four conflict variables of one expansion step. *)
Record conflicts := mk_conflicts {
  conflictWireWire : Z;
  conflictPipWire : Z;
  conflictWireNet : option nat;
  conflictPipNet : option nat
}.

Definition stored_pip (m : gmap Z PipMap) (w : Z) : option Z := pip <$> m !! w.

(** [if (!ctx->checkWireAvail(next_wire) && !wire_reuse) { ... }];
    [None] is [continue]. *)
Definition wire_side_conflict (c : Ctx) (ripup wire_reuse : bool) (next_wire : Z)
    : option (Z * option nat) :=
  if negb (checkWireAvail c next_wire) && negb wire_reuse then
    if negb ripup then None else
    let conflictWireWire := getConflictingWireWire c next_wire in
    if decide (conflictWireWire = WireId_none) then
      match getConflictingWireNet c next_wire with
      | None => None
      | Some n => Some (conflictWireWire, Some n)
      end
    else Some (conflictWireWire, None)
  else Some (WireId_none, None).

(** [if (!ctx->checkPipAvail(pip) && !pip_reuse) { ... }] *)
Definition pip_side_conflict (c : Ctx) (ripup pip_reuse : bool) (pip : Z)
    : option (Z * option nat) :=
  if negb (checkPipAvail c pip) && negb pip_reuse then
    if negb ripup then None else
    let conflictPipWire := getConflictingPipWire c pip in
    if decide (conflictPipWire = WireId_none) then
      match getConflictingPipNet c pip with
      | None => None
      | Some n => Some (conflictPipWire, Some n)
      end
    else Some (conflictPipWire, None)
  else Some (WireId_none, None).

Definition find_conflicts (c : Ctx) (ripup wire_reuse pip_reuse : bool)
    (next_wire pip : Z) : option conflicts :=
  match wire_side_conflict c ripup wire_reuse next_wire with
  | None => None
  | Some (cww, cwn) =>
      match pip_side_conflict c ripup pip_reuse pip with
      | None => None
      | Some (cpw, cpn) => Some (mk_conflicts cww cpw cwn cpn)
      end
  end.

Definition net_has_wire (c : Ctx) (n : option nat) (w : Z) : bool :=
  match n with
  | Some n => bool_decide (w ≠ WireId_none)
              && bool_decide (is_Some (wires (deref c n) !! w))
  | None => false
  end.

(** The four deduplicating [if]s, in source order. *)
Definition dedup_conflicts (c : Ctx) (k : conflicts) : conflicts :=
  let cww := conflictWireWire k in
  let cpw := conflictPipWire k in
  let cwn := conflictWireNet k in
  let cpn := conflictPipNet k in
  let cpw := if net_has_wire c cwn cpw then WireId_none else cpw in
  let cww := if net_has_wire c cpn cww then WireId_none else cww in
  let cww := if decide (cww = cpw) then WireId_none else cww in
  let cwn := if decide (cwn = cpn) then None else cwn in
  mk_conflicts cww cpw cwn cpn.

(** [if (conflict... != WireId()) { auto scores_it = wireScores.find(...);
     if (scores_it != wireScores.end()) next_penalty += scores_it->second *
     cfg.wireRipupPenalty; next_penalty += cfg.wireRipupPenalty; }] *)
Definition add_wire_penalty (cfg : Router1Cfg) (scores : gmap Z Z)
    (conflict : Z) (next_penalty : Z) : Z :=
  if decide (conflict ≠ WireId_none) then
    let next_penalty :=
      match scores !! conflict with
      | Some score => next_penalty + score * wireRipupPenalty cfg
      | None => next_penalty
      end in
    next_penalty + wireRipupPenalty cfg
  else next_penalty.

(** [if (conflict...Net != nullptr) { ... }] *)
Definition add_net_penalty (cfg : Router1Cfg) (c : Ctx) (scores : gmap nat Z)
    (conflict : option nat) (next_penalty : Z) : Z :=
  match conflict with
  | Some n =>
      let next_penalty :=
        match scores !! n with
        | Some score => next_penalty + score * netRipupPenalty cfg
        | None => next_penalty
        end in
      let next_penalty := next_penalty + netRipupPenalty cfg in
      next_penalty + Z.of_nat (size (wires (deref c n))) * wireRipupPenalty cfg
  | None => next_penalty
  end.

(** [next_penalty] after the four penalty blocks. *)
Definition step_penalty (cfg : Router1Cfg) (s : Router1) (k : conflicts)
    (next_penalty : Z) : Z :=
  let next_penalty := add_wire_penalty cfg (wireScores s) (conflictWireWire k) next_penalty in
  let next_penalty := add_wire_penalty cfg (wireScores s) (conflictPipWire k) next_penalty in
  let next_penalty := add_net_penalty cfg (ctx s) (netScores s) (conflictWireNet k) next_penalty in
  add_net_penalty cfg (ctx s) (netScores s) (conflictPipNet k) next_penalty.

(** What one expansion step computes before it looks at [visited]:
    [(next_wire, next_delay, next_penalty, next_bonus)], or [None] where
    the source says [continue]. *)
Definition step_candidate (cfg : Router1Cfg) (s : Router1) (net_info : nat)
    (ripup : bool) (qw : QueuedWire) (pip : Z) : option (Z * Z * Z * Z) :=
  let c := ctx s in
  let next_delay := qw_delay qw + getPipDelay_maxDelay c pip in
  let next_penalty := qw_penalty qw in
  let next_bonus := qw_bonus qw in
  let next_wire := getPipDstWire c pip in
  let next_delay := next_delay + getWireDelay_maxDelay c next_wire in
  let net_wires := wires (deref c net_info) in
  let wire_reuse := bool_decide (is_Some (net_wires !! next_wire)) in
  let pip_reuse := wire_reuse && bool_decide (stored_pip net_wires next_wire = Some pip) in
  match find_conflicts c ripup wire_reuse pip_reuse next_wire pip with
  | None => None
  | Some k =>
      let k := dedup_conflicts c k in
      let next_bonus := if wire_reuse then next_bonus + wireReuseBonus cfg else next_bonus in
      let next_bonus := if pip_reuse then next_bonus + pipReuseBonus cfg else next_bonus in
      let next_penalty := step_penalty cfg s k next_penalty in
      Some (next_wire, next_delay, next_penalty, next_bonus)
  end.

Definition set_best_est (x : Z) (L : search_locals) : search_locals :=
  mk_search_locals (visitCnt L) (maxVisitCnt L) x (best_score L).

(** The tail of a step, from [QueuedWire next_qw;] on. *)
Definition astar_push (cfg : Router1Cfg) (dst_wire next_wire pip : Z)
    (next_delay next_penalty next_bonus : Z) (L : search_locals) : M search_locals :=
  s ← get;
  let togo := if useEstimate cfg then estimateDelay (ctx s) next_wire dst_wire else 0 in
  let this_est := next_delay + togo in
  if useEstimate cfg && bool_decide (this_est `quot` 2 - estimatePrecision cfg > best_est L)
  then mret L else
  let L := if useEstimate cfg && bool_decide (best_est L > this_est)
           then set_best_est this_est L else L in
  randtag ← call_rng;
  let next_qw := mk_QueuedWire next_wire pip next_delay next_penalty next_bonus togo randtag in
  modify (λ s, set_visited (<[next_wire := next_qw]> (visited s)) s);;
  modify (λ s, set_queue (pq_push next_qw (queue s)) s);;
  if decide (next_wire = dst_wire) then
    let maxVisitCnt := if decide (maxVisitCnt L = INT_MAX)
                       then 2 * visitCnt L else maxVisitCnt L in
    mret (mk_search_locals (visitCnt L) maxVisitCnt (best_est L)
                           (next_delay + next_penalty - next_bonus))
  else mret L.

(** The body of [for (auto pip : ctx->getPipsDownhill(qw.wire))]. *)
Definition astar_step (cfg : Router1Cfg) (net_info : nat) (ripup : bool)
    (dst_wire : Z) (qw : QueuedWire) (L : search_locals) (pip : Z) : M search_locals :=
  s ← get;
  match step_candidate cfg s net_info ripup qw pip with
  | None => mret L
  | Some (next_wire, next_delay, next_penalty, next_bonus) =>
      let next_score := next_delay + next_penalty in
      NPNR_ASSERT (bool_decide (next_score >= 0));;
      if bool_decide (best_score L >= 0)
         && bool_decide (next_score - next_bonus - estimatePrecision cfg > best_score L)
      then mret L else
      match visited s !! next_wire with
      | Some old =>
          let old_delay := qw_delay old in
          let old_score := old_delay + qw_penalty old in
          NPNR_ASSERT (bool_decide (old_score >= 0));;
          if bool_decide (next_score + getDelayEpsilon (ctx s) >= old_score)
          then mret L
          else astar_push cfg dst_wire next_wire pip next_delay next_penalty next_bonus L
      | None =>
          astar_push cfg dst_wire next_wire pip next_delay next_penalty next_bonus L
      end
  end.

(** [while (visitCnt++ < maxVisitCnt && !queue.empty())] *)
Fixpoint astar_loop (fuel : nat) (cfg : Router1Cfg) (net_info : nat) (ripup : bool)
    (dst_wire : Z) (L : search_locals) : M search_locals :=
  match fuel with
  | O => out_of_fuel
  | S fuel' =>
      s ← get;
      let L1 := mk_search_locals (visitCnt L + 1) (maxVisitCnt L) (best_est L) (best_score L) in
      if bool_decide (visitCnt L < maxVisitCnt L) then
        match pq_top QueuedWire_Greater (queue s) with
        | None => mret L1
        | Some qw =>
            (if pq_top_asserts QueuedWire_Greater QueuedWire_Greater_asserts (queue s)
             then mret tt else throw std_terminate);;
            modify (λ s, set_queue (pq_pop QueuedWire_Greater (queue s)) s);;
            L2 ← foldM (astar_step cfg net_info ripup dst_wire qw)
                       (getPipsDownhill (ctx s) (qw_wire qw)) L1;
            astar_loop fuel' cfg net_info ripup dst_wire L2
        end
      else mret L1
  end.

(** The body of [for (WireId wire : old_arc_wires)]. *)
Definition release_wire (arc : arc_key) (wire : Z) : M unit :=
  s ← get;
  match wire_to_arcs s !! wire with
  | None => throw out_of_range
  | Some arc_wires =>
      NPNR_ASSERT (bool_decide (arc ∈ arc_wires));;
      modify (λ s, set_wire_to_arcs
                     (<[wire := arcs_of (wire_to_arcs s) wire ∖ {[arc]}]> (wire_to_arcs s)) s);;
      if decide (arc_wires ∖ {[arc]} = ∅) then call_unbindWire wire else mret tt
  end.

(** "unbind wires that are currently used exclusively by this arc" *)
Definition route_arc_prepare (arc : arc_key) : M unit :=
  s ← get;
  let old_arc_wires := wires_of (arc_to_wires s) arc in
  modify (λ s, set_arc_to_wires (<[arc := ∅]> (arc_to_wires s)) s);;
  for_each (elements old_arc_wires) (release_wire arc).

(** "reset wire queue" and "A* main loop" *)
Definition route_arc_search (fuel : nat) (cfg : Router1Cfg) (net_info : nat)
    (ripup : bool) (src_wire dst_wire : Z) : M search_locals :=
  modify (set_queue []);;
  modify (set_visited ∅);;
  s ← get;
  let delay := getWireDelay_maxDelay (ctx s) src_wire in
  let togo := if useEstimate cfg then estimateDelay (ctx s) src_wire dst_wire else 0 in
  let best_est := if useEstimate cfg then delay + togo else 0 in
  randtag ← call_rng;
  let qw := mk_QueuedWire src_wire PipId_none delay 0 0 togo randtag in
  modify (λ s, set_queue (pq_push qw (queue s)) s);;
  modify (λ s, set_visited (<[src_wire := qw]> (visited s)) s);;
  astar_loop fuel cfg net_info ripup dst_wire (mk_search_locals 0 INT_MAX best_est (-1)).

(** "bind resulting route (and maybe unroute other nets)": the loop
    [while (1)] from the sink back to the source. *)
Fixpoint route_arc_commit (fuel : nat) (arc : arc_key) (net_info : nat)
    (src_wire cursor : Z) : M unit :=
  match fuel with
  | O => out_of_fuel
  | S fuel' =>
      s ← get;
      let entry := default QueuedWire_default (visited s !! cursor) in
      modify (λ s, set_visited (<[cursor := entry]> (visited s)) s);;
      let pip := qw_pip entry in
      (if decide (pip = PipId_none)
       then NPNR_ASSERT (bool_decide (cursor = src_wire)) else mret tt);;
      (if bool_decide (stored_pip (wires (deref (ctx s) net_info)) cursor = Some pip)
       then mret tt
       else
         (s ← get;
          if checkWireAvail (ctx s) cursor then mret tt
          else (ripup_wire cursor;;
                s ← get; NPNR_ASSERT (checkWireAvail (ctx s) cursor)));;
         (s ← get;
          if bool_decide (pip ≠ PipId_none) && negb (checkPipAvail (ctx s) pip)
          then (ripup_pip pip;;
                s ← get; NPNR_ASSERT (checkPipAvail (ctx s) pip))
          else mret tt);;
         (if decide (pip = PipId_none)
          then call_bindWire cursor net_info STRENGTH_WEAK
          else call_bindPip pip net_info STRENGTH_WEAK));;
      attach arc cursor;;
      if decide (pip = PipId_none) then mret tt
      else (s ← get; route_arc_commit fuel' arc net_info src_wire (getPipSrcWire (ctx s) pip))
  end.

Definition route_arc (fuel : nat) (cfg : Router1Cfg) (arc : arc_key) (ripup : bool)
    : M bool :=
  s ← get;
  let net_info := net_info arc in
  let user_idx := user_idx arc in
  match users (deref (ctx s) net_info) !! user_idx with
  | None => throw undefined_behaviour
  | Some u =>
      let src_wire := getNetinfoSourceWire (ctx s) net_info in
      let dst_wire := getNetinfoSinkWire (ctx s) net_info u in
      modify (set_ripup_flag false);;
      route_arc_prepare arc;;
      route_arc_search fuel cfg net_info ripup src_wire dst_wire;;
      s ← get;
      match visited s !! dst_wire with
      | None => mret false
      | Some _ =>
          touch_arc arc;;
          route_arc_commit fuel arc net_info src_wire dst_wire;;
          s ← get;
          (if ripup_flag s
           then modify (set_arcs_with_ripup (arcs_with_ripup s + 1))
           else modify (set_arcs_without_ripup (arcs_without_ripup s + 1)));;
          mret true
      end
  end.

(** ** [Context::checkRoutedDesign]

    The function is [const]: it is a pure function of the context.  It is
    modelled with [ctx->debug] off; the debug branches log, and repeat the
    traversal from dangling roots only for a net that already fails. *)

Record ExtraWireInfo := mk_ExtraWireInfo {
  order_num : Z;
  children : gset Z
}.

Definition ExtraWireInfo_default : ExtraWireInfo := mk_ExtraWireInfo 0 ∅.

(** [db[w]] as a value. *)
Definition db_at (db : gmap Z ExtraWireInfo) (w : Z) : ExtraWireInfo :=
  default ExtraWireInfo_default (db !! w).

(** The state the lambda [setOrderNum] captures by reference and writes. *)
Record walk_state := mk_walk_state {
  db : gmap Z ExtraWireInfo;
  found_loop : bool;
  found_stub : bool
}.

(** The loop over [net_info->wires] that fills [db]. *)
Fixpoint build_db (c : Ctx) (l : list (Z * PipMap)) (db : gmap Z ExtraWireInfo)
    : outcome (gmap Z ExtraWireInfo) :=
  match l with
  | [] => Ret db
  | (w, it) :: l' =>
      let p := pip it in
      if decide (p ≠ PipId_none) then
        if decide (getPipDstWire c p = w) then
          let parent := getPipSrcWire c p in
          let e := db_at db parent in
          build_db c l' (<[parent := mk_ExtraWireInfo (order_num e) ({[w]} ∪ children e)]> db)
        else Throw log_execution_error_exception
      else build_db c l' db
  end.

(** The loop over the users that fills [dest_wires] and may set
    [found_unrouted]. *)
Fixpoint collect_dest_wires (c : Ctx) (net : nat) (net_wires : gmap Z PipMap)
    (us : list PortRef) (user_idx : nat) (acc : gmap Z nat * bool)
    : outcome (gmap Z nat * bool) :=
  match us with
  | [] => Ret acc
  | u :: us' =>
      let dst_wire := getNetinfoSinkWire c net u in
      if decide (dst_wire = WireId_none) then Throw log_execution_error_exception else
      let dest_wires := <[dst_wire := user_idx]> acc.1 in
      let found_unrouted := match net_wires !! dst_wire with
                            | None => true
                            | Some _ => acc.2
                            end in
      collect_dest_wires c net net_wires us' (S user_idx) (dest_wires, found_unrouted)
  end.

Fixpoint fold_option {T S} (f : T → S → option S) (l : list T) (s : S) : option S :=
  match l with
  | [] => Some s
  | x :: l' => match f x s with
               | Some s' => fold_option f l' s'
               | None => None
               end
  end.

(** The recursive lambda [setOrderNum]; [None] when the fuel (the depth of
    the recursion) runs out. *)
Fixpoint setOrderNum (fuel : nat) (dest_wires : gmap Z nat) (w : Z) (num : Z)
    (st : walk_state) : option walk_state :=
  match fuel with
  | O => None
  | S fuel' =>
      let db_entry := db_at (db st) w in
      if decide (order_num db_entry ≠ 0) then
        Some (mk_walk_state (<[w := db_entry]> (db st)) true (found_stub st))
      else
        let st := mk_walk_state (<[w := mk_ExtraWireInfo num (children db_entry)]> (db st))
                                (found_loop st) (found_stub st) in
        match fold_option (λ child, setOrderNum fuel' dest_wires child (num + 1))
                          (elements (children db_entry)) st with
        | None => None
        | Some st =>
            if decide (children db_entry = ∅) then
              match dest_wires !! w with
              | Some _ => Some st
              | None => Some (mk_walk_state (db st) (found_loop st) true)
              end
            else Some st
        end
  end.

(** [dangling_wires] *)
Definition dangling_wires (db : gmap Z ExtraWireInfo) : list Z :=
  (filter (λ it : Z * ExtraWireInfo, order_num it.2 = 0) (map_to_list db)).*1.

(** The body of the loop over the nets: [Ret true] where the source goes
    on to the next net, [Ret false] where it returns false. *)
Definition checkRoutedDesign_net (fuel : nat) (c : Ctx) (net : nat) : outcome bool :=
  let net_info := deref c net in
  match users net_info with
  | [] => if decide (wires net_info = ∅) then Ret true
          else Throw log_execution_error_exception
  | _ :: _ =>
      match build_db c (map_to_list (wires net_info)) ∅ with
      | Ret db0 =>
          let src_wire := getNetinfoSourceWire c net in
          if decide (src_wire = WireId_none) then Throw log_execution_error_exception else
          let found_unrouted := match wires net_info !! src_wire with
                                | None => true
                                | Some _ => false
                                end in
          match collect_dest_wires c net (wires net_info) (users net_info) 0%nat
                                   (∅, found_unrouted) with
          | Ret (dest_wires, found_unrouted) =>
              match setOrderNum fuel dest_wires src_wire 1 (mk_walk_state db0 false false) with
              | None => OutOfFuel
              | Some st =>
                  let fail := found_unrouted || found_loop st || found_stub st
                              || negb (bool_decide (dangling_wires (db st) = [])) in
                  Ret (negb fail)
              end
          | Throw e => Throw e
          | OutOfFuel => OutOfFuel
          end
      | Throw e => Throw e
      | OutOfFuel => OutOfFuel
      end
  end.

Fixpoint checkRoutedDesign_nets (fuel : nat) (c : Ctx) (l : list nat) : outcome bool :=
  match l with
  | [] => Ret true
  | net :: l' =>
      match checkRoutedDesign_net fuel c net with
      | Ret true => checkRoutedDesign_nets fuel c l'
      | r => r
      end
  end.

Definition checkRoutedDesign (fuel : nat) (c : Ctx) : outcome bool :=
  checkRoutedDesign_nets fuel c (nets c).

(** ** [router1] *)

Definition call_ctx_check : M unit :=
  s ← get; log_assert (ctx_check (ctx s)).

Definition call_checkRoutedDesign (fuel : nat) : M unit :=
  s ← get;
  match checkRoutedDesign fuel (ctx s) with
  | Ret b => log_assert b
  | Throw e => throw e
  | OutOfFuel => out_of_fuel
  end.

(** The check an iteration of the loop starts with when its number is a
    multiple of 1000. *)
Definition iteration_check (ndebug : bool) (iter_cnt : Z) : M unit :=
  if bool_decide ((iter_cnt + 1) `rem` 1000 = 0) && negb ndebug
  then check else mret tt.

(** [while (!router.arc_queue.empty())]: [Ret false] where the body
    returns false, [Ret true] when the queue has drained.  [ndebug] says
    whether [NDEBUG] is defined. *)
Fixpoint router1_loop (fuel : nat) (ndebug : bool) (cfg : Router1Cfg) (iter_cnt : Z)
    : M bool :=
  s ← get;
  match arc_queue s with
  | [] => mret true
  | _ :: _ =>
      match fuel with
      | O => out_of_fuel
      | S fuel' =>
          iteration_check ndebug iter_cnt;;
          arc ← arc_queue_pop;
          route_arc fuel cfg arc true ≫= λ ok : bool,
          if ok then router1_loop fuel' ndebug cfg (iter_cnt + 1)
          else
            modify (emit (EvWarnNoRoute arc));;
            (if ndebug then mret tt else check;; call_ctx_check);;
            modify (emit EvUnlock);;
            mret false
      end
  end.

(** The [try] block up to the loop. *)
Definition router1_enter (fuel : nat) (ndebug : bool) : M unit :=
  modify (emit EvLock);;
  setup fuel;;
  (if ndebug then mret tt else check).

(** The [try] block. *)
Definition router1_try (fuel : nat) (ndebug : bool) (cfg : Router1Cfg) : M bool :=
  router1_enter fuel ndebug;;
  router1_loop fuel ndebug cfg 0 ≫= λ ok : bool,
  if ok then
    (if ndebug then mret tt
     else check;; call_ctx_check;; call_checkRoutedDesign fuel);;
    modify (λ s, set_ctx (timing_analysis (ctx s)) s);;
    modify (emit EvUnlock);;
    mret true
  else mret false.

(** The handler [catch (log_execution_error_exception)]. *)
Definition router1_catch (ndebug : bool) : M bool :=
  (if ndebug then mret tt else call_ctx_check);;
  modify (emit EvUnlock);;
  mret false.

(** [try { ... } catch (log_execution_error_exception) { ... }], applied
    to what the [try] block, or a piece of it that runs to its end, did. *)
Definition try_catch (ndebug : bool) (r : outcome bool * Router1)
    : outcome bool * Router1 :=
  match r with
  | (Throw log_execution_error_exception, s) => router1_catch ndebug s
  | r => r
  end.

(** [router1(ctx, cfg)] *)
Definition router1 (fuel : nat) (ndebug : bool) (cfg : Router1Cfg) (c : Ctx)
    : outcome bool * Router1 :=
  try_catch ndebug (router1_try fuel ndebug cfg (Router1_new c)).

(** ** The operations of the router, as one type *)
Inductive operation :=
  | OpSetup
  | OpRouteArc (arc : arc_key) (ripup : bool)
  | OpRipupNet (net : nat)
  | OpRipupWire (wire : Z)
  | OpRipupPip (pip : Z)
  | OpArcQueueInsert (arc : arc_key)
  | OpArcQueuePop.

Definition run (fuel : nat) (cfg : Router1Cfg) (op : operation) : M unit :=
  match op with
  | OpSetup => setup fuel
  | OpRouteArc arc ripup => route_arc fuel cfg arc ripup;; mret tt
  | OpRipupNet net => ripup_net net
  | OpRipupWire wire => ripup_wire wire
  | OpRipupPip pip => ripup_pip pip
  | OpArcQueueInsert arc => arc_queue_insert arc
  | OpArcQueuePop => arc_queue_pop;; mret tt
  end.

End Router1.

(** ** A small concrete architecture

    Wires are numbered; pip [i] is the [i]-th pair (source wire,
    destination wire) of [toy_pips]; the cell [k] of a port sits on wire
    [k].  A wire is bound to the net whose wire map holds it; binding and
    unbinding edit that map, as the binding primitives of the generic
    architectures do.  Used to run the model on concrete designs. *)
Module Toy.

Record ToyCtx := mk_ToyCtx {
  toy_order : list nat;
  toy_nets : gmap nat NetInfo;
  toy_pips : list (Z * Z);
  toy_seed : Z
}.

Definition toy_deref (c : ToyCtx) (n : nat) : NetInfo :=
  default (mk_NetInfo (mk_PortRef None 0) [] ∅) (toy_nets c !! n).

Definition port_wire (u : PortRef) : Z :=
  match cell u with
  | Some k => Z.of_nat k
  | None => WireId_none
  end.

Definition toy_pip (c : ToyCtx) (p : Z) : Z * Z :=
  if decide (0 <= p)
  then default (WireId_none, WireId_none) (toy_pips c !! Z.to_nat p)
  else (WireId_none, WireId_none).

Definition toy_downhill (c : ToyCtx) (w : Z) : list Z :=
  Z.of_nat <$> (filter (λ ip : nat * (Z * Z), ip.2.1 = w)
                       (imap (λ i x, (i, x)) (toy_pips c))).*1.

(** The net a wire is bound to. *)
Definition wire_owner (c : ToyCtx) (w : Z) : option nat :=
  head (filter (λ n, is_Some (wires (toy_deref c n) !! w)) (toy_order c)).

(** The net a pip is bound to. *)
Definition pip_owner (c : ToyCtx) (p : Z) : option nat :=
  head (filter (λ n, stored_pip (wires (toy_deref c n)) (toy_pip c p).2 = Some p)
               (toy_order c)).

Definition set_net_wires (c : ToyCtx) (n : nat) (ws : gmap Z PipMap) : ToyCtx :=
  let ni := toy_deref c n in
  mk_ToyCtx (toy_order c)
            (<[n := mk_NetInfo (driver ni) (users ni) ws]> (toy_nets c))
            (toy_pips c) (toy_seed c).

Definition toy_bindWire (c : ToyCtx) (w : Z) (n : nat) (st : PlaceStrength)
    : option ToyCtx :=
  match wire_owner c w with
  | Some _ => None
  | None => Some (set_net_wires c n (<[w := mk_PipMap PipId_none st]> (wires (toy_deref c n))))
  end.

Definition toy_bindPip (c : ToyCtx) (p : Z) (n : nat) (st : PlaceStrength)
    : option ToyCtx :=
  let w := (toy_pip c p).2 in
  match wire_owner c w, pip_owner c p with
  | None, None => Some (set_net_wires c n (<[w := mk_PipMap p st]> (wires (toy_deref c n))))
  | _, _ => None
  end.

Definition toy_unbindWire (c : ToyCtx) (w : Z) : option ToyCtx :=
  match wire_owner c w with
  | Some n => Some (set_net_wires c n (delete w (wires (toy_deref c n))))
  | None => None
  end.

Global Instance toy_arch : Arch := {|
  Ctx := ToyCtx;
  nets := toy_order;
  deref := toy_deref;
  getNetinfoSourceWire := λ c n, port_wire (driver (toy_deref c n));
  getNetinfoSinkWire := λ c n u, port_wire u;
  getPipsDownhill := toy_downhill;
  getPipSrcWire := λ c p, (toy_pip c p).1;
  getPipDstWire := λ c p, (toy_pip c p).2;
  getWireDelay_maxDelay := λ c w, 1;
  getPipDelay_maxDelay := λ c p, 1;
  estimateDelay := λ c a b, Z.abs (b - a);
  getDelayEpsilon := λ c, 0;
  checkWireAvail := λ c w, bool_decide (wire_owner c w = None);
  checkPipAvail := λ c p, bool_decide (pip_owner c p = None);
  getConflictingWireWire := λ c w, w;
  getConflictingWireNet := wire_owner;
  getConflictingPipWire := λ c p, WireId_none;
  getConflictingPipNet := pip_owner;
  bindWire := toy_bindWire;
  bindPip := toy_bindPip;
  unbindWire := toy_unbindWire;
  rng := λ c, (toy_seed c,
               mk_ToyCtx (toy_order c) (toy_nets c) (toy_pips c) (toy_seed c + 1));
  ctx_check := λ c, true;
  timing_analysis := λ c, c
|}.

(** A net driven from the cell on wire [src], with one user per
    (sink wire, budget) pair, and the given wire map. *)
Definition mk_net (src : nat) (sinks : list (nat * Z)) (ws : gmap Z PipMap) : NetInfo :=
  mk_NetInfo (mk_PortRef (Some src) 0)
             (map (λ sb : nat * Z, mk_PortRef (Some sb.1) sb.2) sinks) ws.

Definition cfg1 : Router1Cfg := Router1Cfg_default 10.

(** One source wire 0, one pip 0 -> 1, one sink wire 1; one unrouted net. *)
Definition trivial_design : Ctx :=
  mk_ToyCtx [0%nat] {[0%nat := mk_net 0 [(1%nat, 5)] ∅]} [(0, 1)] 42.

(** [trivial_design] with its one arc routed. *)
Definition routed_design : Ctx :=
  mk_ToyCtx [0%nat]
    {[0%nat := mk_net 0 [(1%nat, 5)]
                 (<[0 := mk_PipMap PipId_none STRENGTH_WEAK]>
                    {[1 := mk_PipMap 0 STRENGTH_WEAK]})]}
    [(0, 1)] 42.

(** [routed_design] with wire 5 bound to the net as well, by no pip. *)
Definition stray_wire_design : Ctx :=
  mk_ToyCtx [0%nat]
    {[0%nat := mk_net 0 [(1%nat, 5)]
                 (<[0 := mk_PipMap PipId_none STRENGTH_WEAK]>
                    (<[1 := mk_PipMap 0 STRENGTH_WEAK]>
                       {[5 := mk_PipMap PipId_none STRENGTH_WEAK]}))]}
    [(0, 1)] 42.

(** One net from wire 0 with two users on wire 3; the budget of the first
    user is the tighter. *)
Definition budget_design : Ctx :=
  mk_ToyCtx [0%nat] {[0%nat := mk_net 0 [(3%nat, 1); (3%nat, 10)] ∅]} [(0, 3)] 42.

Definition tight_arc : arc_key := mk_arc_key 0 0.
Definition loose_arc : arc_key := mk_arc_key 0 1.

(** The sink on wire 2 cannot be reached: the one pip goes to wire 1. *)
Definition unroutable_design : Ctx :=
  mk_ToyCtx [0%nat] {[0%nat := mk_net 0 [(2%nat, 5)] ∅]} [(0, 1)] 42.

(** Wire 1, the sink of net 0, is bound to net 1, which has its sink on wire 8. *)
Definition contended_design : Ctx :=
  mk_ToyCtx [0%nat; 1%nat]
    (<[0%nat := mk_net 0 [(1%nat, 5)] ∅]>
       {[1%nat := mk_net 7 [(8%nat, 5)] {[1 := mk_PipMap PipId_none STRENGTH_WEAK]}]})
    [(0, 1)] 42.

(** One net that no cell drives: there is nothing to route. *)
Definition undriven_design : Ctx :=
  mk_ToyCtx [0%nat] {[0%nat := mk_NetInfo (mk_PortRef None 0) [] ∅]} [] 42.

(** [routed_design] without the binding of the source wire: the walk
    from the sink wire 1 reaches wire 0 along pip 0, and wire 1 is the only
    wire bound. *)
Definition unbound_source_design : Ctx :=
  mk_ToyCtx [0%nat]
    {[0%nat := mk_net 0 [(1%nat, 5)] {[1 := mk_PipMap 0 STRENGTH_WEAK]}]}
    [(0, 1)] 42.

(** The architecture of [toy_arch] in which no port of a user has a wire. *)
Definition sinkless_arch : Arch := {|
  Ctx := ToyCtx;
  nets := toy_order;
  deref := toy_deref;
  getNetinfoSourceWire := λ c n, port_wire (driver (toy_deref c n));
  getNetinfoSinkWire := λ c n u, WireId_none;
  getPipsDownhill := toy_downhill;
  getPipSrcWire := λ c p, (toy_pip c p).1;
  getPipDstWire := λ c p, (toy_pip c p).2;
  getWireDelay_maxDelay := λ c w, 1;
  getPipDelay_maxDelay := λ c p, 1;
  estimateDelay := λ c a b, Z.abs (b - a);
  getDelayEpsilon := λ c, 0;
  checkWireAvail := λ c w, bool_decide (wire_owner c w = None);
  checkPipAvail := λ c p, bool_decide (pip_owner c p = None);
  getConflictingWireWire := λ c w, w;
  getConflictingWireNet := wire_owner;
  getConflictingPipWire := λ c p, WireId_none;
  getConflictingPipNet := pip_owner;
  bindWire := toy_bindWire;
  bindPip := toy_bindPip;
  unbindWire := toy_unbindWire;
  rng := λ c, (toy_seed c,
               mk_ToyCtx (toy_order c) (toy_nets c) (toy_pips c) (toy_seed c + 1));
  ctx_check := λ c, true;
  timing_analysis := λ c, c
|}.

(** The state of the router after [f] on a new router for [c]. *)
Definition state_after {T} (m : M T) (c : ToyCtx) : Router1 := (m (Router1_new c)).2.

(** The arc of [unroutable_design] holding wire 5, bound to its net. *)
Definition detour_state : Router1 :=
  state_after (setup 20;; call_bindWire 5 0 STRENGTH_WEAK;; attach (mk_arc_key 0 0) 5)
              unroutable_design.

End Toy.

(** * Specification

    The properties of the router, stated over the embedding: relations
    between the state before and after a run, invariants of the state,
    and what the post-route validator accepts. *)

Section Specification.
Context `{A : Arch}.

(** ** Relations that every normally returning run respects *)

Definition respects (R : relation Router1) {T} (m : M T) : Prop :=
  ∀ s x s', m s = (Ret x, s') → R s s'.

Definition same_index (s s' : Router1) : Prop :=
  (∀ w, arcs_of (wire_to_arcs s') w = arcs_of (wire_to_arcs s) w)
  ∧ (∀ a, wires_of (arc_to_wires s') a = wires_of (arc_to_wires s) a).

Definition same_queue (s s' : Router1) : Prop :=
  arc_queue s' = arc_queue s ∧ queued_arcs s' = queued_arcs s.

Definition same_scores (s s' : Router1) : Prop :=
  (∀ w, wire_score (wireScores s') w = wire_score (wireScores s) w)
  ∧ (∀ n, net_score (netScores s') n = net_score (netScores s) n).

(** The trace grows by events other than calls of a rip-up entry point. *)
Definition quiet (s s' : Router1) : Prop :=
  ∃ t, trace s' = trace s ++ t ∧ Forall (λ e, is_ripup e = false) t.

Definition neutral (s s' : Router1) : Prop :=
  same_index s s' ∧ same_queue s s' ∧ same_scores s s' ∧ quiet s s'.

(** A relation is stable when the steps that touch the index, the work
    queue or the score book respect it, and every neutral step does. *)
Class Stable (R : relation Router1) : Prop := {
  st_preorder :: PreOrder R;
  st_neutral : ∀ s s', neutral s s' → R s s';
  st_attach : ∀ a w, respects R (attach a w);
  st_insert3 : ∀ a sw dw, respects R (arc_queue_insert3 a sw dw);
  st_pop : respects R arc_queue_pop;
  st_prepare : ∀ a, respects R (route_arc_prepare a);
  st_ripup_net : ∀ n, respects R (ripup_net n);
  st_ripup_wire : ∀ w, respects R (ripup_wire w);
  st_ripup_pip : ∀ p, respects R (ripup_pip p)
}.

(** The A* search writes [visited], [queue] and the random generator only. *)
Definition silent (s s' : Router1) : Prop :=
  wire_to_arcs s' = wire_to_arcs s ∧ arc_to_wires s' = arc_to_wires s
  ∧ arc_queue s' = arc_queue s ∧ queued_arcs s' = queued_arcs s
  ∧ wireScores s' = wireScores s ∧ netScores s' = netScores s
  ∧ ripup_flag s' = ripup_flag s ∧ trace s' = trace s.

(** ** The work queue and the index *)

(** Each arc occurs at most once in [arc_queue], and [queued_arcs] is the
    set of the arcs in it. *)
Definition queue_inv (s : Router1) : Prop :=
  NoDup (arc <$> arc_queue s)
  ∧ ∀ a, a ∈ queued_arcs s ↔ a ∈ arc <$> arc_queue s.

Definition keeps_queue_inv : relation Router1 := λ s s', queue_inv s → queue_inv s'.

(** The index is consistent: each map is the inverse of the other. *)
Definition index_inv (s : Router1) : Prop :=
  ∀ w a, a ∈ arcs_of (wire_to_arcs s) w ↔ w ∈ wires_of (arc_to_wires s) a.

Definition keeps_index_inv : relation Router1 := λ s s', index_inv s → index_inv s'.

(** ** The score book *)

(** The trace only grows. *)
Definition trace_grows (s s' : Router1) : Prop := ∃ t, trace s' = trace s ++ t.

(** The exact effect of a write: [wireScores[w]++], and what [ripup_net]
    does for the net [n] as it was bound on entry. *)
Definition bumped_wire (w : Z) (s s' : Router1) : Prop :=
  (∀ w', wire_score (wireScores s') w'
         = wire_score (wireScores s) w' + (if decide (w' = w) then 1 else 0))
  ∧ (∀ n, net_score (netScores s') n = net_score (netScores s) n).

Definition bumped_net (n : nat) (s s' : Router1) : Prop :=
  (∀ n', net_score (netScores s') n'
         = net_score (netScores s) n' + (if decide (n' = n) then 1 else 0))
  ∧ (∀ w, wire_score (wireScores s') w
          = wire_score (wireScores s) w
            + (if decide (is_Some (wires (deref (ctx s) n) !! w)) then 1 else 0)).

(** The effect of [ripup_wire] / [ripup_pip], by what the architecture
    names as the conflict: a wire [cw], else a net [cn], else nothing. *)
Definition ripup_effect (cw : Z) (cn : option nat) (s s' : Router1) : Prop :=
  if decide (cw = WireId_none) then
    match cn with
    | Some n => bumped_net n s s'
    | None => same_scores s s'
    end
  else bumped_wire cw s s'.

(** No counter decreases, and the counters stay as they are unless a
    rip-up entry point was called. *)
Definition scores_grow (s s' : Router1) : Prop :=
  (∀ w, wire_score (wireScores s) w ≤ wire_score (wireScores s') w)
  ∧ (∀ n, net_score (netScores s) n ≤ net_score (netScores s') n)
  ∧ ∃ t, trace s' = trace s ++ t
         ∧ (Forall (λ e, is_ripup e = false) t → same_scores s s').

Definition calm (s s' : Router1) : Prop := same_scores s s' ∧ trace_grows s s'.

(** ** A failed search *)

(** Code that can only return or raise [log_execution_error_exception],
    and touches neither the context nor the trace: [check]. *)
Definition harmless {T} (m : M T) : Prop :=
  ∀ s o s', m s = (o, s') →
    (o = Throw log_execution_error_exception ∨ ∃ x, o = Ret x)
    ∧ ctx s' = ctx s ∧ trace s' = trace s.

(** The outer loop gets from one iteration to a later one when every
    iteration in between routes its arc. *)
Inductive loop_reaches (ndebug : bool) (cfg : Router1Cfg)
    : nat → Z → Router1 → nat → Z → Router1 → Prop :=
  | loop_reaches_here fuel it s : loop_reaches ndebug cfg fuel it s fuel it s
  | loop_reaches_next fuel it s s1 a s2 s3 fuel' it' s' :
      iteration_check ndebug it s = (Ret tt, s1) →
      arc_queue_pop s1 = (Ret a, s2) →
      route_arc (S fuel) cfg a true s2 = (Ret true, s3) →
      loop_reaches ndebug cfg fuel (it + 1) s3 fuel' it' s' →
      loop_reaches ndebug cfg (S fuel) it s fuel' it' s'.

Definition same_flag (s s' : Router1) : Prop := ripup_flag s' = ripup_flag s.

(** ** The cost of a step of the search *)

(** The penalty of a conflicting wire and of a conflicting net, as the
    specification words them. *)
Definition wire_ripup_cost (cfg : Router1Cfg) (s : Router1) (conflict : Z) : Z :=
  if decide (conflict = WireId_none) then 0
  else wireRipupPenalty cfg * (1 + wire_score (wireScores s) conflict).

Definition net_ripup_cost (cfg : Router1Cfg) (s : Router1) (conflict : option nat) : Z :=
  match conflict with
  | None => 0
  | Some n => netRipupPenalty cfg * (1 + net_score (netScores s) n)
              + wireRipupPenalty cfg * Z.of_nat (size (wires (deref (ctx s) n)))
  end.

(** ** A routed design *)

(** The backward walk of [setup] from [cursor] to the source wire of the
    net, along the stored pip of each wire; [ws] lists the wires it moves
    to, in order. *)
Inductive walk_path (c : Ctx) (net : nat) (src_wire : Z) : Z → list Z → Prop :=
  | walk_path_src : walk_path c net src_wire src_wire []
  | walk_path_step cursor it ws :
      cursor ≠ src_wire →
      wires (deref c net) !! cursor = Some it →
      pip it ≠ PipId_none →
      walk_path c net src_wire (getPipSrcWire c (pip it)) ws →
      walk_path c net src_wire cursor (getPipSrcWire c (pip it) :: ws).

(** A net is routed, as the specification words it: the walk of each arc
    reaches the source wire, and the walks cover every wire bound to the
    net (so a net without users has no wire bound). *)
Definition net_routed_as_specified (c : Ctx) (net : nat) : Prop :=
  let net_info := deref c net in
  let src_wire := getNetinfoSourceWire c net in
  (∀ u, u ∈ users net_info →
     ∃ ws, walk_path c net src_wire (getNetinfoSinkWire c net u) ws)
  ∧ (∀ w, is_Some (wires net_info !! w) →
       ∃ u ws, u ∈ users net_info
               ∧ walk_path c net src_wire (getNetinfoSinkWire c net u) ws
               ∧ w ∈ getNetinfoSinkWire c net u :: ws).

Definition design_routed_as_specified (c : Ctx) : Prop :=
  ∀ net, net ∈ nets c → skip_net (deref c net) = false → net_routed_as_specified c net.

(** A net is routed: that, and the source wire of a net that has a user is
    bound to the net. *)
Definition net_routed (c : Ctx) (net : nat) : Prop :=
  (users (deref c net) ≠ [] →
   is_Some (wires (deref c net) !! getNetinfoSourceWire c net))
  ∧ net_routed_as_specified c net.

Definition design_routed (c : Ctx) : Prop :=
  ∀ net, net ∈ nets c → skip_net (deref c net) = false → net_routed c net.

(** [setup] comes to the [log_error] whose message reads the name of the
    cell of a user, for a user that is on no cell. *)
Definition reads_null_cell (c : Ctx) : Prop :=
  ∃ net u, net ∈ nets c ∧ u ∈ users (deref c net)
           ∧ cell u = None ∧ getNetinfoSinkWire c net u = WireId_none.

Section design_defs.
Context (c : Ctx).

(** Nothing queued, nothing asked of the architecture. *)
Definition untouched (s : Router1) : Prop :=
  ctx s = c ∧ arc_queue s = [] ∧ queued_arcs s = ∅ ∧ trace s = [].

Definition has_key (s : Router1) (w : Z) : Prop := is_Some (wire_to_arcs s !! w).

Definition keys_kept (s s' : Router1) : Prop := ∀ w, has_key s w → has_key s' w.

(** A run that either returns or stops on a [log_error], and leaves the
    state untouched either way; or that reads the name of a null cell. *)
Definition fine {T} (r : outcome T * Router1) (Q : T → Router1 → Prop) : Prop :=
  match r with
  | (Ret x, s') => untouched s' ∧ Q x s'
  | (Throw log_execution_error_exception, s') => untouched s'
  | (Throw undefined_behaviour, _) => reads_null_cell c
  | _ => False
  end.

Definition sink_of (net : nat) (u : PortRef) : Z := getNetinfoSinkWire c net u.

(** The walk of an arc is in [wire_to_arcs]. *)
Definition covers_arc (s : Router1) (net : nat) (dst_wire : Z) : Prop :=
  ∀ ws, walk_path c net (getNetinfoSourceWire c net) dst_wire ws →
        ∀ w, w ∈ dst_wire :: ws → has_key s w.

Definition adopted (maps : setup_maps) (s : Router1) : Prop :=
  ∀ d a, dst_to_arc maps !! d = Some a → covers_arc s (net_info a) d.

Definition fuel_covers (fuel : nat) (net : nat) : Prop :=
  ∀ u ws, u ∈ users (deref c net) →
          walk_path c net (getNetinfoSourceWire c net) (sink_of net u) ws →
          (length ws ≤ fuel)%nat.

End design_defs.

(** ** The traversal of the validator *)

Definition vis (st : walk_state) (w : Z) : Prop := order_num (db_at (db st) w) ≠ 0.

Definition visited_set (st : walk_state) : gset Z :=
  dom (filter (λ kv : Z * ExtraWireInfo, order_num kv.2 ≠ 0) (db st)).

Section graph_defs.
(** [root] is the wire the traversal starts from, [kids u] the children
    of [u]. *)
Context (root : Z) (kids : Z → gset Z) (wire_universe : gset Z) (dest_wires : gmap Z nat).

Definition kid (u x : Z) : Prop := x ∈ kids u.

Definition kids_ok (st : walk_state) : Prop :=
  ∀ u, children (db_at (db st) u) = kids u.

(** Every visited wire but the root has a visited parent. *)
Definition parents_visited (st : walk_state) : Prop :=
  ∀ x, vis st x → x ≠ root → ∃ p, vis st p ∧ x ∈ kids p.

Definition fresh (st st' : walk_state) (y : Z) : Prop := vis st' y ∧ ¬ vis st y.

Definition unvisited (st : walk_state) : nat := size (wire_universe ∖ visited_set st).

Record dfs_pre (roots : list Z) (st : walk_state) : Prop := {
  pre_kids : kids_ok st;
  pre_root : vis st root ∨ ∀ x, x ∈ roots → x = root;
  pre_parents : parents_visited st;
  pre_nodup : NoDup roots;
  pre_roots : ∀ x, x ∈ roots → x ≠ root → ¬ vis st x ∧ ∃ p, vis st p ∧ x ∈ kids p
}.

(** [hit]: a call was made on a wire that was visited already. *)
Record dfs_post (hit : Prop) (roots : list Z) (st st' : walk_state) : Prop := {
  post_kids : kids_ok st';
  post_mono : ∀ x, vis st x → vis st' x;
  post_roots : ∀ x, x ∈ roots → vis st' x;
  post_reach : ∀ y, fresh st st' y → ∃ x, x ∈ roots ∧ rtc kid x y;
  post_parent : ∀ y, fresh st st' y → y ∈ roots ∨ ∃ p, fresh st st' p ∧ y ∈ kids p;
  post_closed : ∀ p, fresh st st' p → ∀ x, x ∈ kids p → vis st' x;
  post_loop : found_loop st' = true
              ↔ found_loop st = true ∨ hit ∨ ∃ p, fresh st st' p ∧ root ∈ kids p;
  post_stub : found_stub st' = true
              ↔ found_stub st = true
                ∨ ∃ p, fresh st st' p ∧ kids p = ∅ ∧ dest_wires !! p = None;
  post_dom : ∀ u, is_Some (db st !! u) → is_Some (db st' !! u);
  post_dom' : ∀ u, is_Some (db st' !! u) → is_Some (db st !! u) ∨ vis st' u
}.

(** What a call of [setOrderNum] with enough fuel does. *)
Definition call_ok (fuel : nat) : Prop :=
  ∀ w num st,
    0 < num → dfs_pre [w] st → w ∈ wire_universe → (unvisited st < fuel)%nat →
    ∃ st', setOrderNum fuel dest_wires w num st = Some st'
           ∧ dfs_post (vis st w) [w] st st'.

Definition mark (w num : Z) (st : walk_state) : walk_state :=
  mk_walk_state (<[w := mk_ExtraWireInfo num (children (db_at (db st) w))]> (db st))
                (found_loop st) (found_stub st).

End graph_defs.

(** ** What the validator accepts *)

(** The switch graph of a net: [u] is the source wire of the pip stored for
    [x]. *)
Definition child (c : Ctx) (net : nat) (u x : Z) : Prop :=
  ∃ it, wires (deref c net) !! x = Some it
        ∧ pip it ≠ PipId_none ∧ getPipSrcWire c (pip it) = u.

Definition reached (c : Ctx) (net : nat) : Z → Prop :=
  rtc (child c net) (getNetinfoSourceWire c net).

(** What the [log_assert]s of the validator demand of a net. *)
Definition net_asserts (c : Ctx) (net : nat) : Prop :=
  let net_info := deref c net in
  match users net_info with
  | [] => wires net_info = ∅
  | _ :: _ =>
      (∀ w it, wires net_info !! w = Some it → pip it ≠ PipId_none →
               getPipDstWire c (pip it) = w)
      ∧ getNetinfoSourceWire c net ≠ WireId_none
      ∧ ∀ u, u ∈ users net_info → getNetinfoSinkWire c net u ≠ WireId_none
  end.

(** What the validator accepts: source and sinks bound, no cycle met from
    the source, every leaf met a sink, and every wire that drives a stored
    pip met. *)
Definition net_valid (c : Ctx) (net : nat) : Prop :=
  let net_info := deref c net in
  users net_info ≠ [] →
  is_Some (wires net_info !! getNetinfoSourceWire c net)
  ∧ (∀ u, u ∈ users net_info → is_Some (wires net_info !! getNetinfoSinkWire c net u))
  ∧ ¬ (∃ w, reached c net w ∧ tc (child c net) w w)
  ∧ (∀ w, reached c net w → (∀ x, ¬ child c net w x) →
          ∃ u, u ∈ users net_info ∧ getNetinfoSinkWire c net u = w)
  ∧ (∀ u x, child c net u x → reached c net u).

(** The last condition as the specification words it: every wire bound to
    the net is met. *)
Definition net_valid_as_specified (c : Ctx) (net : nat) : Prop :=
  let net_info := deref c net in
  users net_info ≠ [] →
  is_Some (wires net_info !! getNetinfoSourceWire c net)
  ∧ (∀ u, u ∈ users net_info → is_Some (wires net_info !! getNetinfoSinkWire c net u))
  ∧ ¬ (∃ w, reached c net w ∧ tc (child c net) w w)
  ∧ (∀ w, reached c net w → (∀ x, ¬ child c net w x) →
          ∃ u, u ∈ users net_info ∧ getNetinfoSinkWire c net u = w)
  ∧ (∀ w, is_Some (wires net_info !! w) → reached c net w).

Definition edge_in (c : Ctx) (l : list (Z * PipMap)) (u x : Z) : Prop :=
  ∃ it, (x, it) ∈ l ∧ pip it ≠ PipId_none ∧ getPipSrcWire c (pip it) = u.

Definition pips_end_at_wire (c : Ctx) (l : list (Z * PipMap)) : Prop :=
  ∀ w it, (w, it) ∈ l → pip it ≠ PipId_none → getPipDstWire c (pip it) = w.

(** ** Further properties of the code *)

(** What [std::priority_queue] asks of its comparator: a strict weak
    ordering. *)
Definition strict_weak_order {T} (comp : T → T → bool) : Prop :=
  (∀ x, comp x x = false)
  ∧ (∀ x y z, comp x y = true → comp y z = true → comp x z = true)
  ∧ (∀ x y z, comp x y = false → comp y z = false → comp x z = false).

(** The key [QueuedWire::Greater] compares first. *)
Definition qw_cost (q : QueuedWire) : Z :=
  qw_delay q + qw_penalty q + qw_togo q - qw_bonus q.

(** The net may step onto the wire: the wire is free, or the net holds it
    already. *)
Definition wire_usable (c : Ctx) (net : nat) (w : Z) : Prop :=
  checkWireAvail c w = true ∨ is_Some (wires (deref c net) !! w).

(** The net may step through the pip: the pip is free, or it is the pip by
    which the net holds the destination wire. *)
Definition pip_usable (c : Ctx) (net : nat) (pip : Z) : Prop :=
  checkPipAvail c pip = true
  ∨ stored_pip (wires (deref c net)) (getPipDstWire c pip) = Some pip.

Definition no_conflicts : conflicts := mk_conflicts WireId_none WireId_none None None.

(** A step that may queue arcs, makes no call on the architecture and
    leaves [ripup_flag] and the two counters alone. *)
Definition queue_grows (s s' : Router1) : Prop :=
  trace s' = trace s ∧ ripup_flag s' = ripup_flag s
  ∧ arcs_with_ripup s' = arcs_with_ripup s
  ∧ arcs_without_ripup s' = arcs_without_ripup s
  ∧ queued_arcs s ⊆ queued_arcs s'.

(** [ripup_flag] is raised by the calls of a rip-up entry point and by
    nothing else, and the two counters stand still. *)
Definition flag_tracks (s s' : Router1) : Prop :=
  arcs_with_ripup s' = arcs_with_ripup s
  ∧ arcs_without_ripup s' = arcs_without_ripup s
  ∧ ∃ t, trace s' = trace s ++ t
         ∧ ripup_flag s' = ripup_flag s || existsb is_ripup t.

(** When no rip-up entry point ran, an arc holds every wire it held. *)
Definition holds_unless_ripup (a : arc_key) (s s' : Router1) : Prop :=
  ripup_flag s' = false →
  ripup_flag s = false
  ∧ wires_of (arc_to_wires s) a ⊆ wires_of (arc_to_wires s') a
  ∧ ∀ w, a ∈ arcs_of (wire_to_arcs s) w → a ∈ arcs_of (wire_to_arcs s') w.

Definition always (R : relation Router1) {T} (m : M T) : Prop :=
  ∀ s r s', m s = (r, s') → R s s'.

(** The trace grows by events of the class [P]. *)
Definition emits (P : Event → Prop) (s s' : Router1) : Prop :=
  ∃ t, trace s' = trace s ++ t ∧ Forall P t.

(** The events of each kind. *)
Definition is_unbind (e : Event) : Prop := ∃ w, e = EvUnbindWire w.

Definition not_lock (e : Event) : Prop := e ≠ EvLock ∧ e ≠ EvUnlock.

(** A run that unlocks the context where it returns false, and nowhere
    else, and does not lock it. *)
Definition unlocks_on_false (r : outcome bool) (s s' : Router1) : Prop :=
  ∃ t, trace s' = trace s ++ t ++ match r with Ret false => [EvUnlock] | _ => [] end
       ∧ Forall not_lock t.

(** A run that unlocks the context where it returns, and nowhere else,
    and does not lock it. *)
Definition unlocks_on_return {T} (r : outcome T) (s s' : Router1) : Prop :=
  ∃ t, trace s' = trace s ++ t ++ (if returns r then [EvUnlock] else [])
       ∧ Forall not_lock t.

(** A step that detaches nothing, dequeues nothing and leaves the score
    book alone. *)
Definition only_grows (s s' : Router1) : Prop :=
  (∀ a, wires_of (arc_to_wires s) a ⊆ wires_of (arc_to_wires s') a)
  ∧ (∀ w, arcs_of (wire_to_arcs s) w ⊆ arcs_of (wire_to_arcs s') w)
  ∧ queued_arcs s ⊆ queued_arcs s'
  ∧ wireScores s' = wireScores s ∧ netScores s' = netScores s.

(** A step of the loop over the users: no call on the architecture. *)
Definition adds (s s' : Router1) : Prop :=
  ctx s' = ctx s ∧ trace s' = trace s ∧ only_grows s s'.

(** The arc of user [j] is queued, or holds the source wire, or an
    earlier user of the net has the same sink wire. *)
Definition accounted (c : Ctx) (net : nat) (s : Router1) (j : nat) (u : PortRef) : Prop :=
  mk_arc_key net j ∈ queued_arcs s
  ∨ getNetinfoSourceWire c net ∈ wires_of (arc_to_wires s) (mk_arc_key net j)
  ∨ ∃ j' u', (j' < j)%nat ∧ users (deref c net) !! j' = Some u'
             ∧ getNetinfoSinkWire c net u' = getNetinfoSinkWire c net u.

(** What the loop over the users keeps, before the user of index [k]. *)
Definition users_inv (c : Ctx) (net : nat) (k : nat) (maps : setup_maps) (s : Router1) : Prop :=
  ctx s = c
  ∧ (∀ w a, dst_to_arc maps !! w = Some a → net_info a = net →
            ∃ u', (user_idx a < k)%nat ∧ users (deref c net) !! user_idx a = Some u'
                  ∧ getNetinfoSinkWire c net u' = w)
  ∧ (∀ j u, (j < k)%nat → users (deref c net) !! j = Some u → accounted c net s j u).

(** A run that passes exactly when [P] holds, then with a result and a
    state that satisfy [Q], and that otherwise fails by [log_assert]. *)
Definition decides {T} (r : outcome T * Router1) (P : Prop) (Q : T → Router1 → Prop)
    : Prop :=
  match r with
  | (Ret v, s') => P ∧ Q v s'
  | (Throw e, _) => e = log_execution_error_exception ∧ ¬ P
  | (OutOfFuel, _) => False
  end.

(** [check] writes nothing but the entries that a bare [operator[]]
    creates: the arcs of [V] may have got an entry in [arc_to_wires]. *)
Definition touched (V : gset arc_key) (s s' : Router1) : Prop :=
  ctx s' = ctx s
  ∧ (∀ w, arcs_of (wire_to_arcs s') w = arcs_of (wire_to_arcs s) w)
  ∧ (∀ a, wires_of (arc_to_wires s') a = wires_of (arc_to_wires s) a)
  ∧ (∀ a, is_Some (arc_to_wires s !! a) → is_Some (arc_to_wires s' !! a))
  ∧ (∀ a, is_Some (arc_to_wires s' !! a) → is_Some (arc_to_wires s !! a) ∨ a ∈ V).

(** What [check] asserts of a wire of an arc. *)
Definition wire_ok (s : Router1) (net : nat) (arc : arc_key) (w : Z) : Prop :=
  arc ∈ arcs_of (wire_to_arcs s) w ∧ is_Some (wires (deref (ctx s) net) !! w).

(** What [check] asserts of a user of a net. *)
Definition user_ok (s : Router1) (net : nat) (i : nat) (u : PortRef) : Prop :=
  getNetinfoSinkWire (ctx s) net u ≠ WireId_none
  ∧ ∀ w, w ∈ wires_of (arc_to_wires s) (mk_arc_key net i) →
         wire_ok s net (mk_arc_key net i) w.

(** The arcs of the nets that [check] visits. *)
Definition valid_arc (c : Ctx) (a : arc_key) : Prop :=
  net_info a ∈ nets c
  ∧ skip_net (deref c (net_info a)) = false
  ∧ (user_idx a < length (users (deref c (net_info a))))%nat.

(** What [check] asserts of a net. *)
Definition net_ok (s : Router1) (net : nat) : Prop :=
  let c := ctx s in
  skip_net (deref c net) = false →
  getNetinfoSourceWire c net ≠ WireId_none
  ∧ (∀ i u, users (deref c net) !! i = Some u → user_ok s net i u)
  ∧ (∀ w, is_Some (wires (deref c net) !! w) →
          ∃ i, (i < length (users (deref c net)))%nat
               ∧ w ∈ wires_of (arc_to_wires s) (mk_arc_key net i)).

(** What [check] asserts: every net is consistent with the index, and
    the index mentions no arc of a net it does not visit. *)
Definition books_consistent (s : Router1) : Prop :=
  (∀ net, net ∈ nets (ctx s) → net_ok s net)
  ∧ (∀ w a, a ∈ arcs_of (wire_to_arcs s) w → valid_arc (ctx s) a)
  ∧ (∀ a, is_Some (arc_to_wires s !! a) → valid_arc (ctx s) a).

(** The net at which the loop of the validator stops: the nets before it
    pass. *)
Definition first_bad_net (c : Ctx) (P : nat → Prop) : Prop :=
  ∃ l1 net l2, nets c = l1 ++ net :: l2
               ∧ (∀ n, n ∈ l1 → net_asserts c n ∧ net_valid c n)
               ∧ P net.

Definition not_warning (e : Event) : Prop := ∀ a, e ≠ EvWarnNoRoute a.

(** The context after [k] draws of the random generator. *)
Definition after_draws (k : nat) (c : Ctx) : Ctx := Nat.iter k (λ c, (rng c).2) c.

(** A step that writes [visited] and [queue] only, and does nothing to
    the architecture but draw random numbers. *)
Definition searches (s s' : Router1) : Prop :=
  silent s s'
  ∧ arcs_with_ripup s' = arcs_with_ripup s
  ∧ arcs_without_ripup s' = arcs_without_ripup s
  ∧ ∃ k, ctx s' = after_draws k (ctx s).

End Specification.

(** * Proofs *)


Section Logic.
Context `{A : Arch}.

(** ** The monad: running a bind *)

Lemma bind_unfold {T U} (m : M T) (f : T → M U) s :
  (m ≫= f) s = match m s with
               | (Ret x, s') => f x s'
               | (Throw e, s') => (Throw e, s')
               | (OutOfFuel, s') => (OutOfFuel, s')
               end.
Proof. reflexivity. Qed.

Lemma bind_Ret {T U} (m : M T) (f : T → M U) s x s' :
  (m ≫= f) s = (Ret x, s') ↔ ∃ y s1, m s = (Ret y, s1) ∧ f y s1 = (Ret x, s').
Proof.
  rewrite bind_unfold. split.
  - destruct (m s) as [[y|e|] s1]; [eauto | discriminate | discriminate].
  - intros (y & s1 & -> & ?). done.
Qed.

(** ** Relations that every normally returning run respects *)

Section respects.
Context (R : relation Router1) `{!PreOrder R}.

Lemma respects_ret {T} (x : T) : respects R (mret x).
Proof. intros s y s' [= _ <-]. reflexivity. Qed.

Lemma respects_get : respects R get.
Proof. intros s y s' [= _ <-]. reflexivity. Qed.

Lemma respects_throw {T} e : respects R (@throw _ T e).
Proof. intros s y s' [=]. Qed.

Lemma respects_log_error {T} : respects R (@log_error _ T).
Proof. intros s y s' [=]. Qed.

Lemma respects_out_of_fuel {T} : respects R (@out_of_fuel _ T).
Proof. intros s y s' [=]. Qed.

Lemma respects_bind {T U} (m : M T) (f : T → M U) :
  respects R m → (∀ x, respects R (f x)) → respects R (m ≫= f).
Proof.
  intros Hm Hf s y s' (x & s1 & H1 & H2)%bind_Ret.
  etrans; [eapply Hm | eapply Hf]; eauto.
Qed.

Lemma respects_NPNR_ASSERT b : respects R (NPNR_ASSERT b).
Proof. destruct b; [apply respects_ret | apply respects_throw]. Qed.

Lemma respects_log_assert b : respects R (log_assert b).
Proof. destruct b; [apply respects_ret | apply respects_throw]. Qed.

Lemma respects_for_each {T} (l : list T) (body : T → M unit) :
  (∀ x, respects R (body x)) → respects R (for_each l body).
Proof.
  intros Hb. induction l as [|x l IH]; simpl.
  - apply respects_ret.
  - apply respects_bind; auto.
Qed.

Lemma respects_foldM {T U} (body : U → T → M U) (l : list T) (u : U) :
  (∀ u x, respects R (body u x)) → respects R (foldM body l u).
Proof.
  intros Hb. revert u. induction l as [|x l IH]; intros u; simpl.
  - apply respects_ret.
  - apply respects_bind; auto.
Qed.

Lemma respects_modify (f : Router1 → Router1) :
  (∀ s, R s (f s)) → respects R (modify f).
Proof. intros Hf s y s' [= _ <-]. apply Hf. Qed.
End respects.

(** ** Steps that leave the index, the work queue and the score book alone *)

Global Instance neutral_preorder : PreOrder neutral.
Proof.
  split.
  - intros s. repeat split; try done. exists []. by rewrite app_nil_r.
  - intros s1 s2 s3 ((Hi1 & Hi2) & (Hq1 & Hq2) & (Hs1 & Hs2) & (t1 & Ht1 & Hf1))
                     ((Hi3 & Hi4) & (Hq3 & Hq4) & (Hs3 & Hs4) & (t2 & Ht2 & Hf2)).
    split; [|split; [|split]].
    + split; intros x; [by rewrite Hi3 | by rewrite Hi4].
    + split; congruence.
    + split; intros x; [by rewrite Hs3 | by rewrite Hs4].
    + exists (t1 ++ t2). split; [by rewrite Ht2, Ht1, app_assoc|].
      by apply Forall_app.
Qed.

Lemma neutral_now (s s' : Router1) :
  wire_to_arcs s' = wire_to_arcs s → arc_to_wires s' = arc_to_wires s →
  arc_queue s' = arc_queue s → queued_arcs s' = queued_arcs s →
  wireScores s' = wireScores s → netScores s' = netScores s →
  trace s' = trace s → neutral s s'.
Proof.
  intros E1 E2 E3 E4 E5 E6 E7. repeat split; try congruence.
  exists []. by rewrite app_nil_r.
Qed.

Lemma neutral_emit e s : is_ripup e = false → neutral s (emit e s).
Proof.
  intros He. repeat split; try done. exists [e]. split; [done|]. by constructor.
Qed.

Lemma arcs_of_touch (m : gmap Z (gset arc_key)) w w' :
  arcs_of (<[w := arcs_of m w]> m) w' = arcs_of m w'.
Proof.
  unfold arcs_of. destruct (decide (w = w')) as [->|].
  - by rewrite lookup_insert_eq.
  - by rewrite lookup_insert_ne.
Qed.

Lemma wires_of_touch (m : gmap arc_key (gset Z)) a a' :
  wires_of (<[a := wires_of m a]> m) a' = wires_of m a'.
Proof.
  unfold wires_of. destruct (decide (a = a')) as [->|].
  - by rewrite lookup_insert_eq.
  - by rewrite lookup_insert_ne.
Qed.

Lemma neutral_touch_wire w s x s' : touch_wire w s = (Ret x, s') → neutral s s'.
Proof.
  intros [= _ <-]. repeat split; try done.
  - intros w'. apply arcs_of_touch.
  - exists []. by rewrite app_nil_r.
Qed.

Lemma neutral_touch_arc a s x s' : touch_arc a s = (Ret x, s') → neutral s s'.
Proof.
  intros [= _ <-]. repeat split; try done.
  - intros a'. apply wires_of_touch.
  - exists []. by rewrite app_nil_r.
Qed.

Lemma neutral_unbindWire w : respects neutral (call_unbindWire w).
Proof.
  intros s x s'. unfold call_unbindWire.
  destruct (unbindWire (ctx s) w); [intros [= _ <-] | intros [=]].
  etrans; [|by apply (neutral_emit (EvUnbindWire w))].
  by apply neutral_now.
Qed.

End Logic.

Section Stable.
Context `{A : Arch}.

Lemma respects_weaken (R R' : relation Router1) {T} (m : M T) :
  (∀ s s', R s s' → R' s s') → respects R m → respects R' m.
Proof. intros HR Hm s x s' Hrun. eauto. Qed.

Lemma neutral_modify (f : Router1 → Router1) :
  (∀ s, neutral s (f s)) → respects neutral (modify f).
Proof. apply respects_modify. Qed.

Lemma neutral_bindWire w n st : respects neutral (call_bindWire w n st).
Proof.
  intros s x s'. unfold call_bindWire.
  destruct (bindWire (ctx s) w n st); [intros [= _ <-] | intros [=]].
  etrans; [|by apply (neutral_emit (EvBindWire w n st))].
  by apply neutral_now.
Qed.

Lemma neutral_bindPip p n st : respects neutral (call_bindPip p n st).
Proof.
  intros s x s'. unfold call_bindPip.
  destruct (bindPip (ctx s) p n st); [intros [= _ <-] | intros [=]].
  etrans; [|by apply (neutral_emit (EvBindPip p n st))].
  by apply neutral_now.
Qed.

Lemma neutral_rng : respects neutral call_rng.
Proof.
  intros s x s'. unfold call_rng. destruct (rng (ctx s)). intros [= _ <-].
  by apply neutral_now.
Qed.

Lemma neutral_touch_wire' w : respects neutral (touch_wire w).
Proof. intros s x s'. apply neutral_touch_wire. Qed.

Lemma neutral_touch_arc' a : respects neutral (touch_arc a).
Proof. intros s x s'. apply neutral_touch_arc. Qed.

End Stable.

(** Decomposes a goal [respects R m] along the syntax of [m]. *)
Ltac resp_modify :=
  apply neutral_modify; intros ?;
  first [ by apply neutral_now | by apply neutral_emit ].

Create HintDb from_neutral discriminated.

Ltac via_neutral tac :=
  first [ tac
        | apply (respects_weaken neutral);
          [first [apply st_neutral | solve [eauto with from_neutral]] | tac] ].

Ltac resp_step :=
  lazymatch goal with
  | |- respects _ (mret _) => apply respects_ret; solve [apply _]
  | |- respects _ (mbind _ _) => apply respects_bind; [solve [apply _] | | intros ?]
  | |- respects _ get => apply respects_get; solve [apply _]
  | |- respects _ (throw _) => apply respects_throw
  | |- respects _ log_error => apply respects_throw
  | |- respects _ out_of_fuel => apply respects_out_of_fuel
  | |- respects _ (NPNR_ASSERT _) => apply respects_NPNR_ASSERT; solve [apply _]
  | |- respects _ (log_assert _) => apply respects_log_assert; solve [apply _]
  | |- respects _ (for_each _ _) => apply respects_for_each; [solve [apply _] | intros ?]
  | |- respects _ (foldM _ _ _) => apply respects_foldM; [solve [apply _] | intros ? ?]
  | |- respects _ (attach _ _) => apply st_attach
  | |- respects _ (arc_queue_insert3 _ _ _) => apply st_insert3
  | |- respects _ arc_queue_pop => apply st_pop
  | |- respects _ (route_arc_prepare _) => apply st_prepare
  | |- respects _ (ripup_net _) => apply st_ripup_net
  | |- respects _ (ripup_wire _) => apply st_ripup_wire
  | |- respects _ (ripup_pip _) => apply st_ripup_pip
  | |- respects _ (call_unbindWire _) => via_neutral ltac:(apply neutral_unbindWire)
  | |- respects _ (call_bindWire _ _ _) => via_neutral ltac:(apply neutral_bindWire)
  | |- respects _ (call_bindPip _ _ _) => via_neutral ltac:(apply neutral_bindPip)
  | |- respects _ call_rng => via_neutral ltac:(apply neutral_rng)
  | |- respects _ (touch_wire _) => via_neutral ltac:(apply neutral_touch_wire')
  | |- respects _ (touch_arc _) => via_neutral ltac:(apply neutral_touch_arc')
  | |- respects _ (modify _) => via_neutral ltac:(resp_modify)
  | |- respects _ (match ?x with _ => _ end) => destruct x
  | |- respects _ (let _ := _ in _) => cbv zeta
  end.

Ltac resp := repeat resp_step.
Ltac resp_with tac := repeat first [resp_step | tac].

Section Generic.
Context `{A : Arch}.

Global Instance silent_preorder : PreOrder silent.
Proof.
  split.
  - by intros s.
  - intros s1 s2 s3 (?&?&?&?&?&?&?&?) (?&?&?&?&?&?&?&?).
    repeat split; congruence.
Qed.

Lemma silent_neutral s s' : silent s s' → neutral s s'.
Proof. intros (?&?&?&?&?&?&?&?). by apply neutral_now. Qed.

Local Ltac silent_step :=
  first [ apply respects_modify; intros ?; by repeat split
        | match goal with
          | |- respects silent call_rng =>
              let s := fresh in let x := fresh in let s' := fresh in
              intros s x s'; unfold call_rng; destruct (rng (ctx s));
              intros [= _ <-]; by repeat split
          end ].

Lemma silent_astar_push cfg dst_wire next_wire pip nd np nb L :
  respects silent (astar_push cfg dst_wire next_wire pip nd np nb L).
Proof. unfold astar_push. resp_with silent_step. Qed.

Lemma silent_astar_step cfg net ripup dst_wire qw L pip :
  respects silent (astar_step cfg net ripup dst_wire qw L pip).
Proof. unfold astar_step. resp_with silent_step; apply silent_astar_push. Qed.

Lemma silent_astar_loop fuel cfg net ripup dst_wire L :
  respects silent (astar_loop fuel cfg net ripup dst_wire L).
Proof.
  revert L. induction fuel as [|fuel IH]; intros L; simpl; resp_with silent_step.
  - apply silent_astar_step.
  - apply IH.
Qed.

Lemma silent_route_arc_search fuel cfg net ripup src_wire dst_wire :
  respects silent (route_arc_search fuel cfg net ripup src_wire dst_wire).
Proof. unfold route_arc_search. resp_with silent_step. apply silent_astar_loop. Qed.

Lemma neutral_route_arc_search fuel cfg net ripup src_wire dst_wire :
  respects neutral (route_arc_search fuel cfg net ripup src_wire dst_wire).
Proof.
  eapply respects_weaken; [apply silent_neutral | apply silent_route_arc_search].
Qed.

Lemma neutral_check : respects neutral check.
Proof.
  unfold check, check_net, check_user, check_wire. resp.
Qed.

Lemma neutral_call_ctx_check : respects neutral call_ctx_check.
Proof. unfold call_ctx_check. resp. Qed.

Lemma neutral_call_checkRoutedDesign fuel : respects neutral (call_checkRoutedDesign fuel).
Proof. unfold call_checkRoutedDesign. resp. Qed.

(** The three rip-up entry points, from the block they share. *)
Section from_one_wire.
Context (R : relation Router1) `{!PreOrder R}.
Context (Hframe : ∀ s s', same_index s s' → same_queue s s' → R s s').
Context (Hone : ∀ w, respects R (ripup_one_wire w)).

Local Ltac frame_step :=
  first [ apply Hone
        | apply respects_modify; intros ?; apply Hframe; by split ].

Lemma ripup_net_from_one_wire n : respects R (ripup_net n).
Proof. unfold ripup_net. resp_with frame_step. Qed.

Lemma ripup_wire_from_one_wire w : respects R (ripup_wire w).
Proof.
  unfold ripup_wire. resp_with ltac:(first [apply ripup_net_from_one_wire | frame_step]).
Qed.

Lemma ripup_pip_from_one_wire p : respects R (ripup_pip p).
Proof.
  unfold ripup_pip. resp_with ltac:(first [apply ripup_net_from_one_wire | frame_step]).
Qed.
End from_one_wire.

Section with_relation.
Context (R : relation Router1) `{!Stable R}.

Lemma respects_neutral {T} (m : M T) : respects neutral m → respects R m.
Proof. apply respects_weaken, st_neutral. Qed.

Lemma respects_arc_queue_insert a : respects R (arc_queue_insert a).
Proof. unfold arc_queue_insert. resp. Qed.

Lemma respects_setup_walk fuel net arc src_wire dst_wire cursor :
  respects R (setup_walk fuel net arc src_wire dst_wire cursor).
Proof.
  revert cursor. induction fuel as [|fuel IH]; intros cursor; simpl; resp.
  apply IH.
Qed.

Lemma respects_setup_user fuel net src_wire maps iu :
  respects R (setup_user fuel net src_wire maps iu).
Proof. unfold setup_user. resp; apply respects_setup_walk. Qed.

Lemma respects_setup_net fuel maps net : respects R (setup_net fuel maps net).
Proof. unfold setup_net. resp. apply respects_setup_user. Qed.

Lemma respects_setup fuel : respects R (setup fuel).
Proof. unfold setup. resp. apply respects_setup_net. Qed.

Lemma respects_route_arc_commit fuel arc net src_wire cursor :
  respects R (route_arc_commit fuel arc net src_wire cursor).
Proof.
  revert cursor. induction fuel as [|fuel IH]; intros cursor; simpl; resp.
  apply IH.
Qed.

Lemma respects_route_arc fuel cfg arc ripup : respects R (route_arc fuel cfg arc ripup).
Proof.
  unfold route_arc. resp;
    first [ apply respects_neutral, neutral_route_arc_search
          | apply respects_route_arc_commit ].
Qed.

Lemma respects_iteration_check ndebug iter_cnt :
  respects R (iteration_check ndebug iter_cnt).
Proof.
  unfold iteration_check. resp. apply respects_neutral, neutral_check.
Qed.

Lemma respects_router1_loop fuel ndebug cfg iter_cnt :
  respects R (router1_loop fuel ndebug cfg iter_cnt).
Proof.
  revert iter_cnt. induction fuel as [|fuel IH]; intros iter_cnt; simpl; resp;
    try (apply respects_neutral; first [apply neutral_check | apply neutral_call_ctx_check]);
    try apply respects_iteration_check;
    try apply respects_route_arc; try apply IH.
Qed.

Lemma respects_router1_enter fuel ndebug : respects R (router1_enter fuel ndebug).
Proof.
  unfold router1_enter. resp;
    first [apply respects_setup | apply respects_neutral, neutral_check].
Qed.

Lemma respects_router1_try fuel ndebug cfg : respects R (router1_try fuel ndebug cfg).
Proof.
  unfold router1_try. resp;
    try (apply respects_neutral;
         first [apply neutral_check | apply neutral_call_ctx_check
               | apply neutral_call_checkRoutedDesign]);
    try apply respects_router1_enter; try apply respects_router1_loop.
Qed.

Lemma respects_run fuel cfg op : respects R (run fuel cfg op).
Proof.
  destruct op; simpl; resp;
    first [ apply respects_setup | apply respects_route_arc
          | apply respects_arc_queue_insert ].
Qed.
End with_relation.

End Generic.

(** ** Running monadic code backwards from a normal return *)
Section Inversion.
Context `{A : Arch}.

Lemma get_Ret s x s' : get s = (Ret x, s') ↔ x = s ∧ s' = s.
Proof. unfold get. split; [intros [= <- <-]; done | intros [-> ->]; done]. Qed.

Lemma modify_Ret f s x s' : modify f s = (Ret x, s') ↔ s' = f s.
Proof. unfold modify. destruct x. split; [intros [= <-]; done | intros ->; done]. Qed.

Lemma mret_Ret {T} (y : T) s x s' : mret (M:=M) y s = (Ret x, s') ↔ x = y ∧ s' = s.
Proof. split; [intros [= <- <-]; done | intros [-> ->]; done]. Qed.

Lemma NPNR_ASSERT_Ret b s x s' : NPNR_ASSERT b s = (Ret x, s') ↔ b = true ∧ s' = s.
Proof.
  destruct b, x; simpl; split; try (intros [= <-]; done); try (intros [? ->]; done).
Qed.

Lemma log_assert_Ret b s x s' : log_assert b s = (Ret x, s') ↔ b = true ∧ s' = s.
Proof.
  destruct b, x; simpl; split; try (intros [= <-]; done); try (intros [? ->]; done).
Qed.

End Inversion.

Ltac minv1 :=
  match goal with
  | H : (mbind _ _) _ = (Ret _, _) |- _ =>
      apply bind_Ret in H; destruct H as (? & ? & ? & H)
  | H : get _ = (Ret _, _) |- _ => apply get_Ret in H; destruct H as [-> ->]
  | H : modify _ _ = (Ret _, _) |- _ => apply modify_Ret in H; subst
  | H : mret _ _ = (Ret _, _) |- _ => apply mret_Ret in H; destruct H as [-> ->]
  | H : NPNR_ASSERT _ _ = (Ret _, _) |- _ => apply NPNR_ASSERT_Ret in H; destruct H as [? ->]
  | H : log_assert _ _ = (Ret _, _) |- _ => apply log_assert_Ret in H; destruct H as [? ->]
  | H : throw _ _ = (Ret _, _) |- _ => discriminate H
  | H : log_error _ = (Ret _, _) |- _ => discriminate H
  | H : out_of_fuel _ = (Ret _, _) |- _ => discriminate H
  | H : (match ?x with _ => _ end) _ = (Ret _, _) |- _ => destruct x eqn:?
  end.
Ltac minv := repeat minv1.

Section PQ.
Context {T : Type} (comp : T → T → bool).

Lemma pq_extract_perm best q :
  best :: q ≡ₚ (pq_extract comp best q).1 :: (pq_extract comp best q).2.
Proof.
  revert best. induction q as [|x q IH]; intros best; simpl; [done|].
  destruct (comp best x).
  - specialize (IH x). destruct (pq_extract comp x q) as [b r]; simpl in *.
    rewrite IH. apply Permutation_swap.
  - specialize (IH best). destruct (pq_extract comp best q) as [b r]; simpl in *.
    rewrite (Permutation_swap x best q), IH. apply Permutation_swap.
Qed.

Lemma pq_top_pop_perm q e : pq_top comp q = Some e → q ≡ₚ e :: pq_pop comp q.
Proof.
  destruct q as [|x q]; simpl; [done|]. intros [= <-]. apply pq_extract_perm.
Qed.
End PQ.

Lemma pq_extract_least best q y :
  y ∈ best :: q → pri (pq_extract arc_entry_Greater best q).1 ≤ pri y.
Proof.
  revert best y. induction q as [|x q IH]; intros best y Hy; simpl.
  - apply list_elem_of_singleton in Hy as ->. lia.
  - unfold arc_entry_Greater at 1. case_bool_decide as Hc.
    + pose proof (IH x) as IHx. destruct (pq_extract arc_entry_Greater x q) as [b r].
      simpl in *. apply elem_of_cons in Hy as [->|Hy]; [|by apply IHx].
      specialize (IHx x ltac:(left)). lia.
    + pose proof (IH best) as IHb. destruct (pq_extract arc_entry_Greater best q) as [b r].
      simpl in *.
      apply elem_of_cons in Hy as [->|[->|Hy]%elem_of_cons].
      * apply IHb. left.
      * specialize (IHb best ltac:(left)). lia.
      * apply IHb. by right.
Qed.

Lemma pq_top_least q e y :
  pq_top arc_entry_Greater q = Some e → y ∈ q → pri e ≤ pri y.
Proof.
  destruct q as [|x q]; simpl; [done|]. intros [= <-]. apply pq_extract_least.
Qed.

Section Queue.
Context `{A : Arch}.

Local Instance keeps_queue_inv_preorder : PreOrder keeps_queue_inv.
Proof.
  split.
  - intros s Hs. exact Hs.
  - intros s1 s2 s3 H1 H2 H. apply H2, H1, H.
Qed.

Lemma keeps_queue_inv_same s s' : same_queue s s' → keeps_queue_inv s s'.
Proof. intros [E1 E2] [H1 H2]. unfold queue_inv. by rewrite E1, E2. Qed.

Lemma arc_queue_insert3_queue_inv a sw dw : respects keeps_queue_inv (arc_queue_insert3 a sw dw).
Proof.
  intros s x s' Hrun. unfold keeps_queue_inv. intros [Hnd Hq].
  unfold arc_queue_insert3 in Hrun. minv; [done|].
  split; simpl; unfold pq_push; rewrite fmap_app; simpl.
  - apply NoDup_app. split; [done|]. split; [|apply NoDup_singleton].
    intros a' Ha' ->%list_elem_of_singleton. by apply Hq in Ha'.
  - intros a'. rewrite elem_of_app, list_elem_of_singleton, <- Hq. set_solver.
Qed.

Lemma arc_queue_pop_queue_inv : respects keeps_queue_inv arc_queue_pop.
Proof.
  intros s x s' Hrun. unfold keeps_queue_inv. intros [Hnd Hq].
  unfold arc_queue_pop in Hrun. minv.
  match goal with H : pq_top _ _ = Some ?e |- _ =>
    apply pq_top_pop_perm in H; rename H into Hperm end.
  assert (Hp : arc <$> arc_queue s ≡ₚ arc a :: (arc <$> pq_pop arc_entry_Greater (arc_queue s))).
  { by rewrite Hperm at 1. }
  rewrite Hp in Hnd. apply NoDup_cons in Hnd as [Hnotin Hnd'].
  split; simpl; [done|].
  intros a'. rewrite elem_of_difference, Hq, Hp, elem_of_cons, elem_of_singleton.
  split; [intros [[?|?] ?]; done | intros ?; split; [by right | congruence]].
Qed.

Lemma keeps_queue_inv_neutral s s' : neutral s s' → keeps_queue_inv s s'.
Proof. intros (_ & ? & _). by apply keeps_queue_inv_same. Qed.
Local Hint Resolve keeps_queue_inv_neutral : from_neutral.

Local Ltac same_queue_step :=
  apply respects_modify; intros ?; apply keeps_queue_inv_same; by split.

Lemma ripup_one_wire_queue_inv w : respects keeps_queue_inv (ripup_one_wire w).
Proof.
  unfold ripup_one_wire, arc_queue_insert.
  resp_with ltac:(first [apply arc_queue_insert3_queue_inv | same_queue_step]).
Qed.

Lemma release_wire_same_queue a w : respects keeps_queue_inv (release_wire a w).
Proof. unfold release_wire. resp_with same_queue_step. Qed.

Global Instance keeps_queue_inv_stable : Stable keeps_queue_inv.
Proof.
  split.
  - apply _.
  - apply keeps_queue_inv_neutral.
  - intros a w. unfold attach. resp_with same_queue_step.
  - apply arc_queue_insert3_queue_inv.
  - apply arc_queue_pop_queue_inv.
  - intros a. unfold route_arc_prepare.
    resp_with ltac:(first [apply release_wire_same_queue | same_queue_step]).
  - apply ripup_net_from_one_wire; [apply _ | | apply ripup_one_wire_queue_inv].
    intros s s' _ ?. by apply keeps_queue_inv_same.
  - apply ripup_wire_from_one_wire; [apply _ | | apply ripup_one_wire_queue_inv].
    intros s s' _ ?. by apply keeps_queue_inv_same.
  - apply ripup_pip_from_one_wire; [apply _ | | apply ripup_one_wire_queue_inv].
    intros s s' _ ?. by apply keeps_queue_inv_same.
Qed.

Lemma queue_inv_new c : queue_inv (Router1_new c).
Proof. split; simpl; [constructor | set_solver]. Qed.

(** C9: each arc occurs at most once in [arc_queue] and [queued_arcs] is
    the set of the arcs in it: this holds of a new router, every operation
    that returns keeps it, and it holds when the [try] block of [router1]
    returns; [arc_queue_insert] changes nothing for an arc that is in
    [queued_arcs]; [arc_queue_pop] returns an arc that was queued and
    leaves it neither in [queued_arcs] nor in [arc_queue]. *)
Theorem queue_holds_each_arc_once :
  (∀ c, queue_inv (Router1_new c))
  ∧ (∀ fuel cfg op s s',
       queue_inv s → run fuel cfg op s = (Ret tt, s') → queue_inv s')
  ∧ (∀ fuel ndebug cfg c ok s',
       router1_try fuel ndebug cfg (Router1_new c) = (Ret ok, s') → queue_inv s')
  ∧ (∀ a s, a ∈ queued_arcs s →
       arc_queue_insert a s = (Ret tt, s)
       ∧ ∀ src_wire dst_wire, arc_queue_insert3 a src_wire dst_wire s = (Ret tt, s))
  ∧ (∀ s a s',
       queue_inv s → arc_queue_pop s = (Ret a, s') →
       a ∈ queued_arcs s ∧ (a ∉ queued_arcs s') ∧ a ∉ (arc <$> arc_queue s')).
Proof.
  split; [apply queue_inv_new|]. split; [|split; [|split]].
  - intros fuel cfg op s s' Hinv Hrun.
    by apply (respects_run keeps_queue_inv fuel cfg op s tt s').
  - intros fuel ndebug cfg c ok s' Hrun.
    apply (respects_router1_try keeps_queue_inv fuel ndebug cfg _ _ _ Hrun), queue_inv_new.
  - intros a s Hin. split; [|intros src_wire dst_wire].
    + unfold arc_queue_insert. rewrite bind_unfold. simpl. by rewrite decide_True.
    + unfold arc_queue_insert3. rewrite bind_unfold. simpl. by rewrite decide_True.
  - intros s a s' [Hnd Hq] Hrun.
    pose proof (arc_queue_pop_queue_inv s a s' Hrun (conj Hnd Hq)) as [Hnd' Hq'].
    unfold arc_queue_pop in Hrun. minv.
    match goal with H : pq_top _ _ = Some ?e |- _ =>
      pose proof (pq_top_pop_perm _ _ _ H) as Hperm end.
    simpl in *. split; [|split].
    + apply Hq. rewrite Hperm. simpl. left.
    + set_solver.
    + rewrite <- Hq'. set_solver.
Qed.
End Queue.

Section Index.
Context `{A : Arch}.

Global Instance same_index_preorder : PreOrder same_index.
Proof.
  split.
  - by intros s.
  - intros s1 s2 s3 [H1 H2] [H3 H4]. split; intros x; [by rewrite H3 | by rewrite H4].
Qed.

Lemma same_index_neutral s s' : neutral s s' → same_index s s'.
Proof. by intros (? & _). Qed.
Local Hint Resolve same_index_neutral : from_neutral.

Local Ltac same_index_step :=
  apply respects_modify; intros ?; by split.

Lemma arc_queue_insert3_same_index a sw dw : respects same_index (arc_queue_insert3 a sw dw).
Proof. unfold arc_queue_insert3. resp_with same_index_step. Qed.

Lemma arc_queue_insert_same_index a : respects same_index (arc_queue_insert a).
Proof.
  unfold arc_queue_insert.
  resp_with ltac:(first [apply arc_queue_insert3_same_index | same_index_step]).
Qed.

Lemma arc_queue_pop_same_index : respects same_index arc_queue_pop.
Proof. unfold arc_queue_pop. resp_with same_index_step. Qed.

Lemma arcs_of_insert (m : gmap Z (gset arc_key)) w X w' :
  arcs_of (<[w := X]> m) w' = if decide (w' = w) then X else arcs_of m w'.
Proof.
  unfold arcs_of. case_decide as Hw.
  - subst. by rewrite lookup_insert_eq.
  - by rewrite lookup_insert_ne.
Qed.

Lemma wires_of_insert (m : gmap arc_key (gset Z)) a X a' :
  wires_of (<[a := X]> m) a' = if decide (a' = a) then X else wires_of m a'.
Proof.
  unfold wires_of. case_decide as Ha.
  - subst. by rewrite lookup_insert_eq.
  - by rewrite lookup_insert_ne.
Qed.

Local Instance keeps_index_inv_preorder : PreOrder keeps_index_inv.
Proof.
  split.
  - intros s Hs. exact Hs.
  - intros s1 s2 s3 H1 H2 H. apply H2, H1, H.
Qed.

Lemma keeps_index_inv_same s s' : same_index s s' → keeps_index_inv s s'.
Proof. intros [E1 E2] H w a. rewrite E1, E2. apply H. Qed.

Lemma keeps_index_inv_neutral s s' : neutral s s' → keeps_index_inv s s'.
Proof. intros (? & _). by apply keeps_index_inv_same. Qed.

Lemma attach_effect a w s x s' :
  attach a w s = (Ret x, s') →
  (∀ w', arcs_of (wire_to_arcs s') w'
         = if decide (w' = w) then {[a]} ∪ arcs_of (wire_to_arcs s) w
           else arcs_of (wire_to_arcs s) w')
  ∧ (∀ a', wires_of (arc_to_wires s') a'
           = if decide (a' = a) then {[w]} ∪ wires_of (arc_to_wires s) a
             else wires_of (arc_to_wires s) a').
Proof.
  unfold attach. intros H. minv. simpl. split; intros ?.
  - apply arcs_of_insert.
  - apply wires_of_insert.
Qed.

Lemma attach_index_inv a w : respects keeps_index_inv (attach a w).
Proof.
  intros s x s' [E1 E2]%attach_effect Hinv w' a'. rewrite E1, E2.
  pose proof (Hinv w' a') as Hw'. pose proof (Hinv w a) as Hwa.
  repeat case_decide; subst; set_solver.
Qed.

(** The loop of the rip-up block over the arcs of [w]. *)
Lemma ripup_arcs_loop_effect w (l : list arc_key) s x s' :
  for_each l (λ it,
    modify (λ s, set_arc_to_wires
                   (<[it := wires_of (arc_to_wires s) it ∖ {[w]}]> (arc_to_wires s)) s);;
    arc_queue_insert it) s = (Ret x, s') →
  (∀ w', arcs_of (wire_to_arcs s') w' = arcs_of (wire_to_arcs s) w')
  ∧ (∀ a, wires_of (arc_to_wires s') a
          = if decide (a ∈ l) then wires_of (arc_to_wires s) a ∖ {[w]}
            else wires_of (arc_to_wires s) a).
Proof.
  revert s. induction l as [|it l IH]; intros s Hrun; simpl in Hrun.
  - minv. split; [done|]. intros a. by rewrite decide_False by set_solver.
  - apply bind_Ret in Hrun as ([] & s1 & H1 & Hrun).
    apply bind_Ret in H1 as ([] & s0 & H0 & H1).
    apply modify_Ret in H0. apply arc_queue_insert_same_index in H1 as [E1 E2].
    destruct (IH _ Hrun) as [F1 F2]. split.
    + intros w'. rewrite F1, E1. by subst.
    + intros a. rewrite F2, !E2. subst s0. simpl. rewrite wires_of_insert.
      repeat case_decide; subst; set_solver.
Qed.

Lemma ripup_one_wire_effect w s x s' :
  ripup_one_wire w s = (Ret x, s') →
  (∀ w', arcs_of (wire_to_arcs s') w'
         = if decide (w' = w) then ∅ else arcs_of (wire_to_arcs s) w')
  ∧ (∀ a, wires_of (arc_to_wires s') a
          = if decide (a ∈ arcs_of (wire_to_arcs s) w)
            then wires_of (arc_to_wires s) a ∖ {[w]}
            else wires_of (arc_to_wires s) a).
Proof.
  unfold ripup_one_wire. intros Hrun.
  apply bind_Ret in Hrun as ([] & s1 & H1 & Hrun).
  apply neutral_touch_wire in H1 as ([T1 T2] & _).
  apply bind_Ret in Hrun as (? & ? & [-> ->]%get_Ret & Hrun).
  apply bind_Ret in Hrun as ([] & s2 & H2 & Hrun).
  apply ripup_arcs_loop_effect in H2 as [L1 L2].
  apply bind_Ret in Hrun as ([] & s3 & H3 & Hrun).
  apply modify_Ret in H3.
  apply bind_Ret in Hrun as ([] & s4 & H4 & Hrun).
  apply neutral_unbindWire in H4 as ([U1 U2] & _).
  apply modify_Ret in Hrun. subst s' s3. simpl. split.
  - intros w'. rewrite U1. simpl. rewrite arcs_of_insert. case_decide; [done|].
    by rewrite L1, T1.
  - intros a. rewrite U2. simpl. rewrite L2, T2, T1.
    destruct (decide (a ∈ arcs_of (wire_to_arcs s) w)) as [Hin|Hin].
    + by rewrite decide_True by (by apply elem_of_elements).
    + rewrite decide_False; [done|]. by rewrite elem_of_elements.
Qed.

Lemma ripup_one_wire_index_inv w : respects keeps_index_inv (ripup_one_wire w).
Proof.
  intros s x s' [E1 E2]%ripup_one_wire_effect Hinv w' a. rewrite E1, E2.
  pose proof (Hinv w' a) as Hw'. pose proof (Hinv w a) as Hw.
  repeat case_decide; subst; set_solver.
Qed.

Lemma filter_ext_elem_of {T} (P1 P2 : T → Prop)
    `{!∀ x, Decision (P1 x), !∀ x, Decision (P2 x)} (l : list T) :
  (∀ x, x ∈ l → P1 x ↔ P2 x) → filter P1 l = filter P2 l.
Proof.
  induction l as [|y l IH]; intros Hl; [done|].
  rewrite !filter_cons, IH by (intros x Hx; apply Hl; by right).
  pose proof (Hl y ltac:(left)). repeat case_decide; naive_solver.
Qed.

Lemma call_unbindWire_Ret w s x s' :
  call_unbindWire w s = (Ret x, s') →
  ∃ c, unbindWire (ctx s) w = Some c ∧ s' = emit (EvUnbindWire w) (set_ctx c s).
Proof.
  unfold call_unbindWire. destruct (unbindWire (ctx s) w) as [c|]; [|done].
  intros [= <-]. eauto.
Qed.

Lemma release_wire_effect a wire s x s' :
  release_wire a wire s = (Ret x, s') →
  a ∈ arcs_of (wire_to_arcs s) wire
  ∧ (∀ w', arcs_of (wire_to_arcs s') w'
           = if decide (w' = wire) then arcs_of (wire_to_arcs s) wire ∖ {[a]}
             else arcs_of (wire_to_arcs s) w')
  ∧ arc_to_wires s' = arc_to_wires s
  ∧ same_queue s s' ∧ same_scores s s'
  ∧ trace s' = trace s ++ (if decide (arcs_of (wire_to_arcs s) wire ∖ {[a]} = ∅)
                           then [EvUnbindWire wire] else []).
Proof.
  unfold release_wire. intros Hrun.
  apply bind_Ret in Hrun as (? & ? & [-> ->]%get_Ret & Hrun).
  destruct (wire_to_arcs s !! wire) as [arc_wires|] eqn:Hlk; [|done].
  assert (Harcs : arcs_of (wire_to_arcs s) wire = arc_wires) by (unfold arcs_of; by rewrite Hlk).
  apply bind_Ret in Hrun as ([] & ? & [Hin ->]%NPNR_ASSERT_Ret & Hrun).
  apply bool_decide_eq_true in Hin.
  apply bind_Ret in Hrun as ([] & s1 & ->%modify_Ret & Hrun).
  rewrite Harcs. split; [done|].
  destruct (decide (arc_wires ∖ {[a]} = ∅)).
  - apply call_unbindWire_Ret in Hrun as (c & _ & ->). simpl.
    repeat split; try done. intros w'. rewrite arcs_of_insert. by rewrite Harcs.
  - apply mret_Ret in Hrun as [_ ->]. simpl. rewrite app_nil_r.
    repeat split; try done. intros w'. rewrite arcs_of_insert. by rewrite Harcs.
Qed.

Lemma release_loop_effect a (l : list Z) s x s' :
  NoDup l →
  for_each l (release_wire a) s = (Ret x, s') →
  (∀ w, w ∈ l → a ∈ arcs_of (wire_to_arcs s) w)
  ∧ (∀ w', arcs_of (wire_to_arcs s') w'
           = if decide (w' ∈ l) then arcs_of (wire_to_arcs s) w' ∖ {[a]}
             else arcs_of (wire_to_arcs s) w')
  ∧ arc_to_wires s' = arc_to_wires s
  ∧ same_queue s s' ∧ same_scores s s'
  ∧ trace s' = trace s
               ++ (EvUnbindWire <$> filter (λ w, arcs_of (wire_to_arcs s) w ∖ {[a]} = ∅) l).
Proof.
  intros Hnd. revert s. induction Hnd as [|wire l Hnotin Hnd IH]; intros s Hrun; simpl in Hrun.
  - apply mret_Ret in Hrun as [_ ->]. rewrite app_nil_r.
    repeat split; try done. intros w []%elem_of_nil.
  - apply bind_Ret in Hrun as ([] & s1 & H1 & Hrun).
    apply release_wire_effect in H1 as (Hin & E1 & E2 & [Q1 Q2] & [S1 S2] & T).
    destruct (IH _ Hrun) as (Hin' & F1 & F2 & [Q3 Q4] & [S3 S4] & T').
    split; [|split; [|split; [|split; [|split]]]].
    + intros w [->|Hw]%elem_of_cons; [done|].
      specialize (Hin' w Hw). rewrite E1 in Hin'.
      case_decide; [by subst|done].
    + intros w'. rewrite F1, !E1.
      destruct (decide (w' = wire)) as [->|Hne].
      * rewrite decide_False by done. by rewrite decide_True by left.
      * destruct (decide (w' ∈ l)).
        -- by rewrite decide_True by (by right).
        -- rewrite decide_False; [done|]. by intros [?|?]%elem_of_cons.
    + congruence.
    + split; congruence.
    + split; intros ?; [by rewrite S3 | by rewrite S4].
    + rewrite T', T, <- app_assoc. f_equal.
      assert (Hfl : filter (λ w, arcs_of (wire_to_arcs s1) w ∖ {[a]} = ∅) l
                    = filter (λ w, arcs_of (wire_to_arcs s) w ∖ {[a]} = ∅) l).
      { apply filter_ext_elem_of. intros w Hw. rewrite E1.
        rewrite decide_False; [done|]. by intros ->. }
      rewrite Hfl, filter_cons. by case_decide.
Qed.

Lemma route_arc_prepare_effect a s x s' :
  route_arc_prepare a s = (Ret x, s') →
  (∀ w, w ∈ wires_of (arc_to_wires s) a → a ∈ arcs_of (wire_to_arcs s) w)
  ∧ (∀ w', arcs_of (wire_to_arcs s') w'
           = if decide (w' ∈ wires_of (arc_to_wires s) a)
             then arcs_of (wire_to_arcs s) w' ∖ {[a]}
             else arcs_of (wire_to_arcs s) w')
  ∧ (∀ a', wires_of (arc_to_wires s') a'
           = if decide (a' = a) then ∅ else wires_of (arc_to_wires s) a')
  ∧ same_queue s s' ∧ same_scores s s'
  ∧ trace s' = trace s
       ++ (EvUnbindWire <$> filter (λ w, arcs_of (wire_to_arcs s) w ∖ {[a]} = ∅)
                                   (elements (wires_of (arc_to_wires s) a))).
Proof.
  unfold route_arc_prepare. intros Hrun.
  apply bind_Ret in Hrun as (? & ? & [-> ->]%get_Ret & Hrun).
  apply bind_Ret in Hrun as ([] & s1 & ->%modify_Ret & Hrun).
  apply release_loop_effect in Hrun as (Hin & E1 & E2 & HQ & HS & T);
    [|apply NoDup_elements].
  simpl in *. split; [|split; [|split; [|split; [|split]]]]; try done.
  - intros w Hw. apply Hin. by apply elem_of_elements.
  - intros w'. rewrite E1.
    destruct (decide (w' ∈ wires_of (arc_to_wires s) a)) as [Hw|Hw].
    + by rewrite decide_True by (by apply elem_of_elements).
    + rewrite decide_False; [done|]. by rewrite elem_of_elements.
  - intros a'. rewrite E2. apply wires_of_insert.
Qed.

Lemma route_arc_prepare_index_inv a : respects keeps_index_inv (route_arc_prepare a).
Proof.
  intros s x s' (Hin & E1 & E2 & _)%route_arc_prepare_effect Hinv w a'.
  rewrite E1, E2. pose proof (Hinv w a') as Hw. pose proof (Hinv w a) as Hwa.
  repeat case_decide; subst; set_solver.
Qed.

Local Hint Resolve keeps_index_inv_neutral : from_neutral.

Global Instance keeps_index_inv_stable : Stable keeps_index_inv.
Proof.
  split.
  - apply _.
  - apply keeps_index_inv_neutral.
  - apply attach_index_inv.
  - intros a sw dw. eapply respects_weaken; [apply keeps_index_inv_same|].
    apply arc_queue_insert3_same_index.
  - eapply respects_weaken; [apply keeps_index_inv_same|].
    apply arc_queue_pop_same_index.
  - apply route_arc_prepare_index_inv.
  - apply ripup_net_from_one_wire; [apply _ | | apply ripup_one_wire_index_inv].
    intros s s' ? _. by apply keeps_index_inv_same.
  - apply ripup_wire_from_one_wire; [apply _ | | apply ripup_one_wire_index_inv].
    intros s s' ? _. by apply keeps_index_inv_same.
  - apply ripup_pip_from_one_wire; [apply _ | | apply ripup_one_wire_index_inv].
    intros s s' ? _. by apply keeps_index_inv_same.
Qed.

Lemma index_inv_new c : index_inv (Router1_new c).
Proof. intros w a. unfold arcs_of, wires_of. simpl. by rewrite !lookup_empty. Qed.

(** C2: [a] is in [wire_to_arcs[w]] if and only if [w] is in
    [arc_to_wires[a]]: this holds of a new router, and every operation of
    the router (setup, route_arc, ripup_net, ripup_wire, ripup_pip, and the
    two queue operations) that returns keeps it; it holds when the [try]
    block of [router1] returns. *)
Theorem index_maps_are_inverse :
  (∀ c, index_inv (Router1_new c))
  ∧ (∀ fuel cfg op s s',
       index_inv s → run fuel cfg op s = (Ret tt, s') → index_inv s')
  ∧ (∀ fuel ndebug cfg c ok s',
       router1_try fuel ndebug cfg (Router1_new c) = (Ret ok, s') → index_inv s').
Proof.
  split; [apply index_inv_new|]. split.
  - intros fuel cfg op s s' Hinv Hrun.
    by apply (respects_run keeps_index_inv fuel cfg op s tt s').
  - intros fuel ndebug cfg c ok s' Hrun.
    apply (respects_router1_try keeps_index_inv fuel ndebug cfg _ _ _ Hrun), index_inv_new.
Qed.

End Index.

Section Scores.
Context `{A : Arch}.

Global Instance same_scores_preorder : PreOrder same_scores.
Proof.
  split.
  - by intros s.
  - intros s1 s2 s3 [H1 H2] [H3 H4]. split; intros x; [by rewrite H3 | by rewrite H4].
Qed.

Lemma same_scores_neutral s s' : neutral s s' → same_scores s s'.
Proof. by intros (_ & _ & ? & _). Qed.
Local Hint Resolve same_scores_neutral : from_neutral.

Local Ltac same_scores_step :=
  apply respects_modify; intros ?; by split.

Lemma arc_queue_insert3_same_scores a sw dw : respects same_scores (arc_queue_insert3 a sw dw).
Proof. unfold arc_queue_insert3. resp_with same_scores_step. Qed.

Lemma arc_queue_insert_same_scores a : respects same_scores (arc_queue_insert a).
Proof.
  unfold arc_queue_insert.
  resp_with ltac:(first [apply arc_queue_insert3_same_scores | same_scores_step]).
Qed.

Lemma wire_score_insert (m : gmap Z Z) w v w' :
  wire_score (<[w := v]> m) w' = if decide (w' = w) then v else wire_score m w'.
Proof.
  unfold wire_score. case_decide as Hw.
  - subst. by rewrite lookup_insert_eq.
  - by rewrite lookup_insert_ne.
Qed.

Lemma net_score_insert (m : gmap nat Z) n v n' :
  net_score (<[n := v]> m) n' = if decide (n' = n) then v else net_score m n'.
Proof.
  unfold net_score. case_decide as Hn.
  - subst. by rewrite lookup_insert_eq.
  - by rewrite lookup_insert_ne.
Qed.

Global Instance trace_grows_preorder : PreOrder trace_grows.
Proof.
  split.
  - intros s. exists []. by rewrite app_nil_r.
  - intros s1 s2 s3 [t1 H1] [t2 H2]. exists (t1 ++ t2). by rewrite H2, H1, app_assoc.
Qed.

Lemma trace_grows_neutral s s' : neutral s s' → trace_grows s s'.
Proof. intros (_ & _ & _ & t & ? & _). by exists t. Qed.
Local Hint Resolve trace_grows_neutral : from_neutral.

Local Ltac trace_grows_step :=
  apply respects_modify; intros ?; exists []; by rewrite app_nil_r.

Lemma ripup_one_wire_trace_grows w : respects trace_grows (ripup_one_wire w).
Proof.
  unfold ripup_one_wire, arc_queue_insert, arc_queue_insert3.
  resp_with trace_grows_step.
Qed.

(** What the rip-up block does to the score book: one increment, of [w]. *)
Lemma ripup_one_wire_scores w s x s' :
  ripup_one_wire w s = (Ret x, s') →
  (∀ w', wire_score (wireScores s') w'
         = wire_score (wireScores s) w' + (if decide (w' = w) then 1 else 0))
  ∧ (∀ n, net_score (netScores s') n = net_score (netScores s) n).
Proof.
  unfold ripup_one_wire. intros Hrun.
  apply bind_Ret in Hrun as ([] & s1 & H1 & Hrun).
  apply neutral_touch_wire in H1 as (_ & _ & [T1 T2] & _).
  apply bind_Ret in Hrun as (? & ? & [-> ->]%get_Ret & Hrun).
  apply bind_Ret in Hrun as ([] & s2 & H2 & Hrun).
  assert (same_scores s1 s2) as [L1 L2].
  { revert H2. apply respects_for_each; [apply _|]. intros it.
    resp_with ltac:(first [apply arc_queue_insert_same_scores | same_scores_step]). }
  apply bind_Ret in Hrun as ([] & s3 & ->%modify_Ret & Hrun).
  apply bind_Ret in Hrun as ([] & s4 & H4 & Hrun).
  apply neutral_unbindWire in H4 as (_ & _ & [U1 U2] & _).
  apply modify_Ret in Hrun. subst s'. simpl in *. split.
  - intros w'. rewrite wire_score_insert.
    case_decide; subst; rewrite U1, L1, T1; lia.
  - intros n. by rewrite U2, L2, T2.
Qed.

Lemma ripup_wires_loop_scores (l : list (Z * PipMap)) s x s' :
  NoDup l.*1 →
  for_each l (λ it, ripup_one_wire it.1) s = (Ret x, s') →
  (∀ w, wire_score (wireScores s') w
        = wire_score (wireScores s) w + (if decide (w ∈ l.*1) then 1 else 0))
  ∧ (∀ n, net_score (netScores s') n = net_score (netScores s) n).
Proof.
  revert s. induction l as [|[w0 pm] l IH]; intros s Hnd Hrun.
  - apply mret_Ret in Hrun as [_ ->]. split; [|done].
    intros w. rewrite fmap_nil. case_decide as Hw; [by apply elem_of_nil in Hw|lia].
  - rewrite fmap_cons in Hnd. apply NoDup_cons in Hnd as [Hnotin Hnd].
    simpl in Hrun, Hnotin.
    apply bind_Ret in Hrun as ([] & s1 & [E1 E2]%ripup_one_wire_scores & Hrun).
    destruct (IH _ Hnd Hrun) as [F1 F2]. split.
    + intros w. rewrite F1, E1, fmap_cons. simpl.
      destruct (decide (w = w0)) as [->|Hne].
      * rewrite (decide_False (P := w0 ∈ l.*1)) by done.
        rewrite (decide_True (P := w0 ∈ w0 :: l.*1)) by left. lia.
      * destruct (decide (w ∈ l.*1)).
        -- rewrite (decide_True (P := w ∈ w0 :: l.*1)) by (by right). lia.
        -- rewrite (decide_False (P := w ∈ w0 :: l.*1)); [lia|].
           by intros [?|?]%elem_of_cons.
    + intros n. by rewrite F2, E2.
Qed.

(** [ripup_net]: one increment of the net, one of each wire bound to it. *)
Lemma ripup_net_scores n s x s' :
  ripup_net n s = (Ret x, s') →
  (∀ n', net_score (netScores s') n'
         = net_score (netScores s) n' + (if decide (n' = n) then 1 else 0))
  ∧ (∀ w, wire_score (wireScores s') w
          = wire_score (wireScores s) w
            + (if decide (is_Some (wires (deref (ctx s) n) !! w)) then 1 else 0)).
Proof.
  unfold ripup_net. intros Hrun.
  apply bind_Ret in Hrun as ([] & s1 & ->%modify_Ret & Hrun).
  apply bind_Ret in Hrun as ([] & s2 & ->%modify_Ret & Hrun).
  apply bind_Ret in Hrun as (? & ? & [-> ->]%get_Ret & Hrun).
  apply bind_Ret in Hrun as ([] & s3 & H3 & ->%modify_Ret).
  apply ripup_wires_loop_scores in H3 as [E1 E2]; [|apply NoDup_fst_map_to_list].
  simpl in *. split.
  - intros n'. rewrite E2, net_score_insert. case_decide; subst; lia.
  - intros w. rewrite E1. f_equal.
    destruct (decide (is_Some (wires (deref (ctx s) n) !! w))) as [[pm Hpm]|Hno].
    + rewrite decide_True; [done|]. apply list_elem_of_fmap. exists (w, pm).
      split; [done|]. by apply elem_of_map_to_list.
    + rewrite decide_False; [done|]. intros ([w' pm] & -> & Hin)%list_elem_of_fmap.
      apply elem_of_map_to_list in Hin. simpl in *. apply Hno. eauto.
Qed.

Lemma ripup_wire_scores wire s x s' :
  ripup_wire wire s = (Ret x, s') →
  ripup_effect (getConflictingWireWire (ctx s) wire)
               (getConflictingWireNet (ctx s) wire) s s'.
Proof.
  unfold ripup_wire, ripup_effect. intros Hrun.
  apply bind_Ret in Hrun as ([] & s1 & ->%modify_Ret & Hrun).
  apply bind_Ret in Hrun as (? & ? & [-> ->]%get_Ret & Hrun).
  apply bind_Ret in Hrun as ([] & s2 & H2 & ->%modify_Ret). simpl in *.
  destruct (decide (getConflictingWireWire (ctx s) wire = WireId_none)).
  - destruct (getConflictingWireNet (ctx s) wire) as [n|].
    + by apply ripup_net_scores in H2.
    + by apply mret_Ret in H2 as [_ ->].
  - by apply ripup_one_wire_scores in H2.
Qed.

Lemma ripup_pip_scores p s x s' :
  ripup_pip p s = (Ret x, s') →
  ripup_effect (getConflictingPipWire (ctx s) p)
               (getConflictingPipNet (ctx s) p) s s'.
Proof.
  unfold ripup_pip, ripup_effect. intros Hrun.
  apply bind_Ret in Hrun as ([] & s1 & ->%modify_Ret & Hrun).
  apply bind_Ret in Hrun as (? & ? & [-> ->]%get_Ret & Hrun).
  apply bind_Ret in Hrun as ([] & s2 & H2 & ->%modify_Ret). simpl in *.
  destruct (decide (getConflictingPipWire (ctx s) p = WireId_none)).
  - destruct (getConflictingPipNet (ctx s) p) as [n|].
    + by apply ripup_net_scores in H2.
    + by apply mret_Ret in H2 as [_ ->].
  - by apply ripup_one_wire_scores in H2.
Qed.

Global Instance scores_grow_preorder : PreOrder scores_grow.
Proof.
  split.
  - intros s. split; [done|]. split; [done|]. exists []. by rewrite app_nil_r.
  - intros s1 s2 s3 (W1 & N1 & t1 & T1 & Q1) (W2 & N2 & t2 & T2 & Q2).
    split; [intros w; etrans; [apply W1 | apply W2]|].
    split; [intros n; etrans; [apply N1 | apply N2]|].
    exists (t1 ++ t2). split; [by rewrite T2, T1, app_assoc|].
    intros [F1 F2]%Forall_app. etrans; [apply Q1 | apply Q2]; done.
Qed.

Lemma scores_grow_calm s s' : same_scores s s' → trace_grows s s' → scores_grow s s'.
Proof.
  intros [S1 S2] [t T]. split; [intros w; by rewrite S1|].
  split; [intros n; by rewrite S2|]. exists t. by split.
Qed.

Lemma scores_grow_neutral s s' : neutral s s' → scores_grow s s'.
Proof.
  intros (_ & _ & ? & t & ? & _). apply scores_grow_calm; [done | by exists t].
Qed.

Lemma scores_grow_ripup e s s1 s' :
  is_ripup e = true → s1 = emit e s → trace_grows s1 s' →
  (∀ w, wire_score (wireScores s) w ≤ wire_score (wireScores s') w) →
  (∀ n, net_score (netScores s) n ≤ net_score (netScores s') n) →
  scores_grow s s'.
Proof.
  intros He -> [t T] HW HN. split; [done|]. split; [done|].
  exists (e :: t). split; [by rewrite T; simpl; rewrite <- app_assoc|].
  intros [Hf _]%Forall_cons. congruence.
Qed.

Local Instance calm_preorder : PreOrder calm.
Proof.
  split.
  - intros s. split; reflexivity.
  - intros s1 s2 s3 [? ?] [? ?]. split; etrans; eauto.
Qed.

Lemma calm_neutral s s' : neutral s s' → calm s s'.
Proof. intros H. split; [by apply same_scores_neutral | by apply trace_grows_neutral]. Qed.
Local Hint Resolve calm_neutral : from_neutral.

Local Ltac calm_step :=
  apply respects_modify; intros ?; split; [by split | exists []; by rewrite app_nil_r].

Lemma ripup_net_trace_grows n : respects trace_grows (ripup_net n).
Proof.
  unfold ripup_net.
  resp_with ltac:(first [ apply ripup_one_wire_trace_grows | trace_grows_step
                        | apply respects_modify; intros ?; by eexists [_] ]).
Qed.

Lemma bumped_wire_le w s s' :
  bumped_wire w s s' →
  (∀ w', wire_score (wireScores s) w' ≤ wire_score (wireScores s') w')
  ∧ (∀ n, net_score (netScores s) n ≤ net_score (netScores s') n).
Proof.
  intros [E1 E2]. split; [intros w'; rewrite E1; case_decide; lia|].
  intros n. rewrite E2. lia.
Qed.

Lemma bumped_net_le n s s' :
  bumped_net n s s' →
  (∀ w', wire_score (wireScores s) w' ≤ wire_score (wireScores s') w')
  ∧ (∀ n, net_score (netScores s) n ≤ net_score (netScores s') n).
Proof.
  intros [E1 E2]. split; [intros w'; rewrite E2; case_decide; lia|].
  intros n'. rewrite E1. case_decide; lia.
Qed.

Lemma ripup_effect_le cw cn s s' :
  ripup_effect cw cn s s' →
  (∀ w', wire_score (wireScores s) w' ≤ wire_score (wireScores s') w')
  ∧ (∀ n, net_score (netScores s) n ≤ net_score (netScores s') n).
Proof.
  unfold ripup_effect. case_decide; [destruct cn|].
  - apply bumped_net_le.
  - intros [E1 E2]. split; intros ?; [rewrite E1 | rewrite E2]; lia.
  - apply bumped_wire_le.
Qed.

Lemma ripup_net_scores_grow n : respects scores_grow (ripup_net n).
Proof.
  intros s x s' Hrun.
  destruct (bumped_net_le n s s') as [HW HN]; [by eapply ripup_net_scores|].
  unfold ripup_net in Hrun.
  apply bind_Ret in Hrun as ([] & s1 & H1%modify_Ret & Hrun).
  eapply (scores_grow_ripup (EvRipupNet n)); [done | exact H1 | | done | done].
  match type of Hrun with ?m _ = _ =>
    assert (Hm : respects trace_grows m); [|exact (Hm _ _ _ Hrun)] end.
  resp_with ltac:(first [ apply ripup_one_wire_trace_grows | trace_grows_step ]).
Qed.

Lemma ripup_wire_scores_grow w : respects scores_grow (ripup_wire w).
Proof.
  intros s x s' Hrun.
  destruct (ripup_effect_le _ _ s s' (ripup_wire_scores _ _ _ _ Hrun)) as [HW HN].
  unfold ripup_wire in Hrun.
  apply bind_Ret in Hrun as ([] & s1 & H1%modify_Ret & Hrun).
  eapply (scores_grow_ripup (EvRipupWire w)); [done | exact H1 | | done | done].
  match type of Hrun with ?m _ = _ =>
    assert (Hm : respects trace_grows m); [|exact (Hm _ _ _ Hrun)] end.
  resp_with ltac:(first [ apply ripup_net_trace_grows | apply ripup_one_wire_trace_grows
                        | trace_grows_step ]).
Qed.

Lemma ripup_pip_scores_grow p : respects scores_grow (ripup_pip p).
Proof.
  intros s x s' Hrun.
  destruct (ripup_effect_le _ _ s s' (ripup_pip_scores _ _ _ _ Hrun)) as [HW HN].
  unfold ripup_pip in Hrun.
  apply bind_Ret in Hrun as ([] & s1 & H1%modify_Ret & Hrun).
  eapply (scores_grow_ripup (EvRipupPip p)); [done | exact H1 | | done | done].
  match type of Hrun with ?m _ = _ =>
    assert (Hm : respects trace_grows m); [|exact (Hm _ _ _ Hrun)] end.
  resp_with ltac:(first [ apply ripup_net_trace_grows | apply ripup_one_wire_trace_grows
                        | trace_grows_step ]).
Qed.

Lemma respects_scores_grow_calm {T} (m : M T) : respects calm m → respects scores_grow m.
Proof. apply respects_weaken. intros s s' [? ?]. by apply scores_grow_calm. Qed.

Global Instance scores_grow_stable : Stable scores_grow.
Proof.
  split.
  - apply _.
  - apply scores_grow_neutral.
  - intros a w. apply respects_scores_grow_calm. unfold attach. resp_with calm_step.
  - intros a sw dw. apply respects_scores_grow_calm.
    unfold arc_queue_insert3. resp_with calm_step.
  - apply respects_scores_grow_calm. unfold arc_queue_pop. resp_with calm_step.
  - intros a. apply respects_scores_grow_calm.
    unfold route_arc_prepare, release_wire. resp_with calm_step.
  - apply ripup_net_scores_grow.
  - apply ripup_wire_scores_grow.
  - apply ripup_pip_scores_grow.
Qed.

(** C8: no operation of the router, and no run of the [try] block of
    [router1], decreases a counter of [wireScores] or [netScores], and one
    during which no rip-up entry point is called leaves every counter as it
    was; [ripup_net] adds one to the counter of its net and of each wire
    bound to the net, [ripup_wire] and [ripup_pip] add one to the counter of
    the conflicting wire, or do what [ripup_net] does for the conflicting
    net, or write nothing. *)
Theorem scores_only_grow_by_ripup :
  (∀ fuel cfg op s s', run fuel cfg op s = (Ret tt, s') → scores_grow s s')
  ∧ (∀ fuel ndebug cfg s ok s',
       router1_try fuel ndebug cfg s = (Ret ok, s') → scores_grow s s')
  ∧ (∀ n s s', ripup_net n s = (Ret tt, s') → bumped_net n s s')
  ∧ (∀ wire s s', ripup_wire wire s = (Ret tt, s') →
       ripup_effect (getConflictingWireWire (ctx s) wire)
                    (getConflictingWireNet (ctx s) wire) s s')
  ∧ (∀ p s s', ripup_pip p s = (Ret tt, s') →
       ripup_effect (getConflictingPipWire (ctx s) p)
                    (getConflictingPipNet (ctx s) p) s s').
Proof.
  split; [|split; [|split; [|split]]].
  - intros fuel cfg op s s'. apply (respects_run scores_grow).
  - intros fuel ndebug cfg s ok s'. apply (respects_router1_try scores_grow).
  - intros n s s'. apply ripup_net_scores.
  - intros wire s s'. apply ripup_wire_scores.
  - intros p s s'. apply ripup_pip_scores.
Qed.

End Scores.

Section RouteFailure.
Context `{A : Arch}.

Lemma bind_run {T U} (m : M T) (f : T → M U) s y s1 :
  m s = (Ret y, s1) → (m ≫= f) s = f y s1.
Proof. intros H. by rewrite bind_unfold, H. Qed.

Lemma neutral_same_index_parts s s' :
  neutral s s' →
  (∀ w, arcs_of (wire_to_arcs s') w = arcs_of (wire_to_arcs s) w)
  ∧ (∀ a, wires_of (arc_to_wires s') a = wires_of (arc_to_wires s) a)
  ∧ arc_queue s' = arc_queue s ∧ queued_arcs s' = queued_arcs s.
Proof. intros ([? ?] & [? ?] & _). done. Qed.

(** What a failing [route_arc] has done: exactly its preparation phase,
    and a search that writes neither the index, nor the work queue, nor
    the trace. *)
Lemma route_arc_false_inv fuel cfg a ripup s s' :
  route_arc fuel cfg a ripup s = (Ret false, s') →
  ∃ s1, route_arc_prepare a (set_ripup_flag false s) = (Ret tt, s1) ∧ silent s1 s'.
Proof.
  unfold route_arc. intros Hrun.
  apply bind_Ret in Hrun as (? & ? & [-> ->]%get_Ret & Hrun).
  destruct (users (deref (ctx s) (net_info a)) !! user_idx a) as [u|]; [|done].
  apply bind_Ret in Hrun as ([] & s0 & ->%modify_Ret & Hrun).
  apply bind_Ret in Hrun as ([] & s1 & Hprep & Hrun).
  apply bind_Ret in Hrun as (L & s2 & Hsearch & Hrun).
  apply bind_Ret in Hrun as (? & ? & [-> ->]%get_Ret & Hrun).
  exists s1. split; [done|].
  destruct (visited s2 !! _).
  - exfalso. repeat (apply bind_Ret in Hrun as (? & ? & _ & Hrun)).
    by apply mret_Ret in Hrun as [? _].
  - apply mret_Ret in Hrun as [_ ->]. by eapply silent_route_arc_search.
Qed.

(** C10: when [route_arc] returns false, [arc_to_wires[arc]] is empty,
    the arc is in the arc set of none of the wires of its previous route,
    the calls made on the architecture are exactly one [unbindWire] for each
    such wire that no other arc uses, the routes of the other arcs are as
    they were, and the work queue is as it was (the arc is not queued
    again). *)
Theorem failed_route_arc_leaves_arc_detached fuel cfg a ripup s s' :
  route_arc fuel cfg a ripup s = (Ret false, s') →
  wires_of (arc_to_wires s') a = ∅
  ∧ (∀ w, w ∈ wires_of (arc_to_wires s) a → a ∉ arcs_of (wire_to_arcs s') w)
  ∧ trace s' = trace s
       ++ (EvUnbindWire <$> filter (λ w, arcs_of (wire_to_arcs s) w ∖ {[a]} = ∅)
                                   (elements (wires_of (arc_to_wires s) a)))
  ∧ (∀ w, w ∈ wires_of (arc_to_wires s) a → arcs_of (wire_to_arcs s') w = ∅ →
          EvUnbindWire w ∈ drop (length (trace s)) (trace s'))
  ∧ (∀ a', a' ≠ a → wires_of (arc_to_wires s') a' = wires_of (arc_to_wires s) a')
  ∧ arc_queue s' = arc_queue s ∧ queued_arcs s' = queued_arcs s.
Proof.
  intros (s1 & Hprep & Hs)%route_arc_false_inv.
  destruct Hs as (Ew & Ea & Eq & Eqa & _ & _ & _ & Et).
  apply route_arc_prepare_effect in Hprep as (Hin & E1 & E2 & [Q1 Q2] & _ & T).
  simpl in *. rewrite Ew, Ea, Eq, Eqa, Et.
  assert (Hw : ∀ w, w ∈ wires_of (arc_to_wires s) a →
                    arcs_of (wire_to_arcs s1) w = arcs_of (wire_to_arcs s) w ∖ {[a]}).
  { intros w Hw. by rewrite E1, decide_True. }
  split; [by rewrite E2, decide_True|].
  split; [intros w Hwin; rewrite (Hw w Hwin); set_solver|].
  split; [done|]. split; [|split; [|done]].
  - intros w Hwin Hempty. rewrite T, drop_app_length.
    apply list_elem_of_fmap. exists w. split; [done|].
    apply list_elem_of_filter. rewrite <- (Hw w Hwin). split; [done|].
    by apply elem_of_elements.
  - intros a' Hne. by rewrite E2, decide_False.
Qed.

End RouteFailure.

Section Fatal.
Context `{A : Arch}.

Lemma harmless_ret {T} (x : T) : harmless (mret x).
Proof. intros s o s' H. injection H as <- <-. eauto. Qed.

Lemma harmless_get : harmless get.
Proof. intros s o s' H. injection H as <- <-. eauto. Qed.

Lemma harmless_log_assert b : harmless (log_assert b).
Proof. destruct b; intros s o s' H; injection H as <- <-; eauto. Qed.

Lemma harmless_bind {T U} (m : M T) (f : T → M U) :
  harmless m → (∀ x, harmless (f x)) → harmless (m ≫= f).
Proof.
  intros Hm Hf s o s'. rewrite bind_unfold.
  destruct (m s) as [[x|e|] s1] eqn:E; destruct (Hm _ _ _ E) as (Ho & Ec & Et).
  - intros Hf'. destruct (Hf _ _ _ _ Hf') as (? & ? & ?). split; [done|]. split; congruence.
  - intros [= <- <-]. destruct Ho as [[= ->]|[? [=]]]. split; [by left | done].
  - destruct Ho as [Ho|[? Ho]]; discriminate.
Qed.

Lemma harmless_for_each {T} (l : list T) (body : T → M unit) :
  (∀ x, harmless (body x)) → harmless (for_each l body).
Proof.
  intros Hb. induction l as [|x l IH]; simpl.
  - apply harmless_ret.
  - apply harmless_bind; auto.
Qed.

Lemma harmless_foldM {T U} (body : U → T → M U) (l : list T) (u : U) :
  (∀ u x, harmless (body u x)) → harmless (foldM body l u).
Proof.
  intros Hb. revert u. induction l as [|x l IH]; intros u; simpl.
  - apply harmless_ret.
  - apply harmless_bind; auto.
Qed.

Lemma harmless_touch_wire w : harmless (touch_wire w).
Proof. intros s o s' H. injection H as <- <-. eauto. Qed.

Lemma harmless_touch_arc a : harmless (touch_arc a).
Proof. intros s o s' H. injection H as <- <-. eauto. Qed.

Local Ltac harm_step :=
  lazymatch goal with
  | |- harmless (mret _) => apply harmless_ret
  | |- harmless (mbind _ _) => apply harmless_bind; [|intros ?]
  | |- harmless get => apply harmless_get
  | |- harmless (log_assert _) => apply harmless_log_assert
  | |- harmless (for_each _ _) => apply harmless_for_each; intros ?
  | |- harmless (foldM _ _ _) => apply harmless_foldM; intros ? ?
  | |- harmless (touch_wire _) => apply harmless_touch_wire
  | |- harmless (touch_arc _) => apply harmless_touch_arc
  | |- harmless (match ?x with _ => _ end) => destruct x
  | |- harmless (let _ := _ in _) => cbv zeta
  end.

Lemma harmless_check : harmless check.
Proof. unfold check, check_net, check_user, check_wire. repeat harm_step. Qed.

Lemma arc_queue_pop_nonempty s a s' : arc_queue_pop s = (Ret a, s') → arc_queue s ≠ [].
Proof.
  unfold arc_queue_pop. intros Hrun Hnil.
  apply bind_Ret in Hrun as (? & ? & [-> ->]%get_Ret & Hrun).
  by rewrite Hnil in Hrun.
Qed.

Lemma iteration_check_queue ndebug it s x s' :
  iteration_check ndebug it s = (Ret x, s') → arc_queue s' = arc_queue s.
Proof.
  intros H. assert (Hn : neutral s s'); [|by destruct Hn as (_ & [? _] & _)].
  revert H. generalize s x s'. change (respects neutral (iteration_check ndebug it)).
  unfold iteration_check. resp. apply neutral_check.
Qed.

(** Unfolding one iteration of the loop on a non-empty queue. *)
Lemma router1_loop_step fuel ndebug cfg it s s1 a s2 :
  iteration_check ndebug it s = (Ret tt, s1) →
  arc_queue_pop s1 = (Ret a, s2) →
  router1_loop (S fuel) ndebug cfg it s
  = (route_arc (S fuel) cfg a true ≫= λ ok : bool,
       if ok then router1_loop fuel ndebug cfg (it + 1)
       else
         modify (emit (EvWarnNoRoute a));;
         (if ndebug then mret tt else check;; call_ctx_check);;
         modify (emit EvUnlock);;
         mret false) s2.
Proof.
  intros Hc Hp. pose proof (arc_queue_pop_nonempty _ _ _ Hp) as Hne.
  rewrite (iteration_check_queue _ _ _ _ _ Hc) in Hne.
  simpl. rewrite bind_unfold. simpl.
  destruct (arc_queue s) as [|e q]; [done|].
  rewrite (bind_run _ _ _ _ _ Hc). by rewrite (bind_run _ _ _ _ _ Hp).
Qed.

Lemma loop_reaches_run ndebug cfg fuel it s fuel' it' s' :
  loop_reaches ndebug cfg fuel it s fuel' it' s' →
  router1_loop fuel ndebug cfg it s = router1_loop fuel' ndebug cfg it' s'.
Proof.
  induction 1 as [|fuel it s s1 a s2 s3 fuel' it' s' Hc Hp Hr _ IH]; [done|].
  rewrite (router1_loop_step _ _ _ _ _ _ _ _ Hc Hp).
  by rewrite (bind_run _ _ _ _ _ Hr).
Qed.

Local Instance same_flag_preorder : PreOrder same_flag.
Proof. split; [by intros s | intros s1 s2 s3; unfold same_flag; congruence]. Qed.

Lemma route_arc_prepare_same_flag a : respects same_flag (route_arc_prepare a).
Proof.
  unfold route_arc_prepare, release_wire.
  resp_with ltac:(first
    [ apply respects_modify; intros ?; reflexivity
    | match goal with
      | |- respects same_flag (call_unbindWire ?w) =>
          let s := fresh in let x := fresh in let s' := fresh in
          intros s x s'; intros (? & _ & ->)%call_unbindWire_Ret; reflexivity
      end ]).
Qed.

(** The first half of C4: a search that ends without the sink in
    [visited] makes [route_arc] return false, with no rip-up. *)
Lemma route_arc_unreachable fuel cfg a ripup s u sp L s2 :
  users (deref (ctx s) (net_info a)) !! user_idx a = Some u →
  route_arc_prepare a (set_ripup_flag false s) = (Ret tt, sp) →
  route_arc_search fuel cfg (net_info a) ripup
    (getNetinfoSourceWire (ctx s) (net_info a))
    (getNetinfoSinkWire (ctx s) (net_info a) u) sp = (Ret L, s2) →
  visited s2 !! getNetinfoSinkWire (ctx s) (net_info a) u = None →
  route_arc fuel cfg a ripup s = (Ret false, s2)
  ∧ ripup_flag s2 = false
  ∧ ∃ t, trace s2 = trace s ++ t ∧ Forall (λ e, is_ripup e = false) t.
Proof.
  intros Hu Hprep Hsearch Hvis. split; [|split].
  - unfold route_arc. rewrite bind_unfold. simpl. rewrite Hu.
    rewrite bind_unfold. simpl. rewrite (bind_run _ _ _ _ _ Hprep).
    rewrite (bind_run _ _ _ _ _ Hsearch). rewrite bind_unfold. simpl.
    by rewrite Hvis.
  - apply silent_route_arc_search in Hsearch as (_&_&_&_&_&_&->&_).
    by apply route_arc_prepare_same_flag in Hprep as ->.
  - apply silent_route_arc_search in Hsearch as (_&_&_&_&_&_&_&->).
    apply route_arc_prepare_effect in Hprep as (_ & _ & _ & _ & _ & ->). simpl.
    eexists. split; [done|]. apply Forall_fmap, Forall_forall. done.
Qed.

(** The second half: the iteration whose [route_arc] fails reports the
    arc, and [router1] returns false. *)
Lemma router1_fails_on_unroutable fuel ndebug cfg c s_in f it s0 s1 a s s2 :
  router1_enter fuel ndebug (Router1_new c) = (Ret tt, s_in) →
  loop_reaches ndebug cfg fuel 0 s_in (S f) it s0 →
  iteration_check ndebug it s0 = (Ret tt, s1) →
  arc_queue_pop s1 = (Ret a, s) →
  route_arc (S f) cfg a true s = (Ret false, s2) →
  ndebug = true ∨ ctx_check (ctx s2) = true →
  ∃ s3, router1 fuel ndebug cfg c = (Ret false, s3)
        ∧ trace s3 = trace s2 ++ [EvWarnNoRoute a; EvUnlock].
Proof.
  intros Henter Hreach Hc Hp Hroute Hdbg.
  unfold router1, router1_try. rewrite (bind_run _ _ _ _ _ Henter).
  rewrite bind_unfold, (loop_reaches_run _ _ _ _ _ _ _ _ Hreach).
  rewrite (router1_loop_step _ _ _ _ _ _ _ _ Hc Hp).
  rewrite (bind_run _ _ _ _ _ Hroute).
  rewrite bind_unfold. simpl.
  destruct ndebug.
  - eexists. split; [reflexivity|]. simpl. by rewrite <- app_assoc.
  - destruct Hdbg as [?|Hck]; [done|].
    rewrite (bind_unfold (check ≫= _)), (bind_unfold check).
    destruct (check (emit (EvWarnNoRoute a) s2)) as [o sc] eqn:Hcheck.
    apply harmless_check in Hcheck as ([->|[[] ->]] & Ectx & Etr); simpl in *.
    + unfold router1_catch, call_ctx_check. rewrite !bind_unfold. simpl.
      rewrite Ectx, Hck. simpl. eexists. split; [reflexivity|].
      simpl. by rewrite Etr, <- app_assoc.
    + unfold call_ctx_check. rewrite !bind_unfold. simpl.
      rewrite Ectx, Hck. simpl. eexists. split; [reflexivity|].
      simpl. by rewrite Etr, <- app_assoc.
Qed.

(** C4: when the search of [route_arc] ends with the sink wire not in
    [visited], [route_arc] returns false, has called no rip-up entry point
    and has left [ripup_flag] clear; and when that happens in an iteration
    of the outer loop of [router1], every iteration before it having routed
    its arc, [router1] reports the arc and returns false (in a build with
    the debug checks, provided the check of the context passes). *)
Theorem unreachable_sink_is_fatal_without_ripup :
  (∀ fuel cfg a ripup s u sp L s2,
     users (deref (ctx s) (net_info a)) !! user_idx a = Some u →
     route_arc_prepare a (set_ripup_flag false s) = (Ret tt, sp) →
     route_arc_search fuel cfg (net_info a) ripup
       (getNetinfoSourceWire (ctx s) (net_info a))
       (getNetinfoSinkWire (ctx s) (net_info a) u) sp = (Ret L, s2) →
     visited s2 !! getNetinfoSinkWire (ctx s) (net_info a) u = None →
     route_arc fuel cfg a ripup s = (Ret false, s2)
     ∧ ripup_flag s2 = false
     ∧ ∃ t, trace s2 = trace s ++ t ∧ Forall (λ e, is_ripup e = false) t)
  ∧ (∀ fuel ndebug cfg c s_in f it s0 s1 a s s2,
       router1_enter fuel ndebug (Router1_new c) = (Ret tt, s_in) →
       loop_reaches ndebug cfg fuel 0 s_in (S f) it s0 →
       iteration_check ndebug it s0 = (Ret tt, s1) →
       arc_queue_pop s1 = (Ret a, s) →
       route_arc (S f) cfg a true s = (Ret false, s2) →
       ndebug = true ∨ ctx_check (ctx s2) = true →
       ∃ s3, router1 fuel ndebug cfg c = (Ret false, s3)
             ∧ trace s3 = trace s2 ++ [EvWarnNoRoute a; EvUnlock]).
Proof.
  split.
  - intros. by eapply route_arc_unreachable.
  - intros. by eapply router1_fails_on_unroutable.
Qed.

End Fatal.

Section QueueOrder.
Context `{A : Arch}.

Lemma arc_queue_insert3_entry a src_wire dst_wire s s' :
  a ∉ queued_arcs s →
  arc_queue_insert3 a src_wire dst_wire s = (Ret tt, s') →
  ∃ u, users (deref (ctx s) (net_info a)) !! user_idx a = Some u
       ∧ arc_queue s' = arc_queue s
            ++ [mk_arc_entry a (estimateDelay (ctx s) src_wire dst_wire - budget u)].
Proof.
  intros Hnot Hrun. unfold arc_queue_insert3 in Hrun.
  apply bind_Ret in Hrun as (? & ? & [-> ->]%get_Ret & Hrun).
  rewrite decide_False in Hrun by done.
  destruct (users (deref (ctx s) (net_info a)) !! user_idx a) as [u|]; [|done].
  apply bind_Ret in Hrun as ([] & s1 & ->%modify_Ret & ->%modify_Ret).
  exists u. done.
Qed.

Lemma arc_queue_pop_least s a s' :
  arc_queue_pop s = (Ret a, s') →
  ∃ e, e ∈ arc_queue s ∧ arc e = a ∧ ∀ e', e' ∈ arc_queue s → pri e ≤ pri e'.
Proof.
  unfold arc_queue_pop. intros Hrun.
  apply bind_Ret in Hrun as (? & ? & [-> ->]%get_Ret & Hrun).
  destruct (pq_top arc_entry_Greater (arc_queue s)) as [e|] eqn:Htop; [|done].
  apply bind_Ret in Hrun as ([] & s1 & _ & Hrun).
  apply bind_Ret in Hrun as ([] & s2 & _ & Hrun).
  apply mret_Ret in Hrun as [-> _].
  exists e. split; [|split; [done|]].
  - rewrite (pq_top_pop_perm _ _ _ Htop). left.
  - intros e' He'. by eapply pq_top_least.
Qed.

Lemma NoDup_fmap_inj_on {T U} (f : T → U) (l : list T) x y :
  NoDup (f <$> l) → x ∈ l → y ∈ l → f x = f y → x = y.
Proof.
  induction l as [|z l IH]; [by intros _ ?%elem_of_nil|].
  rewrite fmap_cons. intros [Hz Hnd]%NoDup_cons.
  intros [->|Hx]%elem_of_cons [->|Hy]%elem_of_cons Hf; auto.
  - exfalso. apply Hz. rewrite Hf. by apply list_elem_of_fmap_2.
  - exfalso. apply Hz. rewrite <- Hf. by apply list_elem_of_fmap_2.
Qed.

(** C1, amended: an arc is queued with the priority
    [estimateDelay src_wire dst_wire - budget]; [arc_queue_pop] returns a
    queued arc of the least priority ([arc_entry::Greater] makes the queue
    a min-heap); so, of two queued arcs with the same estimate, the one with
    the smaller budget is not the one popped. *)
Theorem arc_queue_pops_least_priority :
  (∀ a src_wire dst_wire s s',
     a ∉ queued_arcs s →
     arc_queue_insert3 a src_wire dst_wire s = (Ret tt, s') →
     ∃ u, users (deref (ctx s) (net_info a)) !! user_idx a = Some u
          ∧ arc_queue s' = arc_queue s
               ++ [mk_arc_entry a (estimateDelay (ctx s) src_wire dst_wire - budget u)])
  ∧ (∀ s a s',
       arc_queue_pop s = (Ret a, s') →
       ∃ e, e ∈ arc_queue s ∧ arc e = a ∧ ∀ e', e' ∈ arc_queue s → pri e ≤ pri e')
  ∧ (∀ s a s' e1 e2 estimate budget1 budget2,
       queue_inv s → e1 ∈ arc_queue s → e2 ∈ arc_queue s →
       pri e1 = estimate - budget1 → pri e2 = estimate - budget2 →
       budget1 < budget2 →
       arc_queue_pop s = (Ret a, s') → a ≠ arc e1).
Proof.
  split; [apply arc_queue_insert3_entry|]. split; [apply arc_queue_pop_least|].
  intros s a s' e1 e2 est b1 b2 [Hnd _] H1 H2 P1 P2 Hb Hpop ->.
  apply arc_queue_pop_least in Hpop as (e & He & Harc & Hleast).
  assert (e = e1) as -> by (by eapply NoDup_fmap_inj_on).
  specialize (Hleast e2 H2). lia.
Qed.

End QueueOrder.

Section StepCost.
Context `{A : Arch}.

Lemma add_wire_penalty_cost cfg s conflict p :
  add_wire_penalty cfg (wireScores s) conflict p = p + wire_ripup_cost cfg s conflict.
Proof.
  unfold add_wire_penalty, wire_ripup_cost, wire_score.
  destruct (decide (conflict = WireId_none)).
  - rewrite decide_False by tauto. lia.
  - rewrite decide_True by done. destruct (wireScores s !! conflict); simpl; lia.
Qed.

Lemma add_net_penalty_cost cfg s conflict p :
  add_net_penalty cfg (ctx s) (netScores s) conflict p = p + net_ripup_cost cfg s conflict.
Proof.
  unfold add_net_penalty, net_ripup_cost, net_score.
  destruct conflict as [n|]; [|lia].
  destruct (netScores s !! n); simpl; lia.
Qed.

Lemma step_penalty_cost cfg s k p :
  step_penalty cfg s k p
  = p + wire_ripup_cost cfg s (conflictWireWire k)
      + wire_ripup_cost cfg s (conflictPipWire k)
      + net_ripup_cost cfg s (conflictWireNet k)
      + net_ripup_cost cfg s (conflictPipNet k).
Proof.
  unfold step_penalty. by rewrite !add_net_penalty_cost, !add_wire_penalty_cost.
Qed.

(** C3: the penalty of a candidate step is the penalty of the wire it
    leaves plus, for the conflicts the step is left with,
    [wireRipupPenalty * (1 + wireScores[w])] for the wire of the wire-side
    conflict and for the wire of the pip-side conflict, and
    [netRipupPenalty * (1 + netScores[n]) + wireRipupPenalty * |n.wires|]
    for the net of each; a counter that is absent counts as zero. *)
Theorem step_penalty_of_live_conflicts cfg s net ripup qw pip
    next_wire next_delay next_penalty next_bonus :
  step_candidate cfg s net ripup qw pip
    = Some (next_wire, next_delay, next_penalty, next_bonus) →
  ∃ found,
    find_conflicts (ctx s) ripup
      (bool_decide (is_Some (wires (deref (ctx s) net) !! next_wire)))
      (bool_decide (is_Some (wires (deref (ctx s) net) !! next_wire))
       && bool_decide (stored_pip (wires (deref (ctx s) net)) next_wire = Some pip))
      next_wire pip = Some found
    ∧ next_wire = getPipDstWire (ctx s) pip
    ∧ next_penalty
      = qw_penalty qw
        + wire_ripup_cost cfg s (conflictWireWire (dedup_conflicts (ctx s) found))
        + wire_ripup_cost cfg s (conflictPipWire (dedup_conflicts (ctx s) found))
        + net_ripup_cost cfg s (conflictWireNet (dedup_conflicts (ctx s) found))
        + net_ripup_cost cfg s (conflictPipNet (dedup_conflicts (ctx s) found)).
Proof.
  unfold step_candidate. intros H.
  destruct (find_conflicts _ _ _ _ _ _) as [found|] eqn:Hf; [|done].
  injection H as <- <- <- <-. exists found. split; [done|]. split; [done|].
  apply step_penalty_cost.
Qed.

End StepCost.

Section Adoption.
Context `{A : Arch}.

Lemma walk_path_functional c net src_wire cursor ws ws' :
  walk_path c net src_wire cursor ws → walk_path c net src_wire cursor ws' → ws = ws'.
Proof.
  intros H. revert ws'. induction H as [|cursor it ws Hne Hlk Hp _ IH]; intros ws' H'.
  - by inversion H'.
  - inversion H' as [|? it' ws'' ? Hlk' ? Hw']; subst; [done|].
    rewrite Hlk in Hlk'. injection Hlk' as <-. f_equal. by apply IH.
Qed.

Section with_design.
Context (c : Ctx).

Lemma fine_bind {T U} (m : M T) (f : T → M U) s Q1 Q2 :
  fine c (m s) Q1 →
  (∀ x s1, untouched c s1 → Q1 x s1 → fine c (f x s1) Q2) →
  fine c ((m ≫= f) s) Q2.
Proof.
  intros Hm Hf. rewrite bind_unfold. destruct (m s) as [[x|e|] s1]; simpl in *.
  - destruct Hm. by apply Hf.
  - by destruct e.
  - done.
Qed.

Lemma fine_weaken {T} (r : outcome T * Router1) (Q1 Q2 : T → Router1 → Prop) :
  fine c r Q1 → (∀ x s, untouched c s → Q1 x s → Q2 x s) → fine c r Q2.
Proof.
  destruct r as [[x|e|] s]; simpl; [|done|done]. intros [Hu HQ] Himp. split; auto.
Qed.

Lemma attach_run a w s :
  ∃ s', attach a w s = (Ret tt, s')
        ∧ ctx s' = ctx s ∧ arc_queue s' = arc_queue s
        ∧ queued_arcs s' = queued_arcs s ∧ trace s' = trace s
        ∧ has_key s' w ∧ keys_kept s s'.
Proof.
  eexists. split; [reflexivity|]. simpl. repeat split.
  - unfold has_key. simpl. by rewrite lookup_insert_eq.
  - intros w' Hw'. unfold has_key in *. simpl.
    destruct (decide (w = w')) as [->|]; [by rewrite lookup_insert_eq|].
    by rewrite lookup_insert_ne.
Qed.

Lemma setup_walk_routed net a src_wire dst_wire cursor ws fuel s :
  walk_path c net src_wire cursor ws → (length ws ≤ fuel)%nat → untouched c s →
  ∃ s', setup_walk fuel net a src_wire dst_wire cursor s = (Ret tt, s')
        ∧ untouched c s' ∧ keys_kept s s' ∧ ∀ w, w ∈ ws → has_key s' w.
Proof.
  intros Hw. revert fuel s.
  induction Hw as [|cursor it ws Hne Hlk Hp _ IH]; intros fuel s Hlen Hs.
  - exists s. destruct fuel; simpl; rewrite decide_True by done;
      (split; [done|]); (split; [done|]); (split; [by intros ?|]);
      by intros ? ?%elem_of_nil.
  - destruct fuel as [|fuel]; [simpl in Hlen; lia|]. simpl in Hlen.
    simpl. rewrite decide_False by done.
    destruct Hs as (Ec & Eq & Eqa & Et).
    rewrite bind_unfold. simpl. rewrite Ec, Hlk.
    rewrite bind_unfold. simpl. rewrite bool_decide_eq_true_2 by done. simpl.
    destruct (attach_run a (getPipSrcWire c (pip it)) s)
      as (s1 & Hatt & Ec1 & Eq1 & Eqa1 & Et1 & Hk1 & Hkk1).
    rewrite (bind_run _ _ _ _ _ Hatt).
    destruct (IH fuel s1) as (s' & Hrun & Hs' & Hkk & Hks); [lia| |].
    { repeat split; congruence. }
    exists s'. split; [done|]. split; [done|]. split.
    + intros w ?. by apply Hkk, Hkk1.
    + intros w [->|?]%elem_of_cons; [by apply Hkk | by apply Hks].
Qed.

Lemma covers_arc_kept s s' net d : keys_kept s s' → covers_arc c s net d → covers_arc c s' net d.
Proof. intros Hk Hc ws Hw w Hin. by eapply Hk, Hc. Qed.

Lemma adopted_kept maps s s' : keys_kept s s' → adopted c maps s → adopted c maps s'.
Proof. intros Hk Ha d a Hd. eapply covers_arc_kept; eauto. Qed.

Lemma setup_user_fine fuel net maps i u s :
  net ∈ nets c →
  net_routed c net → fuel_covers c fuel net → u ∈ users (deref c net) →
  untouched c s → adopted c maps s →
  fine c (setup_user fuel net (getNetinfoSourceWire c net) maps (i, u) s)
       (λ maps' s', adopted c maps' s' ∧ keys_kept s s'
                    ∧ covers_arc c s' net (sink_of c net u)).
Proof.
  intros Hnet (Hsrc & Hwalks & _) Hfuel Hu Hs Hmaps.
  destruct (Hs) as (Ec & Eq & Eqa & Et).
  unfold setup_user. rewrite bind_unfold. simpl. rewrite Ec. fold (sink_of c net u).
  destruct (decide (sink_of c net u = WireId_none)) as [Hnone|].
  { destruct (cell u) eqn:Hcell; [done|]. simpl. by exists net, u. }
  destruct (dst_to_arc maps !! sink_of c net u) as [other|] eqn:Hother.
  { destruct (decide (net_info other = net)) as [<-|]; [|done].
    simpl. split; [done|]. split; [done|]. split; [by intros ?|]. by eapply Hmaps. }
  destruct (decide (is_Some (src_to_net maps !! sink_of c net u))); [done|].
  destruct Hsrc as [pm ->].
  { intros Hnil. rewrite Hnil in Hu. by apply elem_of_nil in Hu. }
  destruct (Hwalks u Hu) as (ws & Hw).
  destruct (attach_run (mk_arc_key net i) (sink_of c net u) s)
    as (s1 & Hatt & Ec1 & Eq1 & Eqa1 & Et1 & Hk1 & Hkk1).
  rewrite (bind_run _ _ _ _ _ Hatt).
  destruct (setup_walk_routed net (mk_arc_key net i) (getNetinfoSourceWire c net)
              (sink_of c net u) (sink_of c net u) ws fuel s1 Hw)
    as (s' & Hrun & Hs' & Hkk & Hks).
  { by eapply Hfuel. }
  { repeat split; congruence. }
  rewrite (bind_run _ _ _ _ _ Hrun). simpl. split; [done|].
  assert (Hcov : covers_arc c s' net (sink_of c net u)).
  { intros ws' Hw' w Hin. rewrite <- (walk_path_functional _ _ _ _ _ _ Hw Hw') in Hin.
    apply elem_of_cons in Hin as [->|Hin]; [by apply Hkk | by apply Hks]. }
  split; [|split; [|done]].
  - intros d a. simpl. destruct (decide (sink_of c net u = d)) as [<-|Hne].
    + rewrite lookup_insert_eq. by intros [= <-].
    + rewrite lookup_insert_ne by done. intros Hd.
      eapply covers_arc_kept; [|by eapply Hmaps]. intros w ?. by apply Hkk, Hkk1.
  - intros w ?. by apply Hkk, Hkk1.
Qed.

Lemma setup_users_fine fuel net (l : list (nat * PortRef)) maps s :
  net ∈ nets c →
  net_routed c net → fuel_covers c fuel net →
  (∀ iu, iu ∈ l → iu.2 ∈ users (deref c net)) →
  untouched c s → adopted c maps s →
  fine c (foldM (setup_user fuel net (getNetinfoSourceWire c net)) l maps s)
       (λ maps' s', adopted c maps' s' ∧ keys_kept s s'
                    ∧ ∀ iu, iu ∈ l → covers_arc c s' net (sink_of c net iu.2)).
Proof.
  intros Hin Hnet Hfuel. revert maps s.
  induction l as [|[i u] l IH]; intros maps s Hl Hs Hmaps; simpl.
  - split; [done|]. split; [done|]. split; [by intros ?|]. by intros ? ?%elem_of_nil.
  - eapply fine_bind.
    + apply setup_user_fine; try done. apply (Hl (i, u)). left.
    + intros maps1 s1 Hs1 (Hm1 & Hk1 & Hc1). simpl in *.
      eapply fine_weaken.
      * apply IH; try done. intros iu Hiu. apply Hl. by right.
      * intros maps2 s2 Hs2 (Hm2 & Hk2 & Hc2). simpl in *.
        split; [done|]. split; [intros w ?; by apply Hk2, Hk1|].
        intros iu [->|Hiu]%elem_of_cons; [|by apply Hc2].
        by eapply covers_arc_kept.
Qed.

Lemma filter_none {T} (P : T → Prop) `{!∀ x, Decision (P x)} (l : list T) :
  (∀ x, x ∈ l → ¬ P x) → filter P l = [].
Proof.
  induction l as [|x l IH]; intros Hl; [done|].
  rewrite filter_cons_False by (apply Hl; left). apply IH. intros y ?. apply Hl. by right.
Qed.

Lemma setup_net_fine fuel maps net s :
  net ∈ nets c →
  (skip_net (deref c net) = false → net_routed c net ∧ fuel_covers c fuel net) →
  untouched c s → adopted c maps s →
  fine c (setup_net fuel maps net s) (λ maps' s', adopted c maps' s' ∧ keys_kept s s').
Proof.
  intros Hnet_in Hnet Hs Hmaps. destruct (Hs) as (Ec & Eq & Eqa & Et).
  unfold setup_net. rewrite bind_unfold. simpl. rewrite Ec.
  destruct (skip_net (deref c net)); [simpl; split; [done|]; split; [done|by intros ?]|].
  destruct Hnet as [Hrouted Hfuel]; [done|].
  destruct (decide (getNetinfoSourceWire c net = WireId_none)); [done|].
  destruct (decide (is_Some (src_to_net maps !! getNetinfoSourceWire c net))); [done|].
  destruct (decide (is_Some (dst_to_arc maps !! getNetinfoSourceWire c net))); [done|].
  eapply fine_bind.
  - apply (setup_users_fine fuel net (indexed_users (deref c net))); try done.
    intros [i u] (j & u' & [= -> ->] & Hlk)%elem_of_lookup_imap. simpl.
    by eapply list_elem_of_lookup_2.
  - intros maps1 s1 Hs1 (Hm1 & Hk1 & Hc1). simpl in *.
    destruct (Hs1) as (Ec1 & _).
    rewrite bind_unfold. simpl. rewrite Ec1.
    rewrite filter_none; [simpl; split; [done|]; by split|].
    intros [w pm] Hin%elem_of_map_to_list [_ Hnone]. simpl in *.
    destruct Hrouted as (_ & _ & Hcover).
    destruct (Hcover w) as (u & ws & Hu & Hw & Hwin); [by eexists|].
    apply list_elem_of_lookup_1 in Hu as [i Hi].
    assert (Hiu : (i, u) ∈ indexed_users (deref c net)).
    { apply elem_of_lookup_imap. eauto. }
    destruct (Hc1 _ Hiu ws Hw w Hwin) as [? Hsome]. congruence.
Qed.

Lemma setup_nets_fine fuel (l : list nat) maps s :
  (∀ net, net ∈ l → net ∈ nets c) →
  (∀ net, net ∈ l → skip_net (deref c net) = false →
          net_routed c net ∧ fuel_covers c fuel net) →
  untouched c s → adopted c maps s →
  fine c (foldM (setup_net fuel) l maps s) (λ maps' s', True).
Proof.
  revert maps s. induction l as [|net l IH]; intros maps s Hin Hl Hs Hmaps; simpl.
  - done.
  - eapply fine_bind.
    + apply setup_net_fine; try done; [apply Hin | apply Hl]; left.
    + intros maps1 s1 Hs1 [Hm1 _]. apply IH; try done.
      * intros net' ?. apply Hin. by right.
      * intros net' ?. apply Hl. by right.
Qed.

Lemma untouched_new : untouched c (Router1_new c).
Proof. done. Qed.

Lemma setup_fine fuel :
  (∀ net, net ∈ nets c → skip_net (deref c net) = false →
          net_routed c net ∧ fuel_covers c fuel net) →
  fine c (setup fuel (Router1_new c)) (λ _ _, True).
Proof.
  intros Hall. unfold setup. rewrite bind_unfold. simpl.
  eapply fine_bind.
  - apply setup_nets_fine; [done | done | done |]. intros d a Hd. simpl in Hd.
    by rewrite lookup_empty in Hd.
  - intros maps s Hs _. simpl. done.
Qed.

(** Some amount of fuel is enough for the walks of every arc. *)
Lemma bound_for_all {X} (P : X → nat → Prop) (l : list X) :
  (∀ x, x ∈ l → ∃ n, ∀ m, (n ≤ m)%nat → P x m) →
  ∃ n, ∀ m, (n ≤ m)%nat → ∀ x, x ∈ l → P x m.
Proof.
  induction l as [|x l IH]; intros Hl.
  - exists 0%nat. by intros m _ x ?%elem_of_nil.
  - destruct (Hl x) as [n1 H1]; [left|].
    destruct IH as [n2 H2]; [intros y ?; apply Hl; by right|].
    exists (n1 `max` n2)%nat. intros m Hm y [->|Hy]%elem_of_cons.
    + apply H1. lia.
    + apply H2; [lia | done].
Qed.

Lemma fuel_for_net net :
  net_routed c net → ∃ n, ∀ m, (n ≤ m)%nat → fuel_covers c m net.
Proof.
  intros (_ & Hwalks & _).
  destruct (bound_for_all
    (λ u m, ∀ ws, walk_path c net (getNetinfoSourceWire c net) (sink_of c net u) ws →
                  (length ws ≤ m)%nat) (users (deref c net))) as [n Hn].
  - intros u Hu. destruct (Hwalks u Hu) as [ws Hw]. exists (length ws).
    intros m Hm ws' Hw'. by rewrite <- (walk_path_functional _ _ _ _ _ _ Hw Hw').
  - exists n. intros m Hm u ws Hu Hw. by eapply Hn.
Qed.

Lemma fuel_for_design :
  design_routed c →
  ∃ n, ∀ m, (n ≤ m)%nat → ∀ net, net ∈ nets c →
    skip_net (deref c net) = false → net_routed c net ∧ fuel_covers c m net.
Proof.
  intros Hd.
  destruct (bound_for_all
    (λ net m, skip_net (deref c net) = false → net_routed c net ∧ fuel_covers c m net)
    (nets c)) as [n Hn].
  - intros net Hnet. destruct (skip_net (deref c net)) eqn:Hskip.
    + exists 0%nat. by intros.
    + destruct (fuel_for_net net) as [n Hn]; [by apply Hd|].
      exists n. intros m Hm _. split; [by apply Hd | by apply Hn].
  - exists n. intros m Hm net Hnet. by eapply Hn.
Qed.
End with_design.

(** C6, amended: on a design in which every net that is not skipped is
    routed (the walk back from each sink wire along the stored pips reaches
    the source wire, the walks cover every bound wire, and the source wire
    of a net that has a user is bound to it), [setup], given enough fuel,
    leaves the work queue empty, the context as it was, and makes no call
    on the architecture, whether it returns or stops on a [log_error];
    the one other way it can end is the null dereference in the message
    of the [log_error] for a missing sink wire, for a user that is on no
    cell. *)
Theorem setup_adopts_routed_design c :
  design_routed c →
  ∃ fuel0, ∀ fuel, (fuel0 ≤ fuel)%nat →
    ((setup fuel (Router1_new c)).1 = Throw undefined_behaviour ∧ reads_null_cell c)
    ∨ (((setup fuel (Router1_new c)).1 = Ret tt
        ∨ (setup fuel (Router1_new c)).1 = Throw log_execution_error_exception)
       ∧ arc_queue (setup fuel (Router1_new c)).2 = []
       ∧ queued_arcs (setup fuel (Router1_new c)).2 = ∅
       ∧ ctx (setup fuel (Router1_new c)).2 = c
       ∧ trace (setup fuel (Router1_new c)).2 = []).
Proof.
  intros Hd. destruct (fuel_for_design c Hd) as [fuel0 Hfuel].
  exists fuel0. intros fuel Hle.
  pose proof (setup_fine c fuel (Hfuel fuel Hle)) as Hfine.
  destruct (setup fuel (Router1_new c)) as [[[]|e|] s]; simpl in *.
  - destruct Hfine as [(? & ? & ? & ?) _]. right. auto.
  - destruct e; try done.
    + destruct Hfine as (? & ? & ? & ?). right. auto.
    + by left.
  - done.
Qed.

End Adoption.

Section Traversal.
Context `{A : Arch}.

(** ** The traversal [setOrderNum] on a forest with back edges *)

Lemma elem_of_visited_set st w : w ∈ visited_set st ↔ vis st w.
Proof.
  unfold visited_set, vis, db_at. rewrite elem_of_dom. split.
  - intros [e [He Hn]%map_lookup_filter_Some]. by rewrite He.
  - intros Hn. destruct (db st !! w) as [e|] eqn:He; [|done].
    exists e. by apply map_lookup_filter_Some.
Qed.

Lemma db_at_insert (m : gmap Z ExtraWireInfo) w e u :
  db_at (<[w := e]> m) u = if decide (u = w) then e else db_at m u.
Proof.
  unfold db_at. case_decide as Hu.
  - subst. by rewrite lookup_insert_eq.
  - by rewrite lookup_insert_ne.
Qed.

Lemma fold_option_app {T S} (f : T → S → option S) l1 l2 s :
  fold_option f (l1 ++ l2) s
  = match fold_option f l1 s with Some s' => fold_option f l2 s' | None => None end.
Proof.
  revert s. induction l1 as [|x l1 IH]; intros s; simpl; [done|].
  destruct (f x s); [apply IH | done].
Qed.

Lemma setOrderNum_S fuel dest_wires w num st :
  setOrderNum (S fuel) dest_wires w num st
  = if decide (order_num (db_at (db st) w) ≠ 0) then
      Some (mk_walk_state (<[w := db_at (db st) w]> (db st)) true (found_stub st))
    else
      match fold_option (λ child, setOrderNum fuel dest_wires child (num + 1))
                        (elements (children (db_at (db st) w)))
                        (mk_walk_state
                           (<[w := mk_ExtraWireInfo num (children (db_at (db st) w))]> (db st))
                           (found_loop st) (found_stub st)) with
      | None => None
      | Some st2 =>
          if decide (children (db_at (db st) w) = ∅) then
            match dest_wires !! w with
            | Some _ => Some st2
            | None => Some (mk_walk_state (db st2) (found_loop st2) true)
            end
          else Some st2
      end.
Proof. reflexivity. Qed.

Section graph.
(** [root] is the wire the traversal starts from, [kids u] the children
    of [u]; every wire has at most one parent. *)
Context (root : Z) (kids : Z → gset Z) (wire_universe : gset Z) (dest_wires : gmap Z nat).
Context (Hparent : ∀ u u' x, x ∈ kids u → x ∈ kids u' → u = u').
Context (Huniverse : ∀ u x, x ∈ kids u → x ∈ wire_universe).

Lemma dfs_post_nil st : kids_ok kids st → dfs_post root kids dest_wires (∃ x, x ∈ [] ∧ vis st x) [] st st.
Proof.
  intros Hk. split; try done.
  - by intros x ?%elem_of_nil.
  - by intros y [? ?].
  - by intros y [? ?].
  - by intros p [? ?].
  - split; [by left|]. intros [?|[(? & ?%elem_of_nil & _)|(p & [? ?] & _)]]; done.
  - split; [by left|]. intros [?|(p & [? ?] & _)]; done.
  - intros u ?. by left.
Qed.

Lemma fresh_split st st1 st2 y :
  (∀ x, vis st x → vis st1 x) →
  fresh st st2 y → fresh st st1 y ∨ fresh st1 st2 y.
Proof.
  intros Hm [H2 H0]. destruct (decide (order_num (db_at (db st1) y) = 0)) as [E|E].
  - right. split; [done|]. intros Hv. by apply Hv.
  - left. by split.
Qed.

(** Sequencing two traversals. *)
Lemma dfs_post_seq x l st st1 st2 :
  (∀ y, y ∈ l → vis st1 y → vis st y) →
  dfs_post root kids dest_wires (vis st x) [x] st st1 →
  dfs_post root kids dest_wires (∃ y, y ∈ l ∧ vis st1 y) l st1 st2 →
  dfs_post root kids dest_wires (∃ y, y ∈ x :: l ∧ vis st y) (x :: l) st st2.
Proof.
  intros Hl P1 P2.
  pose proof (post_mono _ _ _ _ _ _ _ P1) as M1. pose proof (post_mono _ _ _ _ _ _ _ P2) as M2.
  assert (F1 : ∀ y, fresh st st1 y → fresh st st2 y).
  { intros y [? ?]. split; [by apply M2|done]. }
  assert (F2 : ∀ y, fresh st1 st2 y → fresh st st2 y).
  { intros y [? Hn]. split; [done|]. intros ?. apply Hn. by apply M1. }
  split.
  - apply (post_kids _ _ _ _ _ _ _ P2).
  - intros y ?. by apply M2, M1.
  - intros y [->|?]%elem_of_cons.
    + apply M2, (post_roots _ _ _ _ _ _ _ P1). left.
    + by apply (post_roots _ _ _ _ _ _ _ P2).
  - intros y [Hy|Hy]%(fresh_split st st1 st2); [| |done].
    + destruct (post_reach _ _ _ _ _ _ _ P1 y Hy) as (z & ->%list_elem_of_singleton & ?).
      exists x. split; [left|done].
    + destruct (post_reach _ _ _ _ _ _ _ P2 y Hy) as (z & ? & ?). exists z. split; [by right|done].
  - intros y [Hy|Hy]%(fresh_split st st1 st2); [| |done].
    + destruct (post_parent _ _ _ _ _ _ _ P1 y Hy) as [->%list_elem_of_singleton|(p & ? & ?)].
      * left. left.
      * right. exists p. split; [by apply F1|done].
    + destruct (post_parent _ _ _ _ _ _ _ P2 y Hy) as [?|(p & ? & ?)].
      * left. by right.
      * right. exists p. split; [by apply F2|done].
  - intros p [Hp|Hp]%(fresh_split st st1 st2) z Hz; [| |done].
    + apply M2. by eapply (post_closed _ _ _ _ _ _ _ P1).
    + by eapply (post_closed _ _ _ _ _ _ _ P2).
  - rewrite (post_loop _ _ _ _ _ _ _ P2), (post_loop _ _ _ _ _ _ _ P1). split.
    + intros [[?|[?|(p & ? & ?)]]|[(y & ? & ?)|(p & ? & ?)]].
      * by left.
      * right. left. exists x. split; [left|done].
      * right. right. exists p. split; [by apply F1|done].
      * right. left. exists y. split; [by right | by apply Hl].
      * right. right. exists p. split; [by apply F2|done].
    + intros [?|[(y & [->|?]%elem_of_cons & ?)|(p & [Hp|Hp]%(fresh_split st st1 st2) & ?)]].
      * left. by left.
      * left. right. by left.
      * right. left. exists y. split; [done | by apply M1].
      * left. right. right. by exists p.
      * right. right. by exists p.
      * done.
  - rewrite (post_stub _ _ _ _ _ _ _ P2), (post_stub _ _ _ _ _ _ _ P1). split.
    + intros [[?|(p & ? & ?)]|(p & ? & ?)].
      * by left.
      * right. exists p. split; [by apply F1|done].
      * right. exists p. split; [by apply F2|done].
    + intros [?|(p & [Hp|Hp]%(fresh_split st st1 st2) & ?)].
      * left. by left.
      * left. right. by exists p.
      * right. by exists p.
      * done.
  - intros u ?. by apply (post_dom _ _ _ _ _ _ _ P2), (post_dom _ _ _ _ _ _ _ P1).
  - intros u [Hu|?]%(post_dom' _ _ _ _ _ _ _ P2); [|by right].
    apply (post_dom' _ _ _ _ _ _ _ P1) in Hu as [?|?]; [by left|]. right. by apply M2.
Qed.

Lemma unvisited_mono st st' :
  (∀ x, vis st x → vis st' x) → (unvisited wire_universe st' ≤ unvisited wire_universe st)%nat.
Proof.
  intros Hm. unfold unvisited. apply subseteq_size. intros x [Hx Hn]%elem_of_difference.
  apply elem_of_difference. split; [done|]. rewrite elem_of_visited_set in *. auto.
Qed.

Lemma unvisited_less st st' w :
  (∀ x, vis st x → vis st' x) → w ∈ wire_universe → ¬ vis st w → vis st' w →
  (unvisited wire_universe st' < unvisited wire_universe st)%nat.
Proof.
  intros Hm Hw Hn Hv. unfold unvisited. apply subset_size. split.
  - intros x [Hx Hnx]%elem_of_difference.
    apply elem_of_difference. split; [done|]. rewrite elem_of_visited_set in *. auto.
  - intros Hsub. specialize (Hsub w). rewrite !elem_of_difference in Hsub.
    rewrite !elem_of_visited_set in Hsub. destruct Hsub as [_ ?]; done.
Qed.

Lemma parents_visited_post hit roots st st' :
  dfs_pre root kids roots st → dfs_post root kids dest_wires hit roots st st' → parents_visited root kids st'.
Proof.
  intros Pre Post x Hx Hne.
  destruct (decide (order_num (db_at (db st) x) = 0)) as [E|E].
  - assert (Hf : fresh st st' x) by (split; [done | by intros Hv; apply Hv]).
    destruct (post_parent _ _ _ _ _ _ _ Post x Hf) as [Hr|(p & [? ?] & ?)]; [|by exists p].
    destruct (pre_roots _ _ _ _ Pre x Hr Hne) as (_ & p & ? & ?).
    exists p. split; [by apply (post_mono _ _ _ _ _ _ _ Post)|done].
  - destruct (pre_parents _ _ _ _ Pre x E Hne) as (p & ? & ?).
    exists p. split; [by apply (post_mono _ _ _ _ _ _ _ Post)|done].
Qed.

Lemma fold_ok fuel :
  call_ok root kids wire_universe dest_wires fuel →
  ∀ l num st u,
    0 < num → dfs_pre root kids l st → vis st u → (∀ x, x ∈ l → x ∈ kids u) →
    (unvisited wire_universe st < fuel)%nat →
    ∃ st', fold_option (λ child, setOrderNum fuel dest_wires child num) l st = Some st'
           ∧ dfs_post root kids dest_wires (∃ x, x ∈ l ∧ vis st x) l st st'.
Proof.
  intros Hcall l num. induction l as [|x l IH]; intros st u Hnum Pre Hu Hl Hfuel.
  - exists st. split; [done|]. apply dfs_post_nil, Pre.
  - pose proof (pre_nodup _ _ _ _ Pre) as [Hx Hnd]%NoDup_cons.
    assert (Pre1 : dfs_pre root kids [x] st).
    { split; [apply Pre | | apply Pre | apply NoDup_singleton |].
      - destruct (pre_root _ _ _ _ Pre) as [?|Hr]; [by left|]. right.
        intros y ->%list_elem_of_singleton. apply Hr. left.
      - intros y ->%list_elem_of_singleton. apply (pre_roots _ _ _ _ Pre). left. }
    destruct (Hcall x num st Hnum Pre1) as (st1 & Hrun1 & Post1); [|done|].
    { eapply Huniverse, Hl. left. }
    pose proof (post_mono _ _ _ _ _ _ _ Post1) as M1.
    assert (Hfresh : ∀ y, y ∈ l → y ≠ root → ¬ vis st1 y).
    { intros y Hy Hne Hv1.
      destruct (pre_roots _ _ _ _ Pre y) as (Hny & _); [by right | done |].
      assert (Hf : fresh st st1 y) by done.
      destruct (post_parent _ _ _ _ _ _ _ Post1 y Hf)
        as [->%list_elem_of_singleton|(q & [_ Hq] & Hyq)]; [done|].
      assert (q = u) as -> by (eapply Hparent; [done | apply Hl; by right]). done. }
    assert (Pre2 : dfs_pre root kids l st1).
    { split.
      - apply (post_kids _ _ _ _ _ _ _ Post1).
      - left. destruct (pre_root _ _ _ _ Pre) as [?|Hr]; [by apply M1|].
        rewrite <- (Hr x) by left. apply (post_roots _ _ _ _ _ _ _ Post1). left.
      - by eapply parents_visited_post.
      - done.
      - intros y Hy Hne. split; [by apply Hfresh|].
        destruct (pre_roots _ _ _ _ Pre y) as (_ & p & Hp & Hyp); [by right | done |].
        exists p. split; [by apply M1|done]. }
    destruct (IH st1 u Hnum Pre2) as (st2 & Hrun2 & Post2).
    { by apply M1. }
    { intros y ?. apply Hl. by right. }
    { pose proof (unvisited_mono st st1 M1). lia. }
    exists st2. split; [simpl; by rewrite Hrun1|].
    eapply dfs_post_seq; [|done|done].
    intros y Hy Hv1. destruct (decide (y = root)) as [->|Hne]; [|by destruct (Hfresh y)].
    destruct (pre_root _ _ _ _ Pre) as [?|Hr]; [done|].
    exfalso. apply Hx. by rewrite (Hr x) by left.
Qed.

Lemma vis_mark w num st x : num ≠ 0 → vis (mark w num st) x ↔ x = w ∨ vis st x.
Proof.
  intros Hnum. unfold vis, mark. simpl. rewrite db_at_insert.
  case_decide; simpl; naive_solver.
Qed.

Lemma kids_ok_mark w num st : kids_ok kids st → kids_ok kids (mark w num st).
Proof.
  intros Hk u. unfold mark. simpl. rewrite db_at_insert.
  case_decide; subst; simpl; apply Hk.
Qed.

Lemma call_ok_all fuel : call_ok root kids wire_universe dest_wires fuel.
Proof.
  induction fuel as [|fuel IH]; intros w num st Hnum Pre Hw Hfuel; [lia|].
  pose proof (pre_kids _ _ _ _ Pre) as Hk.
  rewrite setOrderNum_S. destruct (decide (order_num (db_at (db st) w) ≠ 0)) as [Hv|Hn].
  - (* the call hits a visited wire *)
    eexists. split; [done|].
    assert (Hsame : ∀ u, db_at (<[w := db_at (db st) w]> (db st)) u = db_at (db st) u).
    { intros u. rewrite db_at_insert. by case_decide; subst. }
    split; simpl.
    + intros u. rewrite Hsame. apply Hk.
    + intros x. unfold vis. simpl. by rewrite Hsame.
    + intros x ->%list_elem_of_singleton. unfold vis. simpl. by rewrite Hsame.
    + intros y [Hy Hny]. exfalso. apply Hny. revert Hy. unfold vis. simpl. by rewrite Hsame.
    + intros y [Hy Hny]. exfalso. apply Hny. revert Hy. unfold vis. simpl. by rewrite Hsame.
    + intros y [Hy Hny]. exfalso. apply Hny. revert Hy. unfold vis. simpl. by rewrite Hsame.
    + split; [intros _; right; by left | done].
    + split; [by left|]. intros [?|(p & [Hy Hny] & _)]; [done|].
      exfalso. apply Hny. revert Hy. unfold vis. simpl. by rewrite Hsame.
    + intros u Hu. destruct (decide (u = w)) as [->|];
        [by rewrite lookup_insert_eq | by rewrite lookup_insert_ne].
    + intros u. destruct (decide (u = w)) as [->|].
      * intros _. right. unfold vis. simpl. by rewrite Hsame.
      * rewrite lookup_insert_ne by done. by left.
  - (* the call visits [w] *)
    assert (Hnv : ¬ vis st w) by done.
    fold (mark w num st). rewrite (Hk w).
    assert (Hnum0 : num ≠ 0) by lia.
    set (st1 := mark w num st).
    assert (M0 : ∀ x, vis st x → vis st1 x).
    { intros x ?. apply vis_mark; auto. }
    assert (Hw1 : vis st1 w) by (apply vis_mark; auto).
    assert (Hparent_w : w ≠ root → ∃ p, vis st p ∧ w ∈ kids p).
    { intros Hne. by destruct (pre_roots _ _ _ _ Pre w) as (_ & ?); [left | |]. }
    assert (Hroot1 : vis st1 root).
    { destruct (pre_root _ _ _ _ Pre) as [?|Hr]; [by apply M0|].
      rewrite <- (Hr w) by left. done. }
    assert (Hkids_fresh : ∀ x, x ∈ kids w → x ≠ root → ¬ vis st1 x).
    { intros x Hx Hne [->|Hvx]%vis_mark; [| |done].
      - destruct (Hparent_w Hne) as (p & Hp & Hwp).
        assert (p = w) as -> by (by eapply Hparent). done.
      - destruct (pre_parents _ _ _ _ Pre x Hvx Hne) as (p & Hp & Hxp).
        assert (p = w) as -> by (by eapply Hparent). done. }
    assert (Pre1 : dfs_pre root kids (elements (kids w)) st1).
    { split.
      - by apply kids_ok_mark.
      - by left.
      - intros x [->|Hvx]%vis_mark Hne; [| |done].
        + destruct (Hparent_w Hne) as (p & ? & ?). exists p. split; [by apply M0|done].
        + destruct (pre_parents _ _ _ _ Pre x Hvx Hne) as (p & ? & ?).
          exists p. split; [by apply M0|done].
      - apply NoDup_elements.
      - intros x Hx%elem_of_elements Hne. split; [by apply Hkids_fresh|]. by exists w. }
    destruct (fold_ok fuel IH (elements (kids w)) (num + 1) st1 w) as (st2 & Hrun & Post);
      [lia | done | done | by intros x ?%elem_of_elements | |].
    { pose proof (unvisited_less st st1 w M0 Hw Hnv Hw1). lia. }
    rewrite Hrun.
    pose proof (post_mono _ _ _ _ _ _ _ Post) as M2.
    assert (Hfresh : ∀ y, fresh st st2 y ↔ y = w ∨ fresh st1 st2 y).
    { intros y. split.
      - intros [Hy Hny]. destruct (decide (y = w)) as [->|Hne]; [by left|].
        right. split; [done|]. intros [?|?]%vis_mark; done.
      - intros [->|[Hy Hny]]; [split; [by apply M2|done]|].
        split; [done|]. intros ?. by apply Hny, M0. }
    assert (Hhit : (∃ x, x ∈ elements (kids w) ∧ vis st1 x) ↔ root ∈ kids w).
    { split.
      - intros (x & Hx%elem_of_elements & Hvx).
        destruct (decide (x = root)) as [->|Hne]; [done|]. by destruct (Hkids_fresh x).
      - intros Hr. exists root. split; [by apply elem_of_elements|done]. }
    (* the state before the leaf test *)
    assert (Post' : ∀ stub',
              (stub' = true ↔ found_stub st2 = true
                              ∨ (kids w = ∅ ∧ dest_wires !! w = None)) →
              dfs_post root kids dest_wires (vis st w) [w] st
                       (mk_walk_state (db st2) (found_loop st2) stub')).
    { intros stub' Hstub.
      assert (Hv' : ∀ x, vis (mk_walk_state (db st2) (found_loop st2) stub') x ↔ vis st2 x)
        by done.
      assert (Hf' : ∀ y, fresh st (mk_walk_state (db st2) (found_loop st2) stub') y
                         ↔ fresh st st2 y) by done.
      split; simpl.
      - apply (post_kids _ _ _ _ _ _ _ Post).
      - intros x ?. apply Hv'. by apply M2, M0.
      - intros x ->%list_elem_of_singleton. apply Hv'. by apply M2.
      - intros y [->|Hy]%Hf'%Hfresh; [exists w; split; [left|done]|].
        destruct (post_reach _ _ _ _ _ _ _ Post y Hy) as (x & Hx%elem_of_elements & Hxy).
        exists w. split; [left|]. by eapply rtc_l.
      - intros y [->|Hy]%Hf'%Hfresh; [left; left|]. right.
        destruct (post_parent _ _ _ _ _ _ _ Post y Hy) as [Hx%elem_of_elements|(p & Hp & ?)].
        + exists w. split; [|done]. apply Hf', Hfresh. by left.
        + exists p. split; [|done]. apply Hf', Hfresh. by right.
      - intros p [->|Hp]%Hf'%Hfresh x Hx; apply Hv'.
        + apply (post_roots _ _ _ _ _ _ _ Post). by apply elem_of_elements.
        + by eapply (post_closed _ _ _ _ _ _ _ Post).
      - rewrite (post_loop _ _ _ _ _ _ _ Post), Hhit. split.
        + intros [?|[?|(p & Hp & ?)]].
          * by left.
          * right. right. exists w. split; [|done]. apply Hf', Hfresh. by left.
          * right. right. exists p. split; [|done]. apply Hf', Hfresh. by right.
        + intros [?|[?|(p & [->|Hp]%Hf'%Hfresh & ?)]].
          * by left.
          * done.
          * right. by left.
          * right. right. by exists p.
      - rewrite Hstub, (post_stub _ _ _ _ _ _ _ Post). split.
        + intros [[?|(p & Hp & ?)]|[? ?]].
          * by left.
          * right. exists p. split; [|done]. apply Hf', Hfresh. by right.
          * right. exists w. split; [|done]. apply Hf', Hfresh. by left.
        + intros [?|(p & [->|Hp]%Hf'%Hfresh & ?)].
          * left. by left.
          * by right.
          * left. right. by exists p.
      - intros u Hu. apply (post_dom _ _ _ _ _ _ _ Post). unfold st1, mark. simpl.
        destruct (decide (u = w)) as [->|];
          [by rewrite lookup_insert_eq | by rewrite lookup_insert_ne].
      - intros u [Hu|?]%(post_dom' _ _ _ _ _ _ _ Post); [|right; by apply Hv'].
        revert Hu. unfold st1, mark. simpl. destruct (decide (u = w)) as [->|].
        + intros _. right. apply Hv'. by apply M2.
        + rewrite lookup_insert_ne by done. by left. }
    destruct st2 as [db2 loop2 stub2]. simpl in *.
    destruct (decide (kids w = ∅)) as [Hleaf|Hleaf].
    + destruct (dest_wires !! w) eqn:Hdest.
      * eexists. split; [done|]. apply Post'. naive_solver.
      * eexists. split; [done|]. apply Post'. naive_solver.
    + eexists. split; [done|]. apply Post'. naive_solver.
Qed.

End graph.
End Traversal.

Section Traversal2.
Context `{A : Arch}.

Section from_root.
Context (root : Z) (kids : Z → gset Z) (wire_universe : gset Z) (dest_wires : gmap Z nat).
Context (Hparent : ∀ u u' x, x ∈ kids u → x ∈ kids u' → u = u').
Context (Huniverse : ∀ u x, x ∈ kids u → x ∈ wire_universe).

(** The traversal from the root, started with nothing visited. *)
Lemma traversal_from_root fuel st0 :
  kids_ok kids st0 → (∀ x, ¬ vis st0 x) → root ∈ wire_universe →
  (size wire_universe < fuel)%nat →
  ∃ st', setOrderNum fuel dest_wires root 1 st0 = Some st'
    ∧ (∀ y, vis st' y ↔ rtc (kid kids) root y)
    ∧ (found_loop st' = true
       ↔ found_loop st0 = true ∨ ∃ p, rtc (kid kids) root p ∧ root ∈ kids p)
    ∧ (found_stub st' = true
       ↔ found_stub st0 = true
         ∨ ∃ p, rtc (kid kids) root p ∧ kids p = ∅ ∧ dest_wires !! p = None)
    ∧ (∀ u, is_Some (db st' !! u) ↔ is_Some (db st0 !! u) ∨ rtc (kid kids) root u).
Proof.
  intros Hk Hnone Hroot Hfuel.
  destruct (call_ok_all root kids wire_universe dest_wires Hparent Huniverse
              fuel root 1 st0) as (st' & Hrun & Post); [lia| |done| |].
  { split; [done | | by intros x ?%Hnone | apply NoDup_singleton |].
    - right. by intros x ->%list_elem_of_singleton.
    - by intros x ->%list_elem_of_singleton. }
  { unfold unvisited. eapply Nat.le_lt_trans; [|done].
    apply subseteq_size. set_solver. }
  exists st'. split; [done|].
  assert (Hfresh : ∀ y, fresh st0 st' y ↔ vis st' y).
  { intros y. split; [by intros [? _] | intros ?; split; [done | apply Hnone]]. }
  assert (Hreach : ∀ y, vis st' y ↔ rtc (kid kids) root y).
  { intros y. split.
    - intros Hy%Hfresh.
      by destruct (post_reach _ _ _ _ _ _ _ Post y Hy) as (x & ->%list_elem_of_singleton & ?).
    - revert y. apply rtc_ind_r.
      + apply (post_roots _ _ _ _ _ _ _ Post). left.
      + intros p y Hp Hpy IH.
        eapply (post_closed _ _ _ _ _ _ _ Post); [by apply Hfresh | done]. }
  split; [done|]. split; [|split].
  - rewrite (post_loop _ _ _ _ _ _ _ Post). split.
    + intros [?|[?%Hnone|(p & Hp%Hfresh%Hreach & ?)]]; [by left | done |].
      right. by exists p.
    + intros [?|(p & Hp%Hreach%Hfresh & ?)]; [by left|]. right. right. by exists p.
  - rewrite (post_stub _ _ _ _ _ _ _ Post). split.
    + intros [?|(p & Hp%Hfresh%Hreach & ?)]; [by left|]. right. by exists p.
    + intros [?|(p & Hp%Hreach%Hfresh & ?)]; [by left|]. right. by exists p.
  - intros u. split.
    + intros [?|?%Hreach]%(post_dom' _ _ _ _ _ _ _ Post); [by left | by right].
    + intros [?|Hu%Hreach].
      * by apply (post_dom _ _ _ _ _ _ _ Post).
      * unfold vis, db_at in Hu. destruct (db st' !! u); [by eexists|done].
Qed.

Lemma tc_last {T} (R : relation T) x y : tc R x y → ∃ z, rtc R x z ∧ R z y.
Proof.
  induction 1 as [x y Hxy|x x' y Hxx' _ (z & Hz & Hzy)].
  - exists x. split; [done|done].
  - exists z. split; [by eapply rtc_l|done].
Qed.

(** With at most one parent per wire, a cycle that can be reached from
    the root goes through the root. *)
Lemma cycle_through_root w :
  rtc (kid kids) root w → tc (kid kids) w w → tc (kid kids) root root.
Proof.
  intros Hw. induction Hw as [|a a' w Haa' _ IH]; [done|]. intros Hc.
  specialize (IH Hc). apply tc_last in IH as (z & Hz & Hza').
  assert (z = a) as -> by (by eapply Hparent).
  eapply tc_rtc_r; [by apply tc_once|done].
Qed.

Lemma loop_iff_cycle :
  (∃ p, rtc (kid kids) root p ∧ root ∈ kids p)
  ↔ ∃ w, rtc (kid kids) root w ∧ tc (kid kids) w w.
Proof.
  split.
  - intros (p & Hp & Hr). exists root. split; [done|].
    eapply tc_rtc_l; [done|]. by apply tc_once.
  - intros (w & Hw & Hc).
    destruct (tc_last _ _ _ (cycle_through_root w Hw Hc)) as (p & ? & ?). by exists p.
Qed.
End from_root.

Lemma dangling_wires_nil (m : gmap Z ExtraWireInfo) :
  dangling_wires m = [] ↔ ∀ u, is_Some (m !! u) → order_num (db_at m u) ≠ 0.
Proof.
  unfold dangling_wires. split.
  - intros Hnil u [e He] Hz. unfold db_at in Hz. rewrite He in Hz. simpl in Hz.
    apply fmap_nil_inv in Hnil.
    apply (filter_nil_not_elem_of _ _ (u, e)) in Hnil; [|done].
    apply Hnil. by apply elem_of_map_to_list.
  - intros Hall. rewrite filter_none; [done|].
    intros [u e] Hin%elem_of_map_to_list Hz. simpl in Hz.
    apply (Hall u); [by eexists|]. unfold db_at. by rewrite Hin.
Qed.

End Traversal2.

Section Validator.
Context `{A : Arch}.

Lemma build_db_spec c l m :
  match build_db c l m with
  | Ret m' =>
      pips_end_at_wire c l
      ∧ (∀ u x, x ∈ children (db_at m' u) ↔ x ∈ children (db_at m u) ∨ edge_in c l u x)
      ∧ (∀ u, order_num (db_at m' u) = order_num (db_at m u))
      ∧ (∀ u, is_Some (m' !! u) ↔ is_Some (m !! u) ∨ ∃ x, edge_in c l u x)
  | Throw e => e = log_execution_error_exception ∧ ¬ pips_end_at_wire c l
  | OutOfFuel => False
  end.
Proof.
  revert m. induction l as [|[w it] l IH]; intros m; simpl.
  - split; [by intros ? ? ?%elem_of_nil|]. split; [|split; [done|]].
    + intros u x. split; [by left|]. by intros [?|(? & ?%elem_of_nil & _)].
    + intros u. split; [by left|]. by intros [?|(? & ? & ?%elem_of_nil & _)].
  - destruct (decide (pip it ≠ PipId_none)) as [Hp|Hp].
    + destruct (decide (getPipDstWire c (pip it) = w)) as [Hd|Hd].
      * set (parent := getPipSrcWire c (pip it)).
        specialize (IH (<[parent := mk_ExtraWireInfo (order_num (db_at m parent))
                                      ({[w]} ∪ children (db_at m parent))]> m)).
        destruct (build_db c l _) as [m'|e|]; [|destruct IH as [-> IH]|done].
        -- destruct IH as (Hl & Hc & Ho & Hdom). split; [|split; [|split]].
           ++ intros w' it' [[= -> ->]|?]%elem_of_cons ?; [done | by eapply Hl].
           ++ intros u x. rewrite Hc, db_at_insert. unfold edge_in.
              setoid_rewrite elem_of_cons. case_decide as Hu; simpl.
              ** subst u. rewrite elem_of_union, elem_of_singleton. split.
                 --- intros [[->|?]|(it' & ? & ? & ?)]; [right; exists it; eauto
                       | by left | right; exists it'; eauto].
                 --- intros [?|(it' & [[= -> ->]|?] & ? & ?)];
                       [left; by right | left; by left | right; exists it'; eauto].
              ** split.
                 --- intros [?|(it' & ? & ? & ?)]; [by left | right; exists it'; eauto].
                 --- intros [?|(it' & [[= -> ->]|?] & ? & ?)];
                       [by left | done | right; exists it'; eauto].
           ++ intros u. rewrite Ho, db_at_insert. by case_decide; subst.
           ++ intros u. rewrite Hdom. unfold edge_in. setoid_rewrite elem_of_cons.
              destruct (decide (u = parent)) as [->|Hu].
              ** rewrite lookup_insert_eq. split.
                 --- intros _. right. exists w, it. eauto.
                 --- intros _. left. by eexists.
              ** rewrite lookup_insert_ne by done. split.
                 --- intros [?|(x & it' & ? & ? & ?)]; [by left | right; exists x, it'; eauto].
                 --- intros [?|(x & it' & [[= -> ->]|?] & ? & ?)];
                       [by left | done | right; exists x, it'; eauto].
        -- split; [done|]. intros Hl. apply IH. intros w' it' ? ?. apply Hl; [by right|done].
      * split; [done|]. intros Hl. apply Hd, Hl; [left|done].
    + specialize (IH m). destruct (build_db c l m) as [m'|e|]; [|destruct IH as [-> IH]|done].
      * destruct IH as (Hl & Hc & Ho & Hdom). split; [|split; [|split; [done|]]].
        -- intros w' it' [[= -> ->]|?]%elem_of_cons ?; [done | by eapply Hl].
        -- intros u x. rewrite Hc. unfold edge_in. setoid_rewrite elem_of_cons. split.
           ++ intros [?|(it' & ? & ? & ?)]; [by left | right; exists it'; eauto].
           ++ intros [?|(it' & [[= -> ->]|?] & ? & ?)];
                [by left | done | right; exists it'; eauto].
        -- intros u. rewrite Hdom. unfold edge_in. setoid_rewrite elem_of_cons. split.
           ++ intros [?|(x & it' & ? & ? & ?)]; [by left | right; exists x, it'; eauto].
           ++ intros [?|(x & it' & [[= -> ->]|?] & ? & ?)];
                [by left | done | right; exists x, it'; eauto].
      * split; [done|]. intros Hl. apply IH. intros w' it' ? ?. apply Hl; [by right|done].
Qed.

Lemma collect_dest_wires_spec c net ws us i acc :
  match collect_dest_wires c net ws us i acc with
  | Ret (dest_wires, found_unrouted) =>
      (∀ u, u ∈ us → getNetinfoSinkWire c net u ≠ WireId_none)
      ∧ (∀ w, is_Some (dest_wires !! w)
              ↔ is_Some (acc.1 !! w) ∨ ∃ u, u ∈ us ∧ getNetinfoSinkWire c net u = w)
      ∧ (found_unrouted = true
         ↔ acc.2 = true ∨ ∃ u, u ∈ us ∧ ws !! getNetinfoSinkWire c net u = None)
  | Throw e => e = log_execution_error_exception
               ∧ ¬ (∀ u, u ∈ us → getNetinfoSinkWire c net u ≠ WireId_none)
  | OutOfFuel => False
  end.
Proof.
  revert i acc. induction us as [|u us IH]; intros i [dw fu]; simpl.
  - split; [by intros ? ?%elem_of_nil|]. split.
    + intros w. split; [by left|]. by intros [?|(? & ?%elem_of_nil & _)].
    + split; [by left|]. by intros [?|(? & ?%elem_of_nil & _)].
  - destruct (decide (getNetinfoSinkWire c net u = WireId_none)) as [Hn|Hn].
    { split; [done|]. intros Hall. by apply (Hall u); [left|]. }
    match goal with |- context [collect_dest_wires c net ws us ?j ?a] =>
      specialize (IH j a) end.
    destruct (collect_dest_wires c net ws us _ _) as [[dw' fu']|e|];
      [|destruct IH as [-> IH]|done]; simpl in *.
    + destruct IH as (Hall & Hdw & Hfu). split; [|split].
      * by intros u' [->|?]%elem_of_cons; [|apply Hall].
      * intros w. rewrite Hdw. setoid_rewrite elem_of_cons.
        destruct (decide (getNetinfoSinkWire c net u = w)) as [<-|Hw].
        -- rewrite lookup_insert_eq. split; [|intros _; left; by eexists].
           intros _. right. exists u. eauto.
        -- rewrite lookup_insert_ne by done. split.
           ++ intros [?|(u' & ? & ?)]; [by left | right; exists u'; eauto].
           ++ intros [?|(u' & [->|?] & ?)]; [by left | done | right; exists u'; eauto].
      * rewrite Hfu. setoid_rewrite elem_of_cons.
        destruct (ws !! getNetinfoSinkWire c net u) eqn:Hlk.
        -- split.
           ++ intros [?|(u' & ? & ?)]; [by left | right; exists u'; eauto].
           ++ intros [?|(u' & [->|?] & Hu')]; [by left | congruence | right; exists u'; eauto].
        -- split; [|by left]. intros _. right. exists u. eauto.
    + split; [done|]. intros Hall. apply IH. intros u' ?. apply Hall. by right.
Qed.

End Validator.

Section Validator2.
Context `{A : Arch}.

Lemma edge_in_child c net u x :
  edge_in c (map_to_list (wires (deref c net))) u x ↔ child c net u x.
Proof.
  unfold edge_in, child. by setoid_rewrite elem_of_map_to_list.
Qed.

Lemma tc_subrel {T} (R1 R2 : relation T) x y :
  (∀ x y, R1 x y → R2 x y) → tc R1 x y → tc R2 x y.
Proof. intros HR. induction 1; [by apply tc_once, HR | eapply tc_l; [by apply HR|done]]. Qed.

Lemma child_parent c net u u' x : child c net u x → child c net u' x → u = u'.
Proof. intros (it & H1 & _ & <-) (it' & H2 & _ & <-). congruence. Qed.

Lemma child_bound c net u x : child c net u x → x ∈ dom (wires (deref c net)).
Proof. intros (it & H1 & _). apply elem_of_dom. by eexists. Qed.

Lemma checkRoutedDesign_net_spec fuel c net :
  (size (wires (deref c net)) + 2 ≤ fuel)%nat →
  match checkRoutedDesign_net fuel c net with
  | Ret b => net_asserts c net ∧ (b = true ↔ net_valid c net)
  | Throw e => e = log_execution_error_exception ∧ ¬ net_asserts c net
  | OutOfFuel => False
  end.
Proof.
  intros Hfuel. unfold checkRoutedDesign_net, net_asserts, net_valid.
  destruct (users (deref c net)) as [|p l] eqn:Hu.
  { case_decide; [|done]. split; [done|]. split; [done|]. done. }
  rewrite <- Hu.
  assert (Hne : users (deref c net) ≠ []) by (by rewrite Hu).
  clear p l Hu.
  pose proof (build_db_spec c (map_to_list (wires (deref c net))) ∅) as Hdb.
  destruct (build_db c _ ∅) as [db0|e|]; [|destruct Hdb as [-> Hdb]|done].
  2:{ split; [done|]. intros (Hp & _). apply Hdb. intros w it ?%elem_of_map_to_list ?.
      by eapply Hp. }
  destruct Hdb as (Hp & Hkids & Horder & Hdom).
  assert (Hp' : ∀ w it, wires (deref c net) !! w = Some it → pip it ≠ PipId_none →
                        getPipDstWire c (pip it) = w).
  { intros w it ?%elem_of_map_to_list ?. by eapply Hp. }
  clear Hp.
  case_decide as Hsrc; [split; [done|]; by intros (_ & ? & _)|].
  pose proof (collect_dest_wires_spec c net (wires (deref c net)) (users (deref c net)) 0
    (∅, match wires (deref c net) !! getNetinfoSourceWire c net with
        | None => true | Some _ => false end)) as Hcol.
  destruct (collect_dest_wires _ _ _ _ _ _) as [[dest_wires fu]|e|];
    [|destruct Hcol as [-> Hcol]|done].
  2:{ split; [done|]. by intros (_ & _ & ?). }
  destruct Hcol as (Hsinks & Hdest & Hfu). simpl in Hdest, Hfu.
  set (src := getNetinfoSourceWire c net) in *.
  set (kids := λ u, children (db_at db0 u)).
  assert (Hkid : ∀ u x, kid kids u x ↔ child c net u x).
  { intros u x. unfold kid, kids. rewrite Hkids, edge_in_child.
    unfold db_at. rewrite lookup_empty. simpl. set_solver. }
  assert (Hrtc : ∀ y, rtc (kid kids) src y ↔ reached c net y).
  { intros y. unfold reached. fold src. split; apply rtc_subrel; intros ? ?; by apply Hkid. }
  assert (Htc : ∀ y, tc (kid kids) y y ↔ tc (child c net) y y).
  { intros y. split; apply tc_subrel; intros ? ?; by apply Hkid. }
  destruct (traversal_from_root src kids ({[src]} ∪ dom (wires (deref c net))) dest_wires)
    with (fuel := fuel) (st0 := mk_walk_state db0 false false)
    as (st' & -> & Hvis & Hloop & Hstub & Hdom').
  { intros u u' x ?%Hkid ?%Hkid. by eapply child_parent. }
  { intros u x ?%Hkid%child_bound. set_solver. }
  { by intros u. }
  { intros x. unfold vis. simpl. rewrite Horder. unfold db_at. rewrite lookup_empty.
    simpl. by intros ?. }
  { set_solver. }
  { rewrite size_union_alt, size_singleton.
    assert (size (dom (wires (deref c net)) ∖ {[src]}) ≤ size (wires (deref c net)))%nat.
    { rewrite <- size_dom. apply subseteq_size. set_solver. }
    lia. }
  simpl in Hloop, Hstub, Hdom'.
  split; [done|].
  assert (E1 : fu = false
               ↔ is_Some (wires (deref c net) !! src)
                 ∧ ∀ u, u ∈ users (deref c net)
                        → is_Some (wires (deref c net) !! getNetinfoSinkWire c net u)).
  { rewrite <- not_true_iff_false, Hfu. split.
    - intros Hno. split.
      + destruct (wires (deref c net) !! src); [by eexists|]. destruct Hno. by left.
      + intros u Hin. destruct (wires (deref c net) !! getNetinfoSinkWire c net u) eqn:E;
          [by eexists|]. destruct Hno. right. by exists u.
    - intros [[it Hs] Hall] [Hc|(u & Hin & Hnone)].
      + by rewrite Hs in Hc.
      + destruct (Hall u Hin) as [? ?]. congruence. }
  assert (E3 : found_loop st' = false ↔ ¬ (∃ w, reached c net w ∧ tc (child c net) w w)).
  { rewrite <- not_true_iff_false, Hloop.
    assert (Hcyc := loop_iff_cycle src kids).
    destruct Hcyc as [Hc1 Hc2]; [intros u u' x ?%Hkid ?%Hkid; by eapply child_parent|].
    split.
    - intros Hno (w & ?%Hrtc & ?%Htc). apply Hno. right. apply Hc2. by exists w.
    - intros Hno [?|(w & ?%Hrtc & ?%Htc)%Hc1]; [done|]. apply Hno. by exists w. }
  assert (E4 : found_stub st' = false
               ↔ ∀ w, reached c net w → (∀ x, ¬ child c net w x)
                      → ∃ u, u ∈ users (deref c net) ∧ getNetinfoSinkWire c net u = w).
  { rewrite <- not_true_iff_false, Hstub. split.
    - intros Hno w Hw Hleaf. destruct (dest_wires !! w) eqn:E.
      + destruct (proj1 (Hdest w)) as [[? Hc]|?]; [by eexists| |done].
        by rewrite lookup_empty in Hc.
      + destruct Hno. right. exists w. split; [by apply Hrtc|]. split; [|done].
        apply set_eq. intros x. split; [|set_solver]. by intros ?%Hkid%Hleaf.
    - intros Hall [?|(w & Hw%Hrtc & Hk & Hd)]; [done|].
      destruct (Hall w Hw) as (u & Hin & Hsink).
      + intros x Hx%Hkid. unfold kid in Hx. rewrite Hk in Hx. set_solver.
      + assert (is_Some (dest_wires !! w)) as [? ?]; [|congruence].
        apply Hdest. right. by exists u. }
  assert (E5 : dangling_wires (db st') = [] ↔ ∀ u x, child c net u x → reached c net u).
  { rewrite dangling_wires_nil. split.
    - intros Hall u x Hux. apply Hrtc, Hvis. apply Hall, Hdom'. left.
      apply Hdom. right. exists x. by apply edge_in_child.
    - intros Hall u [Hu|Hu]%Hdom'; [|by apply Hvis].
      apply Hdom in Hu as [[? Hc]|(x & Hx%edge_in_child)];
        [by rewrite lookup_empty in Hc|].
      apply Hvis, Hrtc. by eapply Hall. }
  rewrite negb_true_iff, !orb_false_iff, negb_false_iff, bool_decide_eq_true.
  rewrite E1, E3, E4, E5. split; [naive_solver|].
  intros H. specialize (H Hne). naive_solver.
Qed.

Lemma checkRoutedDesign_nets_spec fuel c l :
  (∀ net, net ∈ l → (size (wires (deref c net)) + 2 ≤ fuel)%nat) →
  (checkRoutedDesign_nets fuel c l = Ret true
   ↔ ∀ net, net ∈ l → net_asserts c net ∧ net_valid c net)
  ∧ checkRoutedDesign_nets fuel c l ≠ OutOfFuel.
Proof.
  induction l as [|net l IH]; intros Hfuel; simpl.
  { split; [|done]. split; [by intros _ ? ?%elem_of_nil | done]. }
  destruct IH as [IH IH']; [intros ? ?; apply Hfuel; by right|].
  pose proof (checkRoutedDesign_net_spec fuel c net (Hfuel net ltac:(left))) as Hnet.
  destruct (checkRoutedDesign_net fuel c net) as [[|]|e|]; [| | |done].
  - destruct Hnet as [Ha Hv]. split; [|done]. rewrite IH. split.
    + intros Hall net' [->|?]%elem_of_cons; [|by apply Hall].
      split; [done | by apply Hv].
    + intros Hall net' ?. apply Hall. by right.
  - destruct Hnet as [Ha Hv]. split; [|done]. split; [done|].
    intros Hall. destruct (Hall net) as [_ ?%Hv]; [left|done].
  - destruct Hnet as [-> Hna]. split; [|done]. split; [done|].
    intros Hall. destruct (Hall net) as [? _]; [left|done].
Qed.

(** C5, amended: with fuel for the depth of every net,
    [checkRoutedDesign] returns true if and only if every net passes the
    assertions of the validator and, when it has a user, has its source wire
    and every sink wire bound, no cycle that can be reached from the source
    wire, a sink on every leaf reached, and every wire that is the source of
    a stored pip reached from the source wire. *)
Theorem checkRoutedDesign_accepts fuel c :
  (∀ net, net ∈ nets c → (size (wires (deref c net)) + 2 ≤ fuel)%nat) →
  (checkRoutedDesign fuel c = Ret true
   ↔ ∀ net, net ∈ nets c → net_asserts c net ∧ net_valid c net)
  ∧ checkRoutedDesign fuel c ≠ OutOfFuel.
Proof. apply checkRoutedDesign_nets_spec. Qed.
End Validator2.

Section Comparators.
Context `{A : Arch}.

Lemma arc_entry_Greater_strict_weak_order : strict_weak_order arc_entry_Greater.
Proof.
  unfold strict_weak_order, arc_entry_Greater. split; [|split].
  - intros x. case_bool_decide; [lia|done].
  - intros x y z. repeat case_bool_decide; try done; lia.
  - intros x y z. repeat case_bool_decide; try done; lia.
Qed.

Lemma QueuedWire_Greater_spec lhs rhs :
  QueuedWire_Greater lhs rhs = true
  ↔ qw_cost lhs > qw_cost rhs
    ∨ (qw_cost lhs = qw_cost rhs ∧ qw_randtag lhs > qw_randtag rhs).
Proof.
  unfold QueuedWire_Greater, qw_cost. cbv zeta.
  repeat case_bool_decide; split; try done; intros; try lia.
Qed.

Lemma QueuedWire_Greater_strict_weak_order : strict_weak_order QueuedWire_Greater.
Proof.
  split; [|split].
  - intros x. apply not_true_iff_false. rewrite QueuedWire_Greater_spec. lia.
  - intros x y z. rewrite !QueuedWire_Greater_spec. lia.
  - intros x y z. rewrite <- !not_true_iff_false, !QueuedWire_Greater_spec. lia.
Qed.

(** X1: both comparators are strict weak orderings, as
    [std::priority_queue] requires of its comparator: [arc_entry::Greater]
    and [QueuedWire::Greater] are irreflexive and transitive, and so is
    "neither is greater than the other". *)
Theorem comparators_are_strict_weak_orders :
  strict_weak_order arc_entry_Greater ∧ strict_weak_order QueuedWire_Greater.
Proof.
  split; [apply arc_entry_Greater_strict_weak_order
         | apply QueuedWire_Greater_strict_weak_order].
Qed.

Lemma pq_extract_top {T} (comp : T → T → bool) best q y :
  strict_weak_order comp →
  y ∈ best :: q → comp (pq_extract comp best q).1 y = false.
Proof.
  intros (Hirr & Htr & Hneg). revert best y.
  induction q as [|x q IH]; intros best y Hy; simpl.
  - apply list_elem_of_singleton in Hy as ->. apply Hirr.
  - destruct (comp best x) eqn:Hc.
    + pose proof (IH x) as IHx. destruct (pq_extract comp x q) as [b r]. simpl in *.
      apply elem_of_cons in Hy as [->|Hy]; [|by apply IHx].
      destruct (comp b best) eqn:Hb; [|done].
      rewrite <- (IHx x ltac:(left)). symmetry. by eapply Htr.
    + pose proof (IH best) as IHb. destruct (pq_extract comp best q) as [b r]. simpl in *.
      apply elem_of_cons in Hy as [->|[->|Hy]%elem_of_cons].
      * apply IHb. left.
      * eapply Hneg; [apply IHb; left | done].
      * apply IHb. by right.
Qed.

Lemma pq_top_elem {T} (comp : T → T → bool) q t :
  pq_top comp q = Some t → t ∈ q.
Proof. intros Ht. rewrite (pq_top_pop_perm _ _ _ Ht). left. Qed.

(** X2: the wire that [queue.top()] yields in the A* search is a queued
    wire of least cost [delay + penalty + togo - bonus]; against a queued
    wire of the same cost its [randtag] is not the larger. *)
Theorem wire_queue_top_is_cheapest q t :
  pq_top QueuedWire_Greater q = Some t →
  t ∈ q
  ∧ ∀ x, x ∈ q →
      qw_cost t < qw_cost x
      ∨ (qw_cost t = qw_cost x ∧ qw_randtag t ≤ qw_randtag x).
Proof.
  intros Ht. split; [by eapply pq_top_elem|]. intros x Hx.
  destruct q as [|x0 q]; [done|]. simpl in Ht. injection Ht as <-.
  pose proof (pq_extract_top QueuedWire_Greater x0 q x
                QueuedWire_Greater_strict_weak_order Hx) as Hc.
  apply not_true_iff_false in Hc. rewrite QueuedWire_Greater_spec in Hc. lia.
Qed.

Lemma arc_queue_pop_queue s a s' :
  arc_queue_pop s = (Ret a, s') →
  ∃ e, pq_top arc_entry_Greater (arc_queue s) = Some e ∧ arc e = a
       ∧ arc_queue s' = pq_pop arc_entry_Greater (arc_queue s)
       ∧ queued_arcs s' = queued_arcs s ∖ {[a]}.
Proof.
  unfold arc_queue_pop. intros Hrun.
  apply bind_Ret in Hrun as (? & ? & [-> ->]%get_Ret & Hrun).
  destruct (pq_top arc_entry_Greater (arc_queue s)) as [e|] eqn:Htop; [|done].
  apply bind_Ret in Hrun as ([] & s1 & ->%modify_Ret & Hrun).
  apply bind_Ret in Hrun as ([] & s2 & ->%modify_Ret & Hrun).
  apply mret_Ret in Hrun as [-> ->]. by exists e.
Qed.

(** X3: two successive calls of [arc_queue_pop] that return take two
    entries out of the queue, and the priority of the first is not above
    the priority of the second; the other entries stay. *)
Theorem successive_pops_rise s a1 s1 a2 s2 :
  arc_queue_pop s = (Ret a1, s1) →
  arc_queue_pop s1 = (Ret a2, s2) →
  ∃ e1 e2, e1 ∈ arc_queue s ∧ e2 ∈ arc_queue s
           ∧ arc e1 = a1 ∧ arc e2 = a2 ∧ pri e1 ≤ pri e2
           ∧ arc_queue s ≡ₚ e1 :: e2 :: arc_queue s2.
Proof.
  intros (e1 & Ht1 & <- & Hq1 & _)%arc_queue_pop_queue
         (e2 & Ht2 & <- & Hq2 & _)%arc_queue_pop_queue.
  pose proof (pq_top_pop_perm _ _ _ Ht1) as P1.
  pose proof (pq_top_pop_perm _ _ _ Ht2) as P2.
  rewrite <- Hq1 in P1. rewrite <- Hq2 in P2.
  assert (He2 : e2 ∈ arc_queue s).
  { rewrite P1. right. rewrite P2. left. }
  exists e1, e2. split; [by eapply pq_top_elem|]. split; [done|].
  split; [done|]. split; [done|]. split; [by eapply pq_top_least|].
  by rewrite P1, P2.
Qed.

Lemma arc_queue_insert3_run a src_wire dst_wire u s :
  a ∉ queued_arcs s →
  users (deref (ctx s) (net_info a)) !! user_idx a = Some u →
  arc_queue_insert3 a src_wire dst_wire s
  = (Ret tt,
     set_queued_arcs ({[a]} ∪ queued_arcs s)
       (set_arc_queue
          (pq_push (mk_arc_entry a (estimateDelay (ctx s) src_wire dst_wire - budget u))
                   (arc_queue s)) s)).
Proof.
  intros Hnot Hu. unfold arc_queue_insert3. rewrite bind_unfold. simpl.
  rewrite decide_False by done. by rewrite Hu.
Qed.

Lemma arc_queue_insert_run a u s :
  a ∉ queued_arcs s →
  users (deref (ctx s) (net_info a)) !! user_idx a = Some u →
  arc_queue_insert a s
  = arc_queue_insert3 a (getNetinfoSourceWire (ctx s) (net_info a))
                      (getNetinfoSinkWire (ctx s) (net_info a) u) s.
Proof.
  intros Hnot Hu. unfold arc_queue_insert. rewrite bind_unfold. simpl.
  rewrite decide_False by done. by rewrite Hu.
Qed.

Lemma arc_queue_pop_run e s :
  pq_top arc_entry_Greater (arc_queue s) = Some e →
  arc_queue_pop s
  = (Ret (arc e),
     set_queued_arcs (queued_arcs s ∖ {[arc e]})
       (set_arc_queue (pq_pop arc_entry_Greater (arc_queue s)) s)).
Proof.
  intros Ht. unfold arc_queue_pop. rewrite bind_unfold. simpl. by rewrite Ht.
Qed.

(** X4: on a router whose queue is empty, [arc_queue_insert(arc)]
    followed by [arc_queue_pop()] returns [arc] and leaves the router as
    it was, provided [arc] names a user of its net. *)
Theorem insert_then_pop_on_empty_queue a u s :
  arc_queue s = [] → queued_arcs s = ∅ →
  users (deref (ctx s) (net_info a)) !! user_idx a = Some u →
  (arc_queue_insert a ≫= λ _, arc_queue_pop) s = (Ret a, s).
Proof.
  intros Hq Hs Hu. rewrite bind_unfold.
  rewrite (arc_queue_insert_run a u), (arc_queue_insert3_run a _ _ u);
    [|by rewrite Hs|done|by rewrite Hs|done].
  rewrite Hq, Hs. simpl.
  set (e := mk_arc_entry a _).
  rewrite (arc_queue_pop_run e); [|done]. simpl.
  destruct s as [c q wa aw qa v wq ws ns n1 n2 fl tr]. simpl in *. subst q qa.
  unfold set_queued_arcs, set_arc_queue. simpl. do 2 f_equal.
  set_solver.
Qed.

End Comparators.

Section Steps.
Context `{A : Arch}.

Lemma stored_pip_bound (m : gmap Z PipMap) w p : stored_pip m w = Some p → is_Some (m !! w).
Proof. unfold stored_pip. destruct (m !! w); [by eexists | done]. Qed.

Lemma pip_reuse_iff (m : gmap Z PipMap) w p :
  bool_decide (is_Some (m !! w)) && bool_decide (stored_pip m w = Some p) = true
  ↔ stored_pip m w = Some p.
Proof.
  rewrite andb_true_iff, !bool_decide_eq_true. split; [by intros [_ ?]|].
  intros H. split; [by eapply stored_pip_bound | done].
Qed.

Lemma find_conflicts_without_ripup c wire_reuse pip_reuse next_wire pip :
  find_conflicts c false wire_reuse pip_reuse next_wire pip
  = if (checkWireAvail c next_wire || wire_reuse) && (checkPipAvail c pip || pip_reuse)
    then Some no_conflicts else None.
Proof.
  unfold find_conflicts, wire_side_conflict, pip_side_conflict.
  destruct (checkWireAvail c next_wire), wire_reuse, (checkPipAvail c pip), pip_reuse; done.
Qed.

Lemma dedup_no_conflicts c : dedup_conflicts c no_conflicts = no_conflicts.
Proof. reflexivity. Qed.

Lemma step_penalty_no_conflicts cfg s p : step_penalty cfg s no_conflicts p = p.
Proof.
  rewrite step_penalty_cost. unfold wire_ripup_cost, net_ripup_cost, no_conflicts. simpl.
  lia.
Qed.

(** X5: with [ripup] off, a step of the search along a pip passes the
    conflict tests (it is not dropped for an unavailable wire or pip)
    exactly when the wire the pip leads to is available or bound to the net
    being routed, and the pip is available or is the pip by which the net
    drives that wire; the candidate then has the penalty of the wire the
    step leaves, nothing added.  Whether the candidate is pushed is for
    the score tests that follow, which this does not speak of. *)
Theorem step_without_ripup cfg s net qw pip :
  (is_Some (step_candidate cfg s net false qw pip)
   ↔ wire_usable (ctx s) net (getPipDstWire (ctx s) pip) ∧ pip_usable (ctx s) net pip)
  ∧ ∀ next_wire next_delay next_penalty next_bonus,
      step_candidate cfg s net false qw pip
        = Some (next_wire, next_delay, next_penalty, next_bonus) →
      next_penalty = qw_penalty qw.
Proof.
  unfold step_candidate. cbv zeta. rewrite find_conflicts_without_ripup.
  set (w := getPipDstWire (ctx s) pip).
  set (m := wires (deref (ctx s) net)).
  destruct ((checkWireAvail (ctx s) w || bool_decide (is_Some (m !! w)))
            && (checkPipAvail (ctx s) pip
                || bool_decide (is_Some (m !! w)) && bool_decide (stored_pip m w = Some pip)))
    eqn:E.
  - apply andb_true_iff in E as [E1 E2].
    apply orb_true_iff in E1. apply orb_true_iff in E2.
    rewrite bool_decide_eq_true in E1. rewrite pip_reuse_iff in E2.
    split; [split; [done | by eexists]|].
    intros ? ? ? ? [= _ _ <- _]. rewrite dedup_no_conflicts. apply step_penalty_no_conflicts.
  - split; [|done]. split; [by intros [? ?]|]. intros [H1 H2].
    apply not_true_iff_false in E. destruct E. apply andb_true_iff.
    rewrite !orb_true_iff, bool_decide_eq_true, pip_reuse_iff. done.
Qed.

(** X6: after the deduplication of the conflicts of a step, nothing is
    charged twice: the two conflicting wires differ, the two conflicting
    nets differ, and a conflicting wire that remains is not bound to a
    conflicting net of the other side. *)
Theorem dedup_charges_nothing_twice c k :
  let k' := dedup_conflicts c k in
  (conflictWireWire k' ≠ WireId_none → conflictWireWire k' ≠ conflictPipWire k')
  ∧ (conflictWireNet k' ≠ None → conflictWireNet k' ≠ conflictPipNet k')
  ∧ (∀ n, conflictWireNet k' = Some n → conflictPipWire k' ≠ WireId_none →
          wires (deref c n) !! conflictPipWire k' = None)
  ∧ (∀ n, conflictPipNet k' = Some n → conflictWireWire k' ≠ WireId_none →
          wires (deref c n) !! conflictWireWire k' = None).
Proof.
  destruct k as [cww cpw cwn cpn]. unfold dedup_conflicts. simpl.
  assert (Hhas : ∀ n w, net_has_wire c n w = false →
                        ∀ n', n = Some n' → w ≠ WireId_none → wires (deref c n') !! w = None).
  { intros n w Hf n' -> Hw. unfold net_has_wire in Hf.
    apply andb_false_iff in Hf as [Hf|Hf]; apply bool_decide_eq_false in Hf.
    - by destruct Hf.
    - destruct (wires (deref c n') !! w); [destruct Hf; by eexists | done]. }
  split; [|split; [|split]].
  - case_decide; [done|]. done.
  - case_decide; [done|]. done.
  - intros n Hn Hw. destruct (decide (cwn = cpn)) as [->|Hne]; [done|].
    destruct (net_has_wire c cwn cpw) eqn:E; [done|]. by eapply Hhas.
  - intros n Hn Hw. destruct (net_has_wire c cpn cww) eqn:E.
    + destruct Hw. by case_decide.
    + case_decide; [done|]. by eapply Hhas.
Qed.

(** X7: a step along the pip by which the net already drives the wire
    passes the conflict tests with [ripup] on or off; the candidate has
    the penalty of the wire the step leaves, nothing added, and its bonus
    plus [wireReuseBonus + pipReuseBonus].  Whether the candidate is
    pushed is for the score tests that follow, which this does not speak
    of. *)
Theorem reused_pip_is_free_and_rewarded cfg s net ripup qw pip :
  stored_pip (wires (deref (ctx s) net)) (getPipDstWire (ctx s) pip) = Some pip →
  step_candidate cfg s net ripup qw pip
  = Some (getPipDstWire (ctx s) pip,
          qw_delay qw + getPipDelay_maxDelay (ctx s) pip
            + getWireDelay_maxDelay (ctx s) (getPipDstWire (ctx s) pip),
          qw_penalty qw,
          qw_bonus qw + wireReuseBonus cfg + pipReuseBonus cfg).
Proof.
  intros Hp. unfold step_candidate. cbv zeta.
  rewrite bool_decide_eq_true_2 by (by eapply stored_pip_bound).
  rewrite bool_decide_eq_true_2 by done. simpl.
  unfold find_conflicts, wire_side_conflict, pip_side_conflict.
  rewrite !andb_false_r. fold no_conflicts.
  by rewrite dedup_no_conflicts, step_penalty_no_conflicts.
Qed.

End Steps.

Section RipUp.
Context `{A : Arch}.

Lemma queue_grows_refl s : queue_grows s s.
Proof. by repeat split. Qed.

Lemma queue_grows_trans s1 s2 s3 : queue_grows s1 s2 → queue_grows s2 s3 → queue_grows s1 s3.
Proof.
  intros (T1 & F1 & C1 & D1 & Q1) (T2 & F2 & C2 & D2 & Q2).
  repeat split; [congruence | congruence | congruence | congruence | set_solver].
Qed.

Lemma arc_queue_insert3_queues a sw dw s x s' :
  arc_queue_insert3 a sw dw s = (Ret x, s') → a ∈ queued_arcs s' ∧ queue_grows s s'.
Proof.
  unfold arc_queue_insert3. intros Hrun.
  apply bind_Ret in Hrun as (? & ? & [-> ->]%get_Ret & Hrun).
  destruct (decide (a ∈ queued_arcs s)) as [Hin|Hin].
  - apply mret_Ret in Hrun as [_ ->]. split; [done | apply queue_grows_refl].
  - destruct (users (deref (ctx s) (net_info a)) !! user_idx a); [|done].
    apply bind_Ret in Hrun as ([] & s1 & ->%modify_Ret & ->%modify_Ret).
    simpl. split; [set_solver|]. repeat split; simpl; try done; set_solver.
Qed.

Lemma arc_queue_insert_queues a s x s' :
  arc_queue_insert a s = (Ret x, s') → a ∈ queued_arcs s' ∧ queue_grows s s'.
Proof.
  unfold arc_queue_insert. intros Hrun.
  apply bind_Ret in Hrun as (? & ? & [-> ->]%get_Ret & Hrun).
  destruct (decide (a ∈ queued_arcs s)) as [Hin|Hin].
  - apply mret_Ret in Hrun as [_ ->]. split; [done | apply queue_grows_refl].
  - destruct (users (deref (ctx s) (net_info a)) !! user_idx a); [|done].
    by eapply arc_queue_insert3_queues.
Qed.

Lemma ripup_arcs_loop_queues w (l : list arc_key) s x s' :
  for_each l (λ it,
    modify (λ s, set_arc_to_wires
                   (<[it := wires_of (arc_to_wires s) it ∖ {[w]}]> (arc_to_wires s)) s);;
    arc_queue_insert it) s = (Ret x, s') →
  queue_grows s s' ∧ ∀ a, a ∈ l → a ∈ queued_arcs s'.
Proof.
  revert s. induction l as [|it l IH]; intros s Hrun; simpl in Hrun.
  - apply mret_Ret in Hrun as [_ ->]. split; [apply queue_grows_refl|].
    by intros a ?%elem_of_nil.
  - apply bind_Ret in Hrun as ([] & s1 & H1 & Hrun).
    apply bind_Ret in H1 as ([] & s0 & ->%modify_Ret & H1).
    apply arc_queue_insert_queues in H1 as [Hin G1].
    destruct (IH _ Hrun) as [G2 Hall]. split.
    + eapply queue_grows_trans; [|done]. destruct G1 as (? & ? & ? & ? & ?). by repeat split.
    + intros a [->|?]%elem_of_cons; [|by apply Hall]. destruct G2 as (_ & _ & _ & _ & Hsub).
      by apply Hsub.
Qed.

(** What the rip-up block does besides the index and the score: the arcs
    of [w] are queued, the one call is [unbindWire(w)]. *)
Lemma ripup_one_wire_queues w s x s' :
  ripup_one_wire w s = (Ret x, s') →
  trace s' = trace s ++ [EvUnbindWire w]
  ∧ ripup_flag s' = ripup_flag s
  ∧ queued_arcs s ⊆ queued_arcs s'
  ∧ (∀ a, a ∈ arcs_of (wire_to_arcs s) w → a ∈ queued_arcs s')
  ∧ arcs_with_ripup s' = arcs_with_ripup s
  ∧ arcs_without_ripup s' = arcs_without_ripup s.
Proof.
  unfold ripup_one_wire. intros Hrun.
  apply bind_Ret in Hrun as ([] & s1 & H1 & Hrun).
  pose proof (neutral_touch_wire _ _ _ _ H1) as ([T1 _] & _).
  unfold touch_wire in H1. apply modify_Ret in H1.
  apply bind_Ret in Hrun as (? & ? & [-> ->]%get_Ret & Hrun).
  apply bind_Ret in Hrun as ([] & s2 & H2 & Hrun).
  apply ripup_arcs_loop_queues in H2 as [(G1 & G2 & G4 & G5 & G3) Hall].
  apply bind_Ret in Hrun as ([] & s3 & ->%modify_Ret & Hrun).
  apply bind_Ret in Hrun as ([] & s4 & H4 & ->%modify_Ret).
  apply call_unbindWire_Ret in H4 as (c & _ & ->). simpl.
  subst s1. simpl in *. rewrite G1. split; [done|]. split; [done|]. split; [done|].
  split; [|done]. intros a Ha. apply Hall, elem_of_elements. by rewrite T1.
Qed.

(** X8: when the architecture names a conflicting wire [w],
    [ripup_wire(wire)] and [ripup_pip(pip)] that return have detached every
    arc from [w] and queued each of them, have left the arcs of the other
    wires in place, have made the one call [unbindWire(w)], and have set
    [ripup_flag]; with a consistent index before, no arc holds [w]
    afterwards. *)
Theorem ripup_wire_detaches_the_wire :
  (∀ wire s s',
     ripup_wire wire s = (Ret tt, s') →
     getConflictingWireWire (ctx s) wire ≠ WireId_none →
     index_inv s →
     let w := getConflictingWireWire (ctx s) wire in
     arcs_of (wire_to_arcs s') w = ∅
     ∧ (∀ a, w ∉ wires_of (arc_to_wires s') a)
     ∧ (∀ a, a ∈ arcs_of (wire_to_arcs s) w → a ∈ queued_arcs s')
     ∧ (∀ w', w' ≠ w → arcs_of (wire_to_arcs s') w' = arcs_of (wire_to_arcs s) w')
     ∧ trace s' = trace s ++ [EvRipupWire wire; EvUnbindWire w]
     ∧ ripup_flag s' = true)
  ∧ (∀ pip s s',
       ripup_pip pip s = (Ret tt, s') →
       getConflictingPipWire (ctx s) pip ≠ WireId_none →
       index_inv s →
       let w := getConflictingPipWire (ctx s) pip in
       arcs_of (wire_to_arcs s') w = ∅
       ∧ (∀ a, w ∉ wires_of (arc_to_wires s') a)
       ∧ (∀ a, a ∈ arcs_of (wire_to_arcs s) w → a ∈ queued_arcs s')
       ∧ (∀ w', w' ≠ w → arcs_of (wire_to_arcs s') w' = arcs_of (wire_to_arcs s) w')
       ∧ trace s' = trace s ++ [EvRipupPip pip; EvUnbindWire w]
       ∧ ripup_flag s' = true).
Proof.
  assert (Hcore : ∀ e w s s1 s',
            ripup_one_wire w (emit e s) = (Ret tt, s1) → s' = set_ripup_flag true s1 →
            index_inv s →
            arcs_of (wire_to_arcs s') w = ∅
            ∧ (∀ a, w ∉ wires_of (arc_to_wires s') a)
            ∧ (∀ a, a ∈ arcs_of (wire_to_arcs s) w → a ∈ queued_arcs s')
            ∧ (∀ w', w' ≠ w → arcs_of (wire_to_arcs s') w' = arcs_of (wire_to_arcs s) w')
            ∧ trace s' = trace s ++ [e; EvUnbindWire w]
            ∧ ripup_flag s' = true).
  { intros e w s s1 s' Hrun -> Hinv.
    pose proof (ripup_one_wire_effect _ _ _ _ Hrun) as [E1 E2].
    pose proof (ripup_one_wire_queues _ _ _ _ Hrun) as (Ht & _ & _ & Hq & _).
    simpl in *. split; [|split; [|split; [|split; [|split]]]].
    - rewrite E1. by rewrite decide_True.
    - intros a. rewrite E2. case_decide as Hin; [set_solver|].
      intros Hw. by apply Hin, Hinv.
    - done.
    - intros w' Hne. rewrite E1. by rewrite decide_False.
    - by rewrite Ht, <- app_assoc.
    - done. }
  split.
  - intros wire s s' Hrun Hw Hinv. cbv zeta. unfold ripup_wire in Hrun.
    apply bind_Ret in Hrun as ([] & s0 & ->%modify_Ret & Hrun).
    apply bind_Ret in Hrun as (? & ? & [-> ->]%get_Ret & Hrun).
    simpl in Hrun. rewrite decide_False in Hrun by done.
    apply bind_Ret in Hrun as ([] & s1 & H1 & ->%modify_Ret).
    by eapply Hcore.
  - intros pip s s' Hrun Hw Hinv. cbv zeta. unfold ripup_pip in Hrun.
    apply bind_Ret in Hrun as ([] & s0 & ->%modify_Ret & Hrun).
    apply bind_Ret in Hrun as (? & ? & [-> ->]%get_Ret & Hrun).
    simpl in Hrun. rewrite decide_False in Hrun by done.
    apply bind_Ret in Hrun as ([] & s1 & H1 & ->%modify_Ret).
    by eapply Hcore.
Qed.

Lemma ripup_wires_loop_queues (l : list (Z * PipMap)) s x s' :
  NoDup l.*1 →
  for_each l (λ it, ripup_one_wire it.1) s = (Ret x, s') →
  trace s' = trace s ++ (EvUnbindWire <$> l.*1)
  ∧ ripup_flag s' = ripup_flag s
  ∧ queued_arcs s ⊆ queued_arcs s'
  ∧ (∀ w, w ∈ l.*1 →
          arcs_of (wire_to_arcs s') w = ∅
          ∧ ∀ a, a ∈ arcs_of (wire_to_arcs s) w → a ∈ queued_arcs s')
  ∧ (∀ w, w ∉ l.*1 → arcs_of (wire_to_arcs s') w = arcs_of (wire_to_arcs s) w)
  ∧ arcs_with_ripup s' = arcs_with_ripup s
  ∧ arcs_without_ripup s' = arcs_without_ripup s.
Proof.
  revert s. induction l as [|[w0 pm] l IH]; intros s Hnd Hrun.
  - apply mret_Ret in Hrun as [_ ->]. rewrite fmap_nil. simpl. rewrite app_nil_r.
    split; [done|]. split; [done|]. split; [done|]. split; [|done].
    by intros w ?%elem_of_nil.
  - rewrite fmap_cons in Hnd. apply NoDup_cons in Hnd as [Hnotin Hnd]. simpl in *.
    apply bind_Ret in Hrun as ([] & s1 & H1 & Hrun).
    pose proof (ripup_one_wire_effect _ _ _ _ H1) as [E1 _].
    pose proof (ripup_one_wire_queues _ _ _ _ H1) as (T1 & F1 & Q1 & A1 & C1 & D1).
    destruct (IH _ Hnd Hrun) as (T2 & F2 & Q2 & A2 & O2 & C2 & D2).
    split; [|split; [|split; [|split; [|split; [|split; congruence]]]]].
    + by rewrite T2, T1, <- app_assoc.
    + congruence.
    + set_solver.
    + intros w [->|Hw]%elem_of_cons.
      * split; [rewrite (O2 _ Hnotin), E1; by rewrite decide_True|].
        intros a Ha. by apply Q2, A1.
      * destruct (A2 w Hw) as [Z2 B2]. split; [done|]. intros a Ha. apply B2.
        rewrite E1. rewrite decide_False; [done|]. by intros ->.
    + intros w Hw. apply not_elem_of_cons in Hw as [Hne Hw].
      rewrite (O2 _ Hw), E1. by rewrite decide_False.
Qed.

(** X9: [ripup_net(net)] that returns has called [unbindWire] once for
    each wire bound to the net, in the order of the wire map and nothing
    else, and has set [ripup_flag]; every arc of such a wire is queued and
    the wire has no arc left (with a consistent index before, no arc holds
    it); the arcs of the wires not bound to the net are as before. *)
Theorem ripup_net_unbinds_every_wire n s s' :
  ripup_net n s = (Ret tt, s') →
  trace s' = trace s
             ++ EvRipupNet n
                :: (EvUnbindWire <$> (map_to_list (wires (deref (ctx s) n))).*1)
  ∧ ripup_flag s' = true
  ∧ (∀ w, is_Some (wires (deref (ctx s) n) !! w) →
          arcs_of (wire_to_arcs s') w = ∅
          ∧ (∀ a, a ∈ arcs_of (wire_to_arcs s) w → a ∈ queued_arcs s')
          ∧ (index_inv s → ∀ a, w ∉ wires_of (arc_to_wires s') a))
  ∧ (∀ w, wires (deref (ctx s) n) !! w = None →
          arcs_of (wire_to_arcs s') w = arcs_of (wire_to_arcs s) w).
Proof.
  intros Hrun.
  assert (Hkeep : index_inv s → index_inv s').
  { intros Hinv. by apply (st_ripup_net (R := keeps_index_inv) n s tt s' Hrun). }
  unfold ripup_net in Hrun.
  apply bind_Ret in Hrun as ([] & s1 & ->%modify_Ret & Hrun).
  apply bind_Ret in Hrun as ([] & s2 & ->%modify_Ret & Hrun).
  apply bind_Ret in Hrun as (? & ? & [-> ->]%get_Ret & Hrun).
  apply bind_Ret in Hrun as ([] & s3 & H3 & ->%modify_Ret).
  apply ripup_wires_loop_queues in H3 as (T & _ & _ & Hin & Hout & _);
    [|apply NoDup_fst_map_to_list].
  simpl in *.
  assert (Hkeys : ∀ w, w ∈ (map_to_list (wires (deref (ctx s) n))).*1
                       ↔ is_Some (wires (deref (ctx s) n) !! w)).
  { intros w. rewrite list_elem_of_fmap. split.
    - intros ([w' pm] & -> & ?%elem_of_map_to_list). by eexists.
    - intros [pm Hpm]. exists (w, pm). split; [done|]. by apply elem_of_map_to_list. }
  split; [by rewrite T, <- app_assoc|]. split; [done|]. split.
  - intros w Hw%Hkeys. destruct (Hin w Hw) as [Z1 Q1]. split; [done|]. split; [done|].
    intros Hinv a Ha. apply (Hkeep Hinv) in Ha. simpl in Ha. rewrite Z1 in Ha.
    by apply elem_of_empty in Ha.
  - intros w Hw. apply Hout. rewrite Hkeys, Hw. by intros [? ?].
Qed.

End RipUp.

Section Accounting.
Context `{A : Arch}.

Local Instance flag_tracks_preorder : PreOrder flag_tracks.
Proof.
  split.
  - intros s. split; [done|]. split; [done|]. exists []. simpl.
    by rewrite app_nil_r, orb_false_r.
  - intros s1 s2 s3 (C1 & D1 & t1 & T1 & F1) (C2 & D2 & t2 & T2 & F2).
    split; [congruence|]. split; [congruence|]. exists (t1 ++ t2).
    split; [by rewrite T2, T1, app_assoc|].
    by rewrite F2, F1, existsb_app, orb_assoc.
Qed.

Lemma flag_tracks_now s s' :
  arcs_with_ripup s' = arcs_with_ripup s → arcs_without_ripup s' = arcs_without_ripup s →
  ripup_flag s' = ripup_flag s → trace s' = trace s → flag_tracks s s'.
Proof.
  intros ? ? HF HT. split; [done|]. split; [done|]. exists []. simpl.
  by rewrite app_nil_r, orb_false_r.
Qed.

Lemma flag_tracks_call e s s' :
  arcs_with_ripup s' = arcs_with_ripup s → arcs_without_ripup s' = arcs_without_ripup s →
  ripup_flag s' = ripup_flag s → trace s' = trace s ++ [e] → is_ripup e = false →
  flag_tracks s s'.
Proof.
  intros ? ? HF HT He. split; [done|]. split; [done|]. exists [e]. simpl.
  by rewrite He, HF, !orb_false_r.
Qed.

Lemma flag_tracks_ripup e t s s' :
  arcs_with_ripup s' = arcs_with_ripup s → arcs_without_ripup s' = arcs_without_ripup s →
  ripup_flag s' = true → trace s' = trace s ++ e :: t → is_ripup e = true →
  flag_tracks s s'.
Proof.
  intros ? ? HF HT He. split; [done|]. split; [done|]. exists (e :: t). simpl.
  by rewrite He, HF, orb_true_r.
Qed.

Local Ltac ft_step :=
  idtac;
  match goal with
  | |- respects flag_tracks (modify _) =>
      apply respects_modify; intros ?; by apply flag_tracks_now
  | |- respects flag_tracks (call_unbindWire ?w) =>
      let s := fresh in let x := fresh in let s' := fresh in
      intros s x s'; unfold call_unbindWire; destruct (unbindWire _ _);
      intros ?; simplify_eq; by eapply flag_tracks_call
  | |- respects flag_tracks (call_bindWire _ _ _) =>
      let s := fresh in let x := fresh in let s' := fresh in
      intros s x s'; unfold call_bindWire; destruct (bindWire _ _ _ _);
      intros ?; simplify_eq; by eapply flag_tracks_call
  | |- respects flag_tracks (call_bindPip _ _ _) =>
      let s := fresh in let x := fresh in let s' := fresh in
      intros s x s'; unfold call_bindPip; destruct (bindPip _ _ _ _);
      intros ?; simplify_eq; by eapply flag_tracks_call
  | |- respects flag_tracks call_rng =>
      let s := fresh in let x := fresh in let s' := fresh in
      intros s x s'; unfold call_rng; destruct (rng (ctx s));
      intros ?; simplify_eq; by apply flag_tracks_now
  | |- respects flag_tracks (touch_wire _) => unfold touch_wire
  | |- respects flag_tracks (touch_arc _) => unfold touch_arc
  | |- respects flag_tracks (attach _ _) => unfold attach
  | |- respects flag_tracks (release_wire _ _) => unfold release_wire
  | |- respects flag_tracks (route_arc_prepare _) => unfold route_arc_prepare
  end.

Lemma touch_arc_flag_tracks a : respects flag_tracks (touch_arc a).
Proof. resp_with ft_step. Qed.

Lemma attach_flag_tracks a w : respects flag_tracks (attach a w).
Proof. resp_with ft_step. Qed.

Lemma route_arc_prepare_flag_tracks a : respects flag_tracks (route_arc_prepare a).
Proof. resp_with ft_step. Qed.

Lemma astar_push_flag_tracks cfg dst_wire next_wire pip nd np nb L :
  respects flag_tracks (astar_push cfg dst_wire next_wire pip nd np nb L).
Proof. unfold astar_push. resp_with ft_step. Qed.

Lemma astar_step_flag_tracks cfg net ripup dst_wire qw L pip :
  respects flag_tracks (astar_step cfg net ripup dst_wire qw L pip).
Proof. unfold astar_step. resp_with ft_step; apply astar_push_flag_tracks. Qed.

Lemma astar_loop_flag_tracks fuel cfg net ripup dst_wire L :
  respects flag_tracks (astar_loop fuel cfg net ripup dst_wire L).
Proof.
  revert L. induction fuel as [|fuel IH]; intros L; simpl; resp_with ft_step.
  - apply astar_step_flag_tracks.
  - apply IH.
Qed.

Lemma route_arc_search_flag_tracks fuel cfg net ripup src_wire dst_wire :
  respects flag_tracks (route_arc_search fuel cfg net ripup src_wire dst_wire).
Proof. unfold route_arc_search. resp_with ft_step. apply astar_loop_flag_tracks. Qed.

Lemma ripup_net_flag_tracks n : respects flag_tracks (ripup_net n).
Proof.
  intros s [] s' Hrun. unfold ripup_net in Hrun.
  apply bind_Ret in Hrun as ([] & s1 & ->%modify_Ret & Hrun).
  apply bind_Ret in Hrun as ([] & s2 & ->%modify_Ret & Hrun).
  apply bind_Ret in Hrun as (? & ? & [-> ->]%get_Ret & Hrun).
  apply bind_Ret in Hrun as ([] & s3 & H3 & ->%modify_Ret).
  apply ripup_wires_loop_queues in H3 as (T & _ & _ & _ & _ & C & D);
    [|apply NoDup_fst_map_to_list].
  simpl in *. eapply (flag_tracks_ripup (EvRipupNet n)); simpl; try done.
  by rewrite T, <- app_assoc.
Qed.

Lemma ripup_wire_flag_tracks wire : respects flag_tracks (ripup_wire wire).
Proof.
  intros s [] s' Hrun. unfold ripup_wire in Hrun.
  apply bind_Ret in Hrun as ([] & s0 & ->%modify_Ret & Hrun).
  apply bind_Ret in Hrun as (? & ? & [-> ->]%get_Ret & Hrun).
  apply bind_Ret in Hrun as ([] & s1 & H1 & ->%modify_Ret).
  simpl in H1.
  assert (∃ t, trace s1 = trace s ++ EvRipupWire wire :: t
               ∧ arcs_with_ripup s1 = arcs_with_ripup s
               ∧ arcs_without_ripup s1 = arcs_without_ripup s) as (t & T & C & D).
  { case_decide.
    - destruct (getConflictingWireNet _ _).
      + apply ripup_net_flag_tracks in H1 as (C & D & t & T & _). simpl in *.
        exists t. by rewrite T, <- app_assoc.
      + apply mret_Ret in H1 as [_ ->]. by exists [].
    - apply ripup_one_wire_queues in H1 as (T & _ & _ & _ & C & D). simpl in *.
      eexists. by rewrite T, <- app_assoc. }
  by eapply (flag_tracks_ripup (EvRipupWire wire)).
Qed.

Lemma ripup_pip_flag_tracks pip : respects flag_tracks (ripup_pip pip).
Proof.
  intros s [] s' Hrun. unfold ripup_pip in Hrun.
  apply bind_Ret in Hrun as ([] & s0 & ->%modify_Ret & Hrun).
  apply bind_Ret in Hrun as (? & ? & [-> ->]%get_Ret & Hrun).
  apply bind_Ret in Hrun as ([] & s1 & H1 & ->%modify_Ret).
  simpl in H1.
  assert (∃ t, trace s1 = trace s ++ EvRipupPip pip :: t
               ∧ arcs_with_ripup s1 = arcs_with_ripup s
               ∧ arcs_without_ripup s1 = arcs_without_ripup s) as (t & T & C & D).
  { case_decide.
    - destruct (getConflictingPipNet _ _).
      + apply ripup_net_flag_tracks in H1 as (C & D & t & T & _). simpl in *.
        exists t. by rewrite T, <- app_assoc.
      + apply mret_Ret in H1 as [_ ->]. by exists [].
    - apply ripup_one_wire_queues in H1 as (T & _ & _ & _ & C & D). simpl in *.
      eexists. by rewrite T, <- app_assoc. }
  by eapply (flag_tracks_ripup (EvRipupPip pip)).
Qed.

Lemma route_arc_commit_flag_tracks fuel arc net src_wire cursor :
  respects flag_tracks (route_arc_commit fuel arc net src_wire cursor).
Proof.
  revert cursor. induction fuel as [|fuel IH]; intros cursor; simpl;
    resp_with ltac:(first [ ft_step
                          | apply ripup_wire_flag_tracks
                          | apply ripup_pip_flag_tracks ]).
  all: apply IH.
Qed.

(** X10: [route_arc] counts the arc once when it returns true, in
    [arcs_with_ripup] if a rip-up entry point ran during the call and in
    [arcs_without_ripup] otherwise, and leaves both counters alone when it
    returns false; [ripup_flag] says afterwards whether a rip-up ran. *)
Theorem route_arc_counts_the_arc_once fuel cfg arc ripup s ok s' :
  route_arc fuel cfg arc ripup s = (Ret ok, s') →
  ∃ t, trace s' = trace s ++ t
       ∧ ripup_flag s' = existsb is_ripup t
       ∧ arcs_with_ripup s'
         = arcs_with_ripup s + (if ok && existsb is_ripup t then 1 else 0)
       ∧ arcs_without_ripup s'
         = arcs_without_ripup s + (if ok && negb (existsb is_ripup t) then 1 else 0).
Proof.
  unfold route_arc. intros Hrun.
  apply bind_Ret in Hrun as (? & ? & [-> ->]%get_Ret & Hrun).
  destruct (users (deref (ctx s) (net_info arc)) !! user_idx arc) as [u|]; [|done].
  apply bind_Ret in Hrun as ([] & s0 & ->%modify_Ret & Hrun).
  apply bind_Ret in Hrun as ([] & s1 & H1%route_arc_prepare_flag_tracks & Hrun).
  apply bind_Ret in Hrun as (L & s2 & H2%route_arc_search_flag_tracks & Hrun).
  apply bind_Ret in Hrun as (? & ? & [-> ->]%get_Ret & Hrun).
  assert (H12 : flag_tracks (set_ripup_flag false s) s2) by (by etrans).
  destruct (visited s2 !! _).
  - apply bind_Ret in Hrun as ([] & s3 & H3%touch_arc_flag_tracks & Hrun).
    apply bind_Ret in Hrun as ([] & s4 & H4%route_arc_commit_flag_tracks & Hrun).
    apply bind_Ret in Hrun as (? & ? & [-> ->]%get_Ret & Hrun).
    apply bind_Ret in Hrun as ([] & s5 & H5 & [-> ->]%mret_Ret).
    assert (H14 : flag_tracks (set_ripup_flag false s) s4) by (etrans; [|done]; by etrans).
    destruct H14 as (C & D & t & T & F). simpl in *. exists t.
    rewrite F in H5.
    destruct (existsb is_ripup t); apply modify_Ret in H5 as ->; simpl;
      repeat split; try done; lia.
  - apply mret_Ret in Hrun as [-> ->]. destruct H12 as (C & D & t & T & F).
    simpl in *. exists t. rewrite F. simpl. repeat split; try done; lia.
Qed.

Local Instance holds_unless_ripup_preorder a : PreOrder (holds_unless_ripup a).
Proof.
  split.
  - by intros s ?.
  - intros s1 s2 s3 H12 H23 H3. destruct (H23 H3) as (F2 & W2 & A2).
    destruct (H12 F2) as (F1 & W1 & A1). split; [done|]. split; [set_solver|].
    intros w ?. by apply A2, A1.
Qed.

Lemma holds_unless_ripup_now a s s' :
  ripup_flag s' = ripup_flag s → wire_to_arcs s' = wire_to_arcs s →
  arc_to_wires s' = arc_to_wires s → holds_unless_ripup a s s'.
Proof. intros HF HW HA Hf. rewrite HW, HA, <- HF. by repeat split. Qed.

Lemma ripup_wire_raises_flag wire s x s' :
  ripup_wire wire s = (Ret x, s') → ripup_flag s' = true.
Proof.
  unfold ripup_wire. intros Hrun.
  apply bind_Ret in Hrun as ([] & s0 & _ & Hrun).
  apply bind_Ret in Hrun as (? & ? & _ & Hrun).
  by apply bind_Ret in Hrun as ([] & s1 & _ & ->%modify_Ret).
Qed.

Lemma ripup_pip_raises_flag pip s x s' :
  ripup_pip pip s = (Ret x, s') → ripup_flag s' = true.
Proof.
  unfold ripup_pip. intros Hrun.
  apply bind_Ret in Hrun as ([] & s0 & _ & Hrun).
  apply bind_Ret in Hrun as (? & ? & _ & Hrun).
  by apply bind_Ret in Hrun as ([] & s1 & _ & ->%modify_Ret).
Qed.

Lemma attach_holds a arc w : respects (holds_unless_ripup a) (attach arc w).
Proof.
  intros s x s' Hrun Hf. pose proof (attach_effect _ _ _ _ _ Hrun) as [E1 E2].
  unfold attach in Hrun.
  apply bind_Ret in Hrun as ([] & s0 & ->%modify_Ret & ->%modify_Ret).
  simpl in Hf. split; [done|]. split.
  - rewrite E2. case_decide; [subst; set_solver | done].
  - intros w' Hw'. rewrite E1. case_decide; [subst; set_solver | done].
Qed.

Local Ltac hu_step :=
  idtac;
  match goal with
  | |- respects (holds_unless_ripup _) (modify _) =>
      apply respects_modify; intros ?; by apply holds_unless_ripup_now
  | |- respects (holds_unless_ripup _) (call_bindWire _ _ _) =>
      let s := fresh in let x := fresh in let s' := fresh in
      intros s x s'; unfold call_bindWire; destruct (bindWire _ _ _ _);
      intros ?; simplify_eq; by apply holds_unless_ripup_now
  | |- respects (holds_unless_ripup _) (call_bindPip _ _ _) =>
      let s := fresh in let x := fresh in let s' := fresh in
      intros s x s'; unfold call_bindPip; destruct (bindPip _ _ _ _);
      intros ?; simplify_eq; by apply holds_unless_ripup_now
  | |- respects (holds_unless_ripup _) (ripup_wire _) =>
      let s := fresh in let x := fresh in let s' := fresh in
      let H := fresh in let Hf := fresh in
      intros s x s' H%ripup_wire_raises_flag Hf; congruence
  | |- respects (holds_unless_ripup _) (ripup_pip _) =>
      let s := fresh in let x := fresh in let s' := fresh in
      let H := fresh in let Hf := fresh in
      intros s x s' H%ripup_pip_raises_flag Hf; congruence
  | |- respects (holds_unless_ripup _) (attach _ _) => apply attach_holds
  end.

Lemma route_arc_commit_holds a fuel arc net src_wire cursor :
  respects (holds_unless_ripup a) (route_arc_commit fuel arc net src_wire cursor).
Proof.
  revert cursor. induction fuel as [|fuel IH]; intros cursor; simpl;
    resp_with hu_step.
  all: apply IH.
Qed.

(** The walk from the sink back to the source ends by attaching the source
    wire; the wire it starts from stays attached unless a rip-up follows. *)
Lemma route_arc_commit_attaches fuel arc net src_wire cursor s x s' :
  route_arc_commit fuel arc net src_wire cursor s = (Ret x, s') →
  (src_wire ∈ wires_of (arc_to_wires s') arc ∧ arc ∈ arcs_of (wire_to_arcs s') src_wire)
  ∧ (ripup_flag s' = false →
     cursor ∈ wires_of (arc_to_wires s') arc ∧ arc ∈ arcs_of (wire_to_arcs s') cursor).
Proof.
  revert cursor s. induction fuel as [|fuel IH]; intros cursor s Hrun; [done|].
  simpl in Hrun.
  apply bind_Ret in Hrun as (? & ? & [-> ->]%get_Ret & Hrun).
  apply bind_Ret in Hrun as ([] & s0 & _ & Hrun).
  apply bind_Ret in Hrun as ([] & s1 & Hsrc & Hrun).
  apply bind_Ret in Hrun as ([] & s2 & _ & Hrun).
  apply bind_Ret in Hrun as ([] & s3 & Hatt & Hrun).
  apply attach_effect in Hatt as [E1 E2].
  assert (Hcur : cursor ∈ wires_of (arc_to_wires s3) arc
                 ∧ arc ∈ arcs_of (wire_to_arcs s3) cursor).
  { rewrite E1, E2, !decide_True by done. set_solver. }
  destruct (decide (qw_pip (default QueuedWire_default (visited s !! cursor)) = PipId_none)).
  - apply mret_Ret in Hrun as [_ ->].
    apply NPNR_ASSERT_Ret in Hsrc as [->%bool_decide_eq_true _]. done.
  - apply bind_Ret in Hrun as (? & ? & [-> ->]%get_Ret & Hrun).
    destruct (IH _ _ Hrun) as [Hsrc' _]. split; [done|]. intros Hf.
    destruct (route_arc_commit_holds arc _ _ _ _ _ _ _ _ Hrun Hf) as (_ & HW & HA).
    destruct Hcur as [C1 C2]. split; [by apply HW | by apply HA].
Qed.

(** X11: when [route_arc] returns true the arc holds the source wire of
    its net, and if no rip-up ran during the call ([ripup_flag] is off) it
    holds its sink wire too. *)
Theorem routed_arc_holds_its_ends fuel cfg arc ripup s s' u :
  route_arc fuel cfg arc ripup s = (Ret true, s') →
  users (deref (ctx s) (net_info arc)) !! user_idx arc = Some u →
  let src_wire := getNetinfoSourceWire (ctx s) (net_info arc) in
  let dst_wire := getNetinfoSinkWire (ctx s) (net_info arc) u in
  src_wire ∈ wires_of (arc_to_wires s') arc
  ∧ arc ∈ arcs_of (wire_to_arcs s') src_wire
  ∧ (ripup_flag s' = false →
     dst_wire ∈ wires_of (arc_to_wires s') arc
     ∧ arc ∈ arcs_of (wire_to_arcs s') dst_wire).
Proof.
  unfold route_arc. intros Hrun Hu.
  apply bind_Ret in Hrun as (? & ? & [-> ->]%get_Ret & Hrun).
  rewrite Hu in Hrun.
  apply bind_Ret in Hrun as ([] & s0 & _ & Hrun).
  apply bind_Ret in Hrun as ([] & s1 & _ & Hrun).
  apply bind_Ret in Hrun as (L & s2 & _ & Hrun).
  apply bind_Ret in Hrun as (? & ? & [-> ->]%get_Ret & Hrun).
  destruct (visited s2 !! _); [|by apply mret_Ret in Hrun as [? _]].
  apply bind_Ret in Hrun as ([] & s3 & _ & Hrun).
  apply bind_Ret in Hrun as ([] & s4 & H4%route_arc_commit_attaches & Hrun).
  apply bind_Ret in Hrun as (? & ? & [-> ->]%get_Ret & Hrun).
  apply bind_Ret in Hrun as ([] & s5 & H5 & [_ ->]%mret_Ret).
  assert (wire_to_arcs s5 = wire_to_arcs s4 ∧ arc_to_wires s5 = arc_to_wires s4
          ∧ ripup_flag s5 = ripup_flag s4) as (-> & -> & ->).
  { destruct (ripup_flag s4) eqn:E; apply modify_Ret in H5 as ->; by repeat split. }
  cbv zeta. destruct H4 as [[? ?] ?]. done.
Qed.

End Accounting.

Section Always.
Context `{A : Arch}.

(** ** Relations that every run respects, however it ends *)

Lemma bind_inv {T U} (m : M T) (f : T → M U) s r s' :
  (m ≫= f) s = (r, s') →
  (∃ x s1, m s = (Ret x, s1) ∧ f x s1 = (r, s'))
  ∨ (∃ r0, m s = (r0, s') ∧ returns r0 = false ∧ returns r = false).
Proof.
  rewrite bind_unfold. destruct (m s) as [[x|e|] s1] eqn:Hm.
  - intros Hf. left. eauto.
  - intros [= <- <-]. right. by eexists.
  - intros [= <- <-]. right. by eexists.
Qed.

Lemma bind_assoc_run {T U V} (m : M T) (f : T → M U) (g : U → M V) s :
  ((m ≫= f) ≫= g) s = (m ≫= λ x, f x ≫= g) s.
Proof. rewrite !bind_unfold. by destruct (m s) as [[x|e|] s1]. Qed.

Section always.
Context (R : relation Router1) `{!PreOrder R}.

Lemma always_ret {T} (x : T) : always R (mret x).
Proof. intros s y s' [= _ <-]. reflexivity. Qed.

Lemma always_get : always R get.
Proof. intros s y s' [= _ <-]. reflexivity. Qed.

Lemma always_throw {T} e : always R (@throw _ T e).
Proof. intros s y s' [= _ <-]. reflexivity. Qed.

Lemma always_out_of_fuel {T} : always R (@out_of_fuel _ T).
Proof. intros s y s' [= _ <-]. reflexivity. Qed.

Lemma always_bind {T U} (m : M T) (f : T → M U) :
  always R m → (∀ x, always R (f x)) → always R (m ≫= f).
Proof.
  intros Hm Hf s r s' [(x & s1 & H1 & H2)|(r0 & H1 & _ & _)]%bind_inv.
  - etrans; [eapply Hm | eapply Hf]; eauto.
  - by eapply Hm.
Qed.

Lemma always_NPNR_ASSERT b : always R (NPNR_ASSERT b).
Proof. destruct b; [apply always_ret | apply always_throw]. Qed.

Lemma always_log_assert b : always R (log_assert b).
Proof. destruct b; [apply always_ret | apply always_throw]. Qed.

Lemma always_for_each {T} (l : list T) (body : T → M unit) :
  (∀ x, always R (body x)) → always R (for_each l body).
Proof.
  intros Hb. induction l as [|x l IH]; simpl.
  - apply always_ret.
  - apply always_bind; auto.
Qed.

Lemma always_foldM {T U} (body : U → T → M U) (l : list T) (u : U) :
  (∀ u x, always R (body u x)) → always R (foldM body l u).
Proof.
  intros Hb. revert u. induction l as [|x l IH]; intros u; simpl.
  - apply always_ret.
  - apply always_bind; auto.
Qed.

Lemma always_modify (f : Router1 → Router1) :
  (∀ s, R s (f s)) → always R (modify f).
Proof. intros Hf s y s' [= _ <-]. apply Hf. Qed.
End always.

Lemma always_respects (R : relation Router1) {T} (m : M T) : always R m → respects R m.
Proof. intros H s x s' Hrun. by eapply H. Qed.

(** ** What a run may emit *)

Global Instance emits_preorder P : PreOrder (emits P).
Proof.
  split.
  - intros s. exists []. by rewrite app_nil_r.
  - intros s1 s2 s3 (t1 & T1 & F1) (t2 & T2 & F2). exists (t1 ++ t2).
    split; [by rewrite T2, T1, app_assoc | by apply Forall_app].
Qed.

Lemma emits_now P s s' : trace s' = trace s → emits P s s'.
Proof. intros HT. exists []. by rewrite app_nil_r. Qed.

Lemma emits_one P e s s' : P e → trace s' = trace s ++ [e] → emits P s s'.
Proof. intros He HT. exists [e]. split; [done|]. by constructor. Qed.

End Always.

(** Decomposes a goal [always R m] along the syntax of [m]. *)
Ltac alw_step :=
  lazymatch goal with
  | |- always _ (mret _) => apply always_ret; solve [apply _]
  | |- always _ (mbind _ _) => apply always_bind; [solve [apply _] | | intros ?]
  | |- always _ get => apply always_get; solve [apply _]
  | |- always _ (throw _) => apply always_throw; solve [apply _]
  | |- always _ log_error => apply always_throw; solve [apply _]
  | |- always _ out_of_fuel => apply always_out_of_fuel; solve [apply _]
  | |- always _ (NPNR_ASSERT _) => apply always_NPNR_ASSERT; solve [apply _]
  | |- always _ (log_assert _) => apply always_log_assert; solve [apply _]
  | |- always _ (for_each _ _) => apply always_for_each; [solve [apply _] | intros ?]
  | |- always _ (foldM _ _ _) => apply always_foldM; [solve [apply _] | intros ? ?]
  | |- always _ (match ?x with _ => _ end) => destruct x
  | |- always _ (let _ := _ in _) => cbv zeta
  end.

(** The primitive steps, each closed by [solve] from what it does to the
    state, and the functions that are made of them. *)
Ltac prim_step solve :=
  idtac;
  match goal with
  | |- always _ (modify _) => apply always_modify; intros ?; solve
  | |- always _ (call_unbindWire _) =>
      let s := fresh in let r := fresh in let s' := fresh in
      intros s r s'; unfold call_unbindWire; destruct (unbindWire _ _);
      intros ?; simplify_eq; solve
  | |- always _ (call_bindWire _ _ _) =>
      let s := fresh in let r := fresh in let s' := fresh in
      intros s r s'; unfold call_bindWire; destruct (bindWire _ _ _ _);
      intros ?; simplify_eq; solve
  | |- always _ (call_bindPip _ _ _) =>
      let s := fresh in let r := fresh in let s' := fresh in
      intros s r s'; unfold call_bindPip; destruct (bindPip _ _ _ _);
      intros ?; simplify_eq; solve
  | |- always _ call_rng =>
      let s := fresh in let r := fresh in let s' := fresh in
      intros s r s'; unfold call_rng; destruct (rng (ctx s));
      intros ?; simplify_eq; solve
  | |- always _ (touch_wire _) => unfold touch_wire
  | |- always _ (touch_arc _) => unfold touch_arc
  | |- always _ (attach _ _) => unfold attach
  | |- always _ (arc_queue_insert3 _ _ _) => unfold arc_queue_insert3
  | |- always _ (arc_queue_insert _) => unfold arc_queue_insert
  | |- always _ arc_queue_pop => unfold arc_queue_pop
  | |- always _ (release_wire _ _) => unfold release_wire
  | |- always _ (route_arc_prepare _) => unfold route_arc_prepare
  | |- always _ (ripup_one_wire _) => unfold ripup_one_wire
  | |- always _ (ripup_net _) => unfold ripup_net
  | |- always _ (ripup_wire _) => unfold ripup_wire
  | |- always _ (ripup_pip _) => unfold ripup_pip
  | |- always _ check => unfold check
  | |- always _ (check_net _ _) => unfold check_net
  | |- always _ (check_user _ _ _) => unfold check_user
  | |- always _ (check_wire _ _ _ _) => unfold check_wire
  | |- always _ call_ctx_check => unfold call_ctx_check
  | |- always _ (call_checkRoutedDesign _) => unfold call_checkRoutedDesign
  | |- always _ (iteration_check _ _) => unfold iteration_check
  | |- always _ (setup_user _ _ _ _ _) => unfold setup_user
  | |- always _ (setup_net _ _ _) => unfold setup_net
  | |- always _ (setup _) => unfold setup
  | |- always _ (astar_push _ _ _ _ _ _ _ _) => unfold astar_push
  | |- always _ (astar_step _ _ _ _ _ _ _) => unfold astar_step
  | |- always _ (route_arc_search _ _ _ _ _ _) => unfold route_arc_search
  end.

Ltac alw_with solve := repeat first [alw_step | prim_step solve].

(** For [emits]: a step emits nothing, or one event. *)
Ltac alw := alw_with ltac:(first [by apply emits_now | (eapply emits_one; [|done])]).

Section Emits.
Context `{A : Arch}.

Lemma check_emits P : always (emits P) check.
Proof. alw. Qed.

Section with_unbind.
Context (P : Event → Prop) (HU : ∀ w, P (EvUnbindWire w)).

Lemma setup_walk_emits fuel net arc src_wire dst_wire cursor :
  always (emits P) (setup_walk fuel net arc src_wire dst_wire cursor).
Proof.
  revert cursor. induction fuel as [|fuel IH]; intros cursor; simpl; alw. apply IH.
Qed.

Lemma setup_emits fuel : always (emits P) (setup fuel).
Proof. alw; first [apply setup_walk_emits | apply HU]. Qed.
End with_unbind.

Lemma astar_loop_emits P fuel cfg net ripup dst_wire L :
  always (emits P) (astar_loop fuel cfg net ripup dst_wire L).
Proof.
  revert L. induction fuel as [|fuel IH]; intros L; simpl; alw. apply IH.
Qed.

Lemma route_arc_search_emits P fuel cfg net ripup src_wire dst_wire :
  always (emits P) (route_arc_search fuel cfg net ripup src_wire dst_wire).
Proof. alw. apply astar_loop_emits. Qed.

Section with_calls.
Context (P : Event → Prop).
Context (HU : ∀ w, P (EvUnbindWire w)).
Context (HBW : ∀ w n st, P (EvBindWire w n st)).
Context (HBP : ∀ p n st, P (EvBindPip p n st)).
Context (HRN : ∀ n, P (EvRipupNet n)).
Context (HRW : ∀ w, P (EvRipupWire w)).
Context (HRP : ∀ p, P (EvRipupPip p)).

Lemma route_arc_commit_emits fuel arc net src_wire cursor :
  always (emits P) (route_arc_commit fuel arc net src_wire cursor).
Proof.
  revert cursor. induction fuel as [|fuel IH]; intros cursor; simpl; alw; auto.
Qed.

Lemma route_arc_emits fuel cfg arc ripup :
  always (emits P) (route_arc fuel cfg arc ripup).
Proof.
  unfold route_arc. alw; auto using astar_loop_emits, route_arc_commit_emits.
Qed.
End with_calls.

Lemma not_lock_emits_route_arc fuel cfg arc ripup :
  always (emits not_lock) (route_arc fuel cfg arc ripup).
Proof. by apply route_arc_emits. Qed.

Lemma iteration_check_emits P ndebug it : always (emits P) (iteration_check ndebug it).
Proof. alw. Qed.

Lemma arc_queue_pop_emits P : always (emits P) arc_queue_pop.
Proof. alw. Qed.

Lemma unlocks_on_false_bind {T} (m : M T) (f : T → M bool) :
  always (emits not_lock) m →
  (∀ x s r s', f x s = (r, s') → unlocks_on_false r s s') →
  ∀ s r s', (m ≫= f) s = (r, s') → unlocks_on_false r s s'.
Proof.
  intros Hm Hf s r s' [(x & s1 & H1 & H2)|(r0 & H1 & _ & Hr)]%bind_inv.
  - apply Hm in H1 as (t1 & T1 & F1). apply Hf in H2 as (t2 & T2 & F2).
    exists (t1 ++ t2). split; [|by apply Forall_app].
    by rewrite T2, T1, <- !app_assoc.
  - apply Hm in H1 as (t1 & T1 & F1). exists t1. split; [|done].
    destruct r as [[]| |]; rewrite ?app_nil_r; done.
Qed.

(** The loop of [router1]: it unlocks where it returns false, and
    nowhere else. *)
Lemma router1_loop_emits fuel ndebug cfg it s r s' :
  router1_loop fuel ndebug cfg it s = (r, s') → unlocks_on_false r s s'.
Proof.
  revert it s r s'. induction fuel as [|fuel IH]; intros it s r s' Hrun.
  - simpl in Hrun. rewrite bind_unfold in Hrun. simpl in Hrun.
    destruct (arc_queue s); cbv [mret M_ret out_of_fuel] in Hrun; simplify_eq;
      exists []; simpl; by rewrite ?app_nil_r.
  - simpl in Hrun. rewrite bind_unfold in Hrun. simpl in Hrun.
    destruct (arc_queue s) eqn:Hq.
    { cbv [mret M_ret] in Hrun. simplify_eq. exists []. simpl. by rewrite ?app_nil_r. }
    clear Hq. revert s r s' Hrun.
    apply unlocks_on_false_bind; [apply iteration_check_emits|]. intros _.
    apply unlocks_on_false_bind; [apply arc_queue_pop_emits|]. intros arc.
    apply unlocks_on_false_bind; [apply not_lock_emits_route_arc|]. intros [|].
    { apply IH. }
    apply unlocks_on_false_bind.
    { apply always_modify. intros s.
      by apply (emits_one _ (EvWarnNoRoute arc)); [split|]. }
    intros _. apply unlocks_on_false_bind.
    { destruct ndebug; alw. }
    intros _ s r s' Hrun. rewrite bind_unfold in Hrun.
    cbv [modify mret M_ret] in Hrun. simplify_eq. exists []. simpl.
    by rewrite ?app_nil_r.
Qed.

Lemma router1_enter_emits (P : Event → Prop) fuel ndebug s r s' :
  (∀ w, P (EvUnbindWire w)) →
  router1_enter fuel ndebug s = (r, s') →
  ∃ t, trace s' = trace s ++ EvLock :: t ∧ Forall P t.
Proof.
  unfold router1_enter. rewrite bind_unfold. cbv [modify]. intros HU Hrun.
  assert (Hrest : always (emits P)
                    (setup fuel ≫= λ _, if ndebug then mret tt else check)).
  { apply always_bind; [apply _ | by apply setup_emits |].
    intros _. destruct ndebug; [alw | apply check_emits]. }
  apply Hrest in Hrun as (t & T & F). exists t. split; [|done].
  simpl in T. by rewrite T, <- app_assoc.
Qed.

Lemma unlocks_on_return_bind {T U} (m : M T) (f : T → M U) :
  always (emits not_lock) m →
  (∀ x s r s', f x s = (r, s') → unlocks_on_return r s s') →
  ∀ s r s', (m ≫= f) s = (r, s') → unlocks_on_return r s s'.
Proof.
  intros Hm Hf s r s' [(x & s1 & H1 & H2)|(r0 & H1 & _ & Hr)]%bind_inv.
  - apply Hm in H1 as (t1 & T1 & F1). apply Hf in H2 as (t2 & T2 & F2).
    exists (t1 ++ t2). split; [|by apply Forall_app].
    by rewrite T2, T1, <- !app_assoc.
  - apply Hm in H1 as (t1 & T1 & F1). exists t1. split; [|done].
    destruct r as [y| |]; simpl; rewrite ?app_nil_r; done.
Qed.

Lemma unlock_and_return {T} (b : T) s r s' :
  (modify (emit EvUnlock) ≫= λ _, mret b) s = (r, s') → unlocks_on_return r s s'.
Proof.
  rewrite bind_unfold. cbv [modify mret M_ret]. intros ?. simplify_eq.
  exists []. by simpl.
Qed.

Lemma router1_try_emits fuel ndebug cfg s r s' :
  router1_try fuel ndebug cfg s = (r, s') →
  ∃ t, trace s' = trace s ++ EvLock :: t ++ (if returns r then [EvUnlock] else [])
       ∧ Forall not_lock t.
Proof.
  unfold router1_try. intros Hrun.
  assert (Htail : ∀ s r s',
            (router1_loop fuel ndebug cfg 0 ≫= λ ok : bool,
             if ok then
               (if ndebug then mret tt
                else check;; call_ctx_check;; call_checkRoutedDesign fuel);;
               modify (λ s, set_ctx (timing_analysis (ctx s)) s);;
               modify (emit EvUnlock);;
               mret true
             else mret false) s = (r, s') → unlocks_on_return r s s').
  { clear. intros s r s' [(ok & s1 & H1 & H2)|(r0 & H1 & Hr0 & Hr)]%bind_inv.
    - apply router1_loop_emits in H1 as (t1 & T1 & F1). destruct ok.
      + rewrite app_nil_r in T1. revert H2.
        assert (Hgo : always (emits not_lock)
                  ((if ndebug then mret tt
                    else check;; call_ctx_check;; call_checkRoutedDesign fuel);;
                   modify (λ s, set_ctx (timing_analysis (ctx s)) s))).
        { destruct ndebug; alw. }
        intros H2. rewrite <- (bind_assoc_run _ _ _) in H2.
        eapply unlocks_on_return_bind in H2 as (t2 & T2 & F2);
          [| apply Hgo | intros _; apply unlock_and_return].
        exists (t1 ++ t2). split; [|by apply Forall_app].
        by rewrite T2, T1, <- !app_assoc.
      + cbv [mret M_ret] in H2. simplify_eq. by exists t1.
    - apply router1_loop_emits in H1 as (t1 & T1 & F1). exists t1.
      split; [|done]. by destruct r0 as [y| |], r as [y'| |]. }
  apply bind_inv in Hrun as [([] & s1 & H1 & H2)|(r0 & H1 & _ & Hr)].
  - apply (router1_enter_emits not_lock) in H1 as (t1 & T1 & F1); [|done].
    apply Htail in H2 as (t2 & T2 & F2). exists (t1 ++ t2).
    split; [|by apply Forall_app]. rewrite T2, T1, <- !app_assoc. done.
  - apply (router1_enter_emits not_lock) in H1 as (t1 & T1 & F1); [|done].
    exists t1. split; [|done].
    destruct r as [y| |]; simpl; rewrite ?app_nil_r; done.
Qed.

(** X12: however [router1] ends, it has locked the context exactly
    once, as its first call; it has unlocked it exactly once, as its last
    call, if it returns (true or false), and not at all if an exception
    leaves it (or the model runs out of fuel). *)
Theorem router1_locks_and_unlocks fuel ndebug cfg c :
  let r := router1 fuel ndebug cfg c in
  ∃ t, trace r.2 = EvLock :: t ++ (if returns r.1 then [EvUnlock] else [])
       ∧ Forall (λ e, e ≠ EvLock ∧ e ≠ EvUnlock) t.
Proof.
  cbv zeta. unfold router1.
  destruct (router1_try fuel ndebug cfg (Router1_new c)) as [r s1] eqn:Htry.
  apply router1_try_emits in Htry as (t1 & T1 & F1). simpl in T1.
  assert (Hcatch : ∀ s r s', router1_catch ndebug s = (r, s') → unlocks_on_return r s s').
  { unfold router1_catch. apply unlocks_on_return_bind.
    - destruct ndebug; alw.
    - intros _. apply unlock_and_return. }
  destruct r as [b|e|]; simpl; [by exists t1 | | by exists t1].
  destruct e; simpl; try (by exists t1).
  destruct (router1_catch ndebug s1) as [r s'] eqn:Hc. simpl.
  apply Hcatch in Hc as (t2 & T2 & F2). exists (t1 ++ t2).
  split; [|by apply Forall_app]. simpl in T1. rewrite T2, T1, app_nil_r.
  by rewrite <- app_assoc.
Qed.

End Emits.

Section SetupProps.
Context `{A : Arch}.

Global Instance only_grows_preorder : PreOrder only_grows.
Proof.
  split.
  - by intros s.
  - intros s1 s2 s3 (W1 & A1 & Q1 & S1 & N1) (W2 & A2 & Q2 & S2 & N2).
    split; [|split; [|split; [|split]]]; [ | | | congruence | congruence].
    + intros a. specialize (W1 a). specialize (W2 a). set_solver.
    + intros w. specialize (A1 w). specialize (A2 w). set_solver.
    + set_solver.
Qed.

Local Ltac og_solve :=
  split; [|split; [|split; [|split]]]; simpl; try done; intros;
  rewrite ?arcs_of_insert, ?wires_of_insert; repeat case_decide; subst; set_solver.

Lemma setup_walk_only_grows fuel net arc src_wire dst_wire cursor :
  always only_grows (setup_walk fuel net arc src_wire dst_wire cursor).
Proof.
  revert cursor. induction fuel as [|fuel IH]; intros cursor; simpl;
    alw_with og_solve; apply IH.
Qed.

Lemma setup_only_grows fuel : always only_grows (setup fuel).
Proof. alw_with og_solve. apply setup_walk_only_grows. Qed.

Lemma Forall_is_unbind t : Forall is_unbind t → ∃ ws, t = EvUnbindWire <$> ws.
Proof.
  induction 1 as [|e t [w ->] _ [ws ->]]; [by exists [] | by exists (w :: ws)].
Qed.

(** X13: however [setup] ends, the only calls it has made on the
    architecture are [unbindWire]s; it has detached no arc from a wire,
    unqueued no arc, and left the score book alone. *)
Theorem setup_only_unbinds_and_adds fuel s :
  let s' := (setup fuel s).2 in
  (∃ ws, trace s' = trace s ++ (EvUnbindWire <$> ws))
  ∧ (∀ a, wires_of (arc_to_wires s) a ⊆ wires_of (arc_to_wires s') a)
  ∧ (∀ w, arcs_of (wire_to_arcs s) w ⊆ arcs_of (wire_to_arcs s') w)
  ∧ queued_arcs s ⊆ queued_arcs s'
  ∧ wireScores s' = wireScores s ∧ netScores s' = netScores s.
Proof.
  cbv zeta. destruct (setup fuel s) as [r s'] eqn:Hrun. simpl. split.
  - apply (setup_emits is_unbind) in Hrun as (t & T & [ws ->]%Forall_is_unbind);
      [|by eexists]. by exists ws.
  - by apply setup_only_grows in Hrun.
Qed.

(** ** What [setup] does with each arc of a net *)

Global Instance adds_preorder : PreOrder adds.
Proof.
  split.
  - by intros s.
  - intros s1 s2 s3 (C1 & T1 & G1) (C2 & T2 & G2).
    split; [congruence|]. split; [congruence|]. by etrans.
Qed.

Local Ltac adds_solve := split; [done|]; split; [done|]; og_solve.

Lemma setup_walk_adds fuel net arc src_wire dst_wire cursor :
  always adds (setup_walk fuel net arc src_wire dst_wire cursor).
Proof.
  revert cursor. induction fuel as [|fuel IH]; intros cursor; simpl;
    alw_with adds_solve; apply IH.
Qed.

Lemma setup_user_adds fuel net src_wire maps iu :
  always adds (setup_user fuel net src_wire maps iu).
Proof. alw_with adds_solve. apply setup_walk_adds. Qed.

Lemma attach_attaches arc w s x s' :
  attach arc w s = (Ret x, s') →
  w ∈ wires_of (arc_to_wires s') arc ∧ adds s s'.
Proof.
  intros Hrun. pose proof (attach_effect _ _ _ _ _ Hrun) as [E1 E2].
  unfold attach in Hrun.
  apply bind_Ret in Hrun as ([] & s0 & ->%modify_Ret & ->%modify_Ret).
  split; [rewrite E2, decide_True by done; set_solver|].
  split; [done|]. split; [done|]. split; [|split; [|done]].
  - intros a. rewrite E2. case_decide; [subst; set_solver | done].
  - intros w'. rewrite E1. case_decide; [subst; set_solver | done].
Qed.

(** The backward walk ends at the source wire, which it has attached
    unless it started there, or it queues the arc. *)
Lemma setup_walk_accounts fuel net arc src_wire dst_wire cursor s x s' :
  setup_walk fuel net arc src_wire dst_wire cursor s = (Ret x, s') →
  arc ∈ queued_arcs s' ∨ src_wire ∈ wires_of (arc_to_wires s') arc ∨ cursor = src_wire.
Proof.
  revert cursor s. induction fuel as [|fuel IH]; intros cursor s Hrun; simpl in Hrun.
  - case_decide; [by right; right | done].
  - case_decide; [by right; right|].
    apply bind_Ret in Hrun as (? & ? & [-> ->]%get_Ret & Hrun).
    destruct (wires (deref (ctx s) net) !! cursor) as [it|].
    + apply bind_Ret in Hrun as ([] & ? & [_ ->]%NPNR_ASSERT_Ret & Hrun).
      apply bind_Ret in Hrun as ([] & s1 & [Hin _]%attach_attaches & Hrun).
      pose proof (setup_walk_adds _ _ _ _ _ _ _ _ _ Hrun) as (_ & _ & HW & _).
      destruct (IH _ _ Hrun) as [?|[?|Heq]]; [by left | by right; left|].
      right; left. rewrite <- Heq. by apply HW.
    + left. by apply arc_queue_insert3_queues in Hrun as [? _].
Qed.

Lemma accounted_adds c net s s' j u :
  adds s s' → accounted c net s j u → accounted c net s' j u.
Proof.
  intros (_ & _ & HW & _ & HQ & _) [?|[?|?]]; [left | right; left | right; right].
  - by apply HQ.
  - by apply HW.
  - done.
Qed.

Lemma setup_user_inv c net fuel maps k u s maps' s' :
  users (deref c net) !! k = Some u →
  users_inv c net k maps s →
  setup_user fuel net (getNetinfoSourceWire c net) maps (k, u) s = (Ret maps', s') →
  users_inv c net (S k) maps' s'.
Proof.
  intros Hu (Hc & Hmaps & Hacc) Hrun.
  pose proof (setup_user_adds _ _ _ _ _ _ _ _ Hrun) as Hadds.
  assert (Hold : ∀ j u0, (j < k)%nat → users (deref c net) !! j = Some u0 →
                         accounted c net s' j u0).
  { intros j u0 ? ?. eapply accounted_adds; [done|]. by apply Hacc. }
  assert (Hgoal : accounted c net s' k u
                  ∧ ∀ w a, dst_to_arc maps' !! w = Some a → net_info a = net →
                      ∃ u', (user_idx a < S k)%nat
                            ∧ users (deref c net) !! user_idx a = Some u'
                            ∧ getNetinfoSinkWire c net u' = w).
  { unfold setup_user in Hrun.
    apply bind_Ret in Hrun as (? & ? & [-> ->]%get_Ret & Hrun).
    simpl in Hrun. rewrite Hc in Hrun.
    case_decide; [by destruct (cell u)|].
    destruct (dst_to_arc maps !! getNetinfoSinkWire c net u) as [other|] eqn:Hother.
    - case_decide as Hnet; [|done]. apply mret_Ret in Hrun as [-> ->]. split.
      + destruct (Hmaps _ _ Hother Hnet) as (u' & Hlt & Hu' & Hsink).
        right; right. by exists (user_idx other), u'.
      + intros w a Ha Hn. destruct (Hmaps _ _ Ha Hn) as (u' & Hlt & Hu' & Hsink).
        exists u'. split; [lia | done].
    - case_decide; [done|].
      assert (Hentry : ∀ w a,
                <[getNetinfoSinkWire c net u := mk_arc_key net k]> (dst_to_arc maps) !! w
                = Some a → net_info a = net →
                ∃ u', (user_idx a < S k)%nat
                      ∧ users (deref c net) !! user_idx a = Some u'
                      ∧ getNetinfoSinkWire c net u' = w).
      { intros w a Ha Hn. destruct (decide (w = getNetinfoSinkWire c net u)) as [->|Hne].
        - rewrite lookup_insert_eq in Ha. injection Ha as <-. simpl. exists u.
        split; [lia|done].
        - rewrite lookup_insert_ne in Ha by done.
          destruct (Hmaps _ _ Ha Hn) as (u' & Hlt & Hu' & Hsink).
          exists u'. split; [lia | done]. }
      destruct (wires (deref c net) !! getNetinfoSourceWire c net).
      + apply bind_Ret in Hrun as ([] & s1 & [Hin _]%attach_attaches & Hrun).
        apply bind_Ret in Hrun as ([] & s2 & Hwalk & [-> ->]%mret_Ret).
        split; [|done].
        pose proof (setup_walk_adds _ _ _ _ _ _ _ _ _ Hwalk) as (_ & _ & HW & _).
        destruct (setup_walk_accounts _ _ _ _ _ _ _ _ _ Hwalk) as [?|[?|Heq]];
          [by left | by right; left|].
        right; left. rewrite <- Heq. by apply HW.
      + apply bind_Ret in Hrun as ([] & s1 & [Hin _]%arc_queue_insert3_queues
                                   & [-> ->]%mret_Ret).
        split; [by left | done]. }
  destruct Hgoal as [Hk Hmaps']. destruct Hadds as (Hc' & _).
  split; [congruence|]. split; [done|].
  intros j u0 Hj Hu0. destruct (decide (j = k)) as [->|]; [by simplify_eq|].
  apply Hold; [lia | done].
Qed.

Lemma setup_users_inv c net fuel (us : list PortRef) n maps s maps' s' :
  (∀ i u, us !! i = Some u → users (deref c net) !! (n + i)%nat = Some u) →
  users_inv c net n maps s →
  foldM (setup_user fuel net (getNetinfoSourceWire c net))
        (imap (λ i u, ((n + i)%nat, u)) us) maps s = (Ret maps', s') →
  users_inv c net (n + length us) maps' s'.
Proof.
  revert n maps s. induction us as [|u us IH]; intros n maps s Hus Hinv Hrun.
  - apply mret_Ret in Hrun as [-> ->]. simpl. by rewrite Nat.add_0_r.
  - simpl in Hrun. apply bind_Ret in Hrun as (maps1 & s1 & H1 & Hrun).
    rewrite Nat.add_0_r in H1.
    apply setup_user_inv in H1; [|by rewrite <- (Hus 0%nat u), Nat.add_0_r | done].
    rewrite (imap_ext _ (λ i u, ((S n + i)%nat, u))) in Hrun
      by (intros; simpl; f_equal; lia).
    apply IH in Hrun; [| |done].
    + simpl. by rewrite Nat.add_succ_r.
    + intros i u0 Hi. rewrite <- (Hus (S i) u0 Hi). f_equal. lia.
Qed.

Lemma unbind_loop_books (l : list (Z * PipMap)) s x s' :
  for_each l (λ it, call_unbindWire it.1) s = (Ret x, s') →
  arc_to_wires s' = arc_to_wires s ∧ queued_arcs s' = queued_arcs s.
Proof.
  revert s. induction l as [|it l IH]; intros s Hrun; simpl in Hrun.
  - by apply mret_Ret in Hrun as [_ ->].
  - apply bind_Ret in Hrun as ([] & s1 & (c & _ & ->)%call_unbindWire_Ret & Hrun).
    by apply IH in Hrun as [-> ->].
Qed.

(** X14: when the iteration of [setup] for a net that is not skipped
    returns, having started with no arc of that net recorded in
    [dst_to_arc], every arc of the net is queued, or holds the source wire
    of the net, or has the sink wire of a user of the net that comes
    earlier in [users]. *)
Theorem setup_net_accounts_for_every_arc fuel maps net s maps' s' :
  setup_net fuel maps net s = (Ret maps', s') →
  skip_net (deref (ctx s) net) = false →
  (∀ w a, dst_to_arc maps !! w = Some a → net_info a ≠ net) →
  ∀ i u, users (deref (ctx s) net) !! i = Some u →
    mk_arc_key net i ∈ queued_arcs s'
    ∨ getNetinfoSourceWire (ctx s) net ∈ wires_of (arc_to_wires s') (mk_arc_key net i)
    ∨ ∃ j u', (j < i)%nat ∧ users (deref (ctx s) net) !! j = Some u'
              ∧ getNetinfoSinkWire (ctx s) net u' = getNetinfoSinkWire (ctx s) net u.
Proof.
  intros Hrun Hskip Hfresh i u Hu. unfold setup_net in Hrun.
  apply bind_Ret in Hrun as (? & ? & [-> ->]%get_Ret & Hrun).
  rewrite Hskip in Hrun. repeat (case_decide; [done|]).
  apply bind_Ret in Hrun as (maps1 & s1 & Husers & Hrun).
  apply (setup_users_inv (ctx s) net _ _ 0%nat) in Husers as (_ & _ & Hacc).
  - apply bind_Ret in Hrun as (? & ? & [-> ->]%get_Ret & Hrun).
    apply bind_Ret in Hrun as ([] & s2 & [Ha Hq]%unbind_loop_books & [_ ->]%mret_Ret).
    rewrite Ha, Hq. apply Hacc; [|done]. by apply lookup_lt_Some in Hu.
  - done.
  - split; [done|]. split; [|intros ? ? ?; lia].
    intros w a Ha Hn. by destruct (Hfresh _ _ Ha).
Qed.

End SetupProps.

Section CheckSpec.
Context `{A : Arch}.

(** ** What [check] checks *)

Lemma decides_ret {T} (v : T) s : decides (mret (M:=M) v s) True (λ v' s', v' = v ∧ s' = s).
Proof. done. Qed.

Lemma decides_weaken {T} (r : outcome T * Router1) P P' Q (Q' : T → Router1 → Prop) :
  decides r P Q → (P ↔ P') → (∀ v s, P → Q v s → Q' v s) → decides r P' Q'.
Proof.
  destruct r as [[v|e|] s]; simpl; [| |done].
  - intros [HP HQ] HPP HQQ. split; [by apply HPP | by apply HQQ].
  - intros [-> HP] HPP _. split; [done|]. by rewrite <- HPP.
Qed.

Lemma decides_bind {T U} (m : M T) (f : T → M U) s P1 Q1 P2 Q2 :
  decides (m s) P1 Q1 →
  (∀ v s1, P1 → Q1 v s1 → decides (f v s1) P2 Q2) →
  decides ((m ≫= f) s) (P1 ∧ P2) Q2.
Proof.
  rewrite bind_unfold. destruct (m s) as [[v|e|] s1]; simpl; [| |done].
  - intros [HP HQ] Hf. specialize (Hf v s1 HP HQ).
    destruct (f v s1) as [[v'|e'|] s2]; simpl in *; [| |done].
    + by destruct Hf.
    + destruct Hf as [-> Hn]. split; [done|]. by intros [_ ?].
  - intros [-> Hn] _. split; [done|]. by intros [? _].
Qed.

Lemma decides_log_assert b s : decides (log_assert b s) (b = true) (λ _ s', s' = s).
Proof. by destruct b. Qed.

Lemma touched_refl V s : touched V s s.
Proof. repeat split; auto. Qed.

Lemma touched_trans V s1 s2 s3 : touched V s1 s2 → touched V s2 s3 → touched V s1 s3.
Proof.
  intros (C1 & A1 & W1 & K1 & L1) (C2 & A2 & W2 & K2 & L2).
  split; [congruence|]. split; [intros w; by rewrite A2|].
  split; [intros a; by rewrite W2|]. split; [auto|].
  intros a [?|?]%L2; [by apply L1 | by right].
Qed.

Lemma touched_mono V V' s s' : V ⊆ V' → touched V s s' → touched V' s s'.
Proof.
  intros HV (C1 & A1 & W1 & K1 & L1). repeat split; try done.
  intros a [?|?]%L1; [by left | right; by apply HV].
Qed.

Lemma touched_touch_wire V w s :
  touched V s (set_wire_to_arcs (<[w := arcs_of (wire_to_arcs s) w]> (wire_to_arcs s)) s).
Proof. repeat split; simpl; auto. intros w'. apply arcs_of_touch. Qed.

Lemma touched_touch_arc V a s :
  a ∈ V →
  touched V s (set_arc_to_wires (<[a := wires_of (arc_to_wires s) a]> (arc_to_wires s)) s).
Proof.
  intros Ha. split; [done|]. split; [done|]. split; [|split]; simpl.
  - intros a'. apply wires_of_touch.
  - intros a' Hs. destruct (decide (a = a')) as [->|].
    + by rewrite lookup_insert_eq.
    + by rewrite lookup_insert_ne.
  - intros a' Hs. destruct (decide (a = a')) as [->|]; [by right|].
    left. by rewrite lookup_insert_ne in Hs.
Qed.

Lemma wire_ok_touched V s s' net arc w :
  touched V s s' → wire_ok s' net arc w ↔ wire_ok s net arc w.
Proof. intros (C1 & A1 & _). unfold wire_ok. by rewrite C1, A1. Qed.

Lemma check_wire_decides net arc vw wire s :
  decides (check_wire net arc vw wire s) (wire_ok s net arc wire)
          (λ v s', v = {[wire]} ∪ vw ∧ touched ∅ s s').
Proof.
  unfold check_wire, touch_wire.
  set (s1 := set_wire_to_arcs (<[wire := arcs_of (wire_to_arcs s) wire]> (wire_to_arcs s)) s).
  assert (Ht : touched ∅ s s1) by apply touched_touch_wire.
  change (decides
    ((log_assert (bool_decide (arc ∈ arcs_of (wire_to_arcs s1) wire)) ≫= λ _,
      log_assert (bool_decide (is_Some (wires (deref (ctx s1) net) !! wire))) ≫= λ _,
      mret ({[wire]} ∪ vw)) s1)
    (wire_ok s net arc wire) (λ v s', v = {[wire]} ∪ vw ∧ touched ∅ s s')).
  eapply decides_weaken.
  - eapply decides_bind; [apply decides_log_assert|]. intros _ s2 _ ->.
    eapply decides_bind; [apply decides_log_assert|]. intros _ s2 _ ->.
    apply decides_ret.
  - rewrite !bool_decide_eq_true, <- (wire_ok_touched _ _ _ _ _ _ Ht). unfold wire_ok.
    tauto.
  - intros v s' _ [-> ->]. done.
Qed.

Lemma check_wires_decides net arc (l : list Z) vw s :
  decides (foldM (check_wire net arc) l vw s) (∀ w, w ∈ l → wire_ok s net arc w)
          (λ v s', v = list_to_set l ∪ vw ∧ touched ∅ s s').
Proof.
  revert vw s. induction l as [|w l IH]; intros vw s; simpl.
  - split; [by intros ? ?%elem_of_nil|]. split; [set_solver | apply touched_refl].
  - eapply decides_weaken.
    + eapply decides_bind
        with (P2 := ∀ w', w' ∈ l → wire_ok s net arc w')
             (Q2 := λ v s2, v = list_to_set (w :: l) ∪ vw ∧ touched ∅ s s2);
        [apply check_wire_decides|].
      intros v s1 _ [-> Ht].
      eapply decides_weaken; [apply IH | |].
      * split; intros H w' Hw'; [rewrite <- wire_ok_touched | rewrite wire_ok_touched];
          eauto.
      * intros v s2 _ [-> Ht2]. split; [set_solver | by eapply touched_trans].
    + split.
      * intros [H1 H2] w' [->|?]%elem_of_cons; auto.
      * intros H. split; [apply H; by left | intros w' ?; apply H; by right].
    + done.
Qed.

Lemma decides_get {T} (f : Router1 → M T) s P Q :
  decides (f s s) P Q → decides ((get ≫= f) s) P Q.
Proof. done. Qed.

Lemma decides_modify {T} (g : Router1 → Router1) (f : unit → M T) s P Q :
  decides (f tt (g s)) P Q → decides ((modify g ≫= f) s) P Q.
Proof. done. Qed.

Lemma decides_map {T U} (m : M T) (g : T → U) s P Q :
  decides (m s) P Q →
  decides ((m ≫= λ v, mret (g v)) s) P (λ v' s', ∃ v, v' = g v ∧ Q v s').
Proof.
  rewrite bind_unfold. destruct (m s) as [[v|e|] s1]; simpl; [|done|done].
  intros [? ?]. eauto.
Qed.

Lemma decides_for_each {T} (body : T → M unit) (Px : T → Prop) (l : list T) s :
  (∀ x s, decides (body x s) (Px x) (λ _ s', s' = s)) →
  decides (for_each l body s) (∀ x, x ∈ l → Px x) (λ _ s', s' = s).
Proof.
  intros Hb. induction l as [|x l IH]; simpl.
  - split; [by intros ? ?%elem_of_nil | done].
  - eapply decides_weaken.
    + eapply decides_bind with (P2 := ∀ y, y ∈ l → Px y) (Q2 := λ _ s', s' = s);
        [apply Hb|]. by intros _ s1 _ ->.
    + split.
      * intros [H1 H2] y [->|?]%elem_of_cons; auto.
      * intros H. split; [apply H; by left | intros y ?; apply H; by right].
    + done.
Qed.

Lemma user_ok_touched V s s' net i u :
  touched V s s' → user_ok s' net i u ↔ user_ok s net i u.
Proof.
  intros Ht. pose proof Ht as (C1 & A1 & W1 & _). unfold user_ok.
  rewrite C1, W1. by setoid_rewrite (wire_ok_touched _ _ _ _ _ _ Ht).
Qed.

Lemma check_user_decides net acc i u s :
  decides (check_user net acc (i, u) s) (user_ok s net i u)
          (λ v s', v = ({[mk_arc_key net i]} ∪ acc.1,
                        wires_of (arc_to_wires s) (mk_arc_key net i) ∪ acc.2)
                   ∧ touched {[mk_arc_key net i]} s s').
Proof.
  unfold check_user, touch_arc. apply decides_get. simpl.
  eapply decides_weaken.
  - eapply decides_bind
      with (P2 := ∀ w, w ∈ wires_of (arc_to_wires s) (mk_arc_key net i) →
                       wire_ok s net (mk_arc_key net i) w)
           (Q2 := λ v s', v = ({[mk_arc_key net i]} ∪ acc.1,
                               wires_of (arc_to_wires s) (mk_arc_key net i) ∪ acc.2)
                          ∧ touched {[mk_arc_key net i]} s s');
      [apply decides_log_assert|].
    intros _ s1 _ ->. apply decides_modify.
    set (s1 := set_arc_to_wires _ s).
    assert (Ht : touched {[mk_arc_key net i]} s s1)
      by (apply touched_touch_arc; set_solver).
    eapply decides_weaken.
    + apply decides_map, check_wires_decides.
    + split.
      * intros H w Hw. rewrite <- (wire_ok_touched _ _ _ _ _ _ Ht). apply H.
        by apply elem_of_elements.
      * intros H w Hw%elem_of_elements.
        rewrite (wire_ok_touched _ _ _ _ _ _ Ht). by apply H.
    + intros v s2 _ (vw & -> & -> & Ht2). split.
      * f_equal. set_solver.
      * eapply touched_trans; [done|]. eapply touched_mono; [|done]. set_solver.
  - rewrite bool_decide_eq_true. unfold user_ok. done.
  - done.
Qed.

Lemma wires_of_index (m : gmap arc_key (gset Z)) net i j w :
  i = j → w ∈ wires_of m (mk_arc_key net i) → w ∈ wires_of m (mk_arc_key net j).
Proof. by intros ->. Qed.

Lemma user_ok_index s net i j u : i = j → user_ok s net i u → user_ok s net j u.
Proof. by intros ->. Qed.

Lemma check_users_decides net (us : list PortRef) n acc s :
  decides (foldM (check_user net) (imap (λ i u, ((n + i)%nat, u)) us) acc s)
          (∀ i u, us !! i = Some u → user_ok s net (n + i) u)
          (λ v s',
             (∀ a, a ∈ v.1 ↔ a ∈ acc.1
                             ∨ (net_info a = net
                                ∧ (n ≤ user_idx a < n + length us)%nat))
             ∧ (∀ w, w ∈ v.2 ↔ w ∈ acc.2
                               ∨ ∃ i, (i < length us)%nat
                                      ∧ w ∈ wires_of (arc_to_wires s)
                                                     (mk_arc_key net (n + i)))
             ∧ touched v.1 s s').
Proof.
  revert n acc s. induction us as [|u us IH]; intros n acc s; simpl.
  - split; [by intros ? ? ?|]. split; [|split; [|apply touched_refl]].
    + intros a. split; [by left | intros [?|[_ ?]]; [done | lia]].
    + intros w. split; [by left | intros [?|(? & ? & _)]; [done | lia]].
  - rewrite (imap_ext _ (λ i u, ((S n + i)%nat, u))) by (intros; simpl; f_equal; lia).
    rewrite Nat.add_0_r.
    eapply decides_weaken.
    + eapply decides_bind
        with (P2 := ∀ i u', us !! i = Some u' → user_ok s net (S n + i) u')
             (Q2 := λ v s',
                (∀ a, a ∈ v.1 ↔ a ∈ acc.1
                                ∨ (net_info a = net
                                   ∧ (n ≤ user_idx a < n + S (length us))%nat))
                ∧ (∀ w, w ∈ v.2 ↔ w ∈ acc.2
                                  ∨ ∃ i, (i < S (length us))%nat
                                         ∧ w ∈ wires_of (arc_to_wires s)
                                                        (mk_arc_key net (n + i)))
                ∧ touched v.1 s s');
        [apply check_user_decides|].
      intros v s1 _ [-> Ht]. pose proof Ht as (_ & _ & W1 & _).
      eapply decides_weaken; [apply IH | |].
      * split; intros H i u' Hi;
          [rewrite <- user_ok_touched | rewrite user_ok_touched]; eauto.
      * intros v s2 _ (Hv1 & Hv2 & Ht2). simpl in *. split; [|split].
        -- intros a. rewrite Hv1. destruct a as [an ai]. simpl.
           rewrite elem_of_union, elem_of_singleton. split.
           ++ intros [[[= -> ->]|?]|[-> ?]]; [right; split; [done|lia] | by left |].
              right. split; [done|lia].
           ++ intros [?|[-> ?]]; [by left; right|].
              destruct (decide (ai = n)) as [->|]; [by left; left|].
              right. split; [done|lia].
        -- intros w. rewrite Hv2, elem_of_union. split.
           ++ intros [[?|?]|(i & ? & Hw)]; [right; exists 0%nat | by left |].
              ** split; [lia|]. eapply wires_of_index; [|done]. lia.
              ** right. exists (S i). split; [lia|]. rewrite W1 in Hw.
                 eapply wires_of_index; [|done]. lia.
           ++ intros [?|(i & ? & Hw)]; [by left; right|]. destruct i as [|i].
              ** left; left. eapply wires_of_index; [|done]. lia.
              ** right. exists i. split; [lia|]. rewrite W1.
                 eapply wires_of_index; [|done]. lia.
        -- eapply touched_trans; [|done]. eapply touched_mono; [|done].
           intros a ->%elem_of_singleton. apply Hv1. left.
           rewrite elem_of_union, elem_of_singleton. by left.
    + split.
      * intros [H1 H2] [|i] u' Hi; simpl in Hi.
        -- simplify_eq. eapply user_ok_index; [|done]. lia.
        -- eapply user_ok_index; [|by apply H2]. lia.
      * intros H. split.
        -- specialize (H 0%nat u eq_refl). eapply user_ok_index; [|done]. lia.
        -- intros i u' Hi. specialize (H (S i) u' Hi).
           eapply user_ok_index; [|done]. lia.
    + done.
Qed.

Lemma decides_assert_loop {T} (b : T → bool) (l : list T) s :
  decides (for_each l (λ x, log_assert (b x)) s) (∀ x, x ∈ l → b x = true)
          (λ _ s', s' = s).
Proof. apply decides_for_each. intros x s0. apply decides_log_assert. Qed.

Lemma net_ok_touched V s s' net : touched V s s' → net_ok s' net ↔ net_ok s net.
Proof.
  intros Ht. pose proof Ht as (C1 & A1 & W1 & _). unfold net_ok. rewrite C1.
  setoid_rewrite (user_ok_touched _ _ _ _ _ _ Ht). by setoid_rewrite W1.
Qed.

Lemma check_net_decides valid_arcs net s :
  decides (check_net valid_arcs net s) (net_ok s net)
          (λ v s',
             (∀ a, a ∈ v ↔ a ∈ valid_arcs
                           ∨ (skip_net (deref (ctx s) net) = false
                              ∧ net_info a = net
                              ∧ (user_idx a < length (users (deref (ctx s) net)))%nat))
             ∧ touched v s s').
Proof.
  unfold check_net. apply decides_get. cbv zeta. unfold net_ok.
  destruct (skip_net (deref (ctx s) net)) eqn:Hskip.
  { split; [done|]. split; [|apply touched_refl]. intros a. naive_solver. }
  eapply decides_weaken.
  - eapply decides_bind
      with (P2 := (∀ i u, users (deref (ctx s) net) !! i = Some u → user_ok s net i u)
                  ∧ (∀ w, is_Some (wires (deref (ctx s) net) !! w) →
                          ∃ i, (i < length (users (deref (ctx s) net)))%nat
                               ∧ w ∈ wires_of (arc_to_wires s) (mk_arc_key net i)))
           (Q2 := λ v s',
              (∀ a, a ∈ v ↔ a ∈ valid_arcs
                            ∨ (false = false ∧ net_info a = net
                               ∧ (user_idx a < length (users (deref (ctx s) net)))%nat))
              ∧ touched v s s');
      [apply decides_log_assert|].
    intros _ s1 _ ->.
    eapply decides_bind
      with (P2 := ∀ w, is_Some (wires (deref (ctx s) net) !! w) →
                       ∃ i, (i < length (users (deref (ctx s) net)))%nat
                            ∧ w ∈ wires_of (arc_to_wires s) (mk_arc_key net i));
      [apply (check_users_decides net _ 0%nat)|].
    intros acc s1 _ (Hv1 & Hv2 & Ht). simpl in *.
    eapply decides_weaken.
    + apply decides_map, decides_assert_loop.
    + split.
      * intros H w [it Hw]. specialize (H (w, it)). simpl in H.
        apply bool_decide_eq_true, Hv2 in H.
        -- destruct H as [H|H]; [set_solver | done].
        -- by apply elem_of_map_to_list.
      * intros H [w it] Hw%elem_of_map_to_list. simpl. apply bool_decide_eq_true, Hv2.
        right. apply H. by eexists.
    + intros v s2 _ ([] & -> & ->). split; [|done].
      intros a. rewrite Hv1. intuition lia.
  - rewrite bool_decide_eq_true. split.
    + by intros (? & ? & ?) _.
    + intros H. by destruct (H eq_refl) as (? & ? & ?).
  - done.
Qed.

Lemma check_nets_decides (l : list nat) valid_arcs s :
  decides (foldM check_net l valid_arcs s) (∀ net, net ∈ l → net_ok s net)
          (λ v s',
             (∀ a, a ∈ v ↔ a ∈ valid_arcs
                           ∨ (net_info a ∈ l
                              ∧ skip_net (deref (ctx s) (net_info a)) = false
                              ∧ (user_idx a
                                 < length (users (deref (ctx s) (net_info a))))%nat))
             ∧ touched v s s').
Proof.
  revert valid_arcs s. induction l as [|net l IH]; intros valid_arcs s; simpl.
  - split; [by intros ? ?%elem_of_nil|]. split; [|apply touched_refl].
    intros a. split; [by left | intros [?|[?%elem_of_nil _]]; done].
  - eapply decides_weaken.
    + eapply decides_bind
        with (P2 := ∀ net', net' ∈ l → net_ok s net')
             (Q2 := λ v s',
                (∀ a, a ∈ v ↔ a ∈ valid_arcs
                              ∨ (net_info a ∈ net :: l
                                 ∧ skip_net (deref (ctx s) (net_info a)) = false
                                 ∧ (user_idx a
                                    < length (users (deref (ctx s) (net_info a))))%nat))
                ∧ touched v s s');
        [apply check_net_decides|].
      intros v1 s1 _ (Hv1 & Ht). pose proof Ht as (C1 & _).
      eapply decides_weaken; [apply IH | |].
      * split; intros H net' Hn;
          [rewrite <- net_ok_touched | rewrite net_ok_touched]; eauto.
      * intros v s2 _ (Hv & Ht2). rewrite C1 in Hv. split.
        -- intros a. rewrite Hv, Hv1, elem_of_cons. split.
           ++ intros [[?|(Hs & <- & Hl)]|(? & ? & ?)];
                [by left | right; split; [by left | done] | right; split; [by right | done]].
           ++ intros [?|([<-|?] & ? & ?)];
                [by left; left | by left; right | by right].
        -- eapply touched_trans; [|done]. eapply touched_mono; [|done].
           intros a Ha. apply Hv. by left.
    + split.
      * intros [H1 H2] net' [->|?]%elem_of_cons; auto.
      * intros H. split; [apply H; by left | intros net' ?; apply H; by right].
    + done.
Qed.

(** X15: [check] returns exactly when the books are consistent with the
    netlist: every net that is not skipped has a source wire, every user a
    sink wire, every wire of an arc knows the arc and is bound to the net
    of the arc, every wire bound to the net is a wire of one of its arcs,
    and the index mentions the arcs of those nets only.  Otherwise it fails
    by [log_assert].  Either way the context and the trace are as before;
    when it returns, the arcs of every wire and the wires of every arc are
    as before (it may have created empty entries). *)
Theorem check_passes_iff_books_consistent s :
  match check s with
  | (Ret _, s') =>
      books_consistent s
      ∧ ctx s' = ctx s ∧ trace s' = trace s
      ∧ (∀ w, arcs_of (wire_to_arcs s') w = arcs_of (wire_to_arcs s) w)
      ∧ (∀ a, wires_of (arc_to_wires s') a = wires_of (arc_to_wires s) a)
  | (Throw e, s') =>
      e = log_execution_error_exception ∧ ¬ books_consistent s
      ∧ ctx s' = ctx s ∧ trace s' = trace s
  | (OutOfFuel, _) => False
  end.
Proof.
  assert (Hd : decides (check s) (books_consistent s)
                       (λ _ s', ∃ V, touched V s s')).
  { unfold check. apply decides_get.
    eapply decides_weaken.
    - eapply decides_bind
        with (P2 := (∀ w a, a ∈ arcs_of (wire_to_arcs s) w → valid_arc (ctx s) a)
                    ∧ (∀ a, is_Some (arc_to_wires s !! a) → valid_arc (ctx s) a))
             (Q2 := λ _ s', ∃ V, touched V s s');
        [apply check_nets_decides|].
      intros v s1 _ (Hv & Ht). apply decides_get.
      pose proof Ht as (C1 & A1 & W1 & K1 & L1).
      assert (Hvalid : ∀ a, a ∈ v ↔ valid_arc (ctx s) a).
      { intros a. rewrite Hv. unfold valid_arc. set_solver. }
      eapply decides_weaken.
      + eapply decides_bind
          with (P2 := ∀ it, it ∈ map_to_list (arc_to_wires s1) →
                            bool_decide (it.1 ∈ v) = true)
               (Q2 := λ _ s', s' = s1).
        * apply (decides_for_each _
                   (λ it, ∀ arc, arc ∈ elements it.2 → bool_decide (arc ∈ v) = true)).
          intros it s0. apply decides_assert_loop.
        * intros _ s2 _ ->. apply decides_assert_loop.
      + split.
        * intros [H1 H2]. split.
          -- intros w a Ha. apply Hvalid. rewrite <- A1 in Ha. unfold arcs_of in Ha.
             destruct (wire_to_arcs s1 !! w) as [X|] eqn:HX; [|set_solver].
             specialize (H1 (w, X)). simpl in *.
             eapply bool_decide_eq_true, H1; [by apply elem_of_map_to_list|].
             by apply elem_of_elements.
          -- intros a Ha%K1. apply Hvalid. destruct Ha as [X HX].
             specialize (H2 (a, X)). simpl in *.
             eapply bool_decide_eq_true, H2. by apply elem_of_map_to_list.
        * intros [H1 H2]. split.
          -- intros [w X] HX%elem_of_map_to_list a Ha%elem_of_elements. simpl in *.
             apply bool_decide_eq_true, Hvalid, (H1 w). rewrite <- A1.
             unfold arcs_of. by rewrite HX.
          -- intros [a X] HX%elem_of_map_to_list. simpl.
             apply bool_decide_eq_true. destruct (L1 a) as [?|?]; [by eexists| |done].
             by apply Hvalid, H2.
      + intros _ s2 _ ->. by exists v.
    - unfold books_consistent. tauto.
    - done. }
  pose proof (harmless_check s) as Hh.
  destruct (check s) as [[[]|e|] s'] eqn:Hrun; simpl in Hd; [| |done].
  - destruct Hd as [Hb (V & C1 & A1 & W1 & _)].
    destruct (Hh _ _ eq_refl) as (_ & _ & T). done.
  - destruct Hd as [-> Hb]. destruct (Hh _ _ eq_refl) as (_ & C & T). done.
Qed.

End CheckSpec.

Section Verdicts.
Context `{A : Arch}.

(** ** The verdict of the validator *)

Lemma checkRoutedDesign_nets_verdict fuel c (l : list nat) :
  (∀ net, net ∈ l → (size (wires (deref c net)) + 2 ≤ fuel)%nat) →
  match checkRoutedDesign_nets fuel c l with
  | Ret true => ∀ net, net ∈ l → net_asserts c net ∧ net_valid c net
  | Ret false =>
      ∃ l1 net l2, l = l1 ++ net :: l2
                   ∧ (∀ n, n ∈ l1 → net_asserts c n ∧ net_valid c n)
                   ∧ net_asserts c net ∧ ¬ net_valid c net
  | Throw e =>
      e = log_execution_error_exception
      ∧ ∃ l1 net l2, l = l1 ++ net :: l2
                     ∧ (∀ n, n ∈ l1 → net_asserts c n ∧ net_valid c n)
                     ∧ ¬ net_asserts c net
  | OutOfFuel => False
  end.
Proof.
  induction l as [|net l IH]; intros Hfuel; simpl.
  { by intros ? ?%elem_of_nil. }
  pose proof (checkRoutedDesign_net_spec fuel c net (Hfuel net ltac:(left))) as Hnet.
  destruct (checkRoutedDesign_net fuel c net) as [[|]|e|]; [| | |done].
  - destruct Hnet as [Ha Hv]. specialize (IH ltac:(intros ? ?; apply Hfuel; by right)).
    assert (Hhead : ∀ n, n ∈ [net] → net_asserts c n ∧ net_valid c n).
    { intros n ->%list_elem_of_singleton. split; [done | by apply Hv]. }
    destruct (checkRoutedDesign_nets fuel c l) as [[|]|e|]; [| | |done].
    + intros n [->|?]%elem_of_cons; [by apply Hhead, list_elem_of_singleton | by apply IH].
    + destruct IH as (l1 & n & l2 & -> & Hl1 & Hn). exists (net :: l1), n, l2.
      split; [done|]. split; [|done].
      intros n' [->|?]%elem_of_cons; [by apply Hhead, list_elem_of_singleton | by apply Hl1].
    + destruct IH as (-> & l1 & n & l2 & -> & Hl1 & Hn). split; [done|].
      exists (net :: l1), n, l2. split; [done|]. split; [|done].
      intros n' [->|?]%elem_of_cons; [by apply Hhead, list_elem_of_singleton | by apply Hl1].
  - destruct Hnet as [Ha Hv]. exists [], net, l. split; [done|].
    split; [by intros ? ?%elem_of_nil|]. split; [done|]. intros ?%Hv. done.
  - destruct Hnet as [-> Hna]. split; [done|]. exists [], net, l. split; [done|].
    split; [by intros ? ?%elem_of_nil | done].
Qed.

(** X16: the first net (in the order of [ctx->nets]) that the validator
    does not pass decides its verdict: [checkRoutedDesign] fails by
    [log_assert] if that net breaks an assertion, and returns false if it
    meets the assertions and is not validly routed; the nets after it are
    not looked at.  With no such net it returns true. *)
Theorem checkRoutedDesign_stops_at_first_bad_net fuel c :
  (∀ net, net ∈ nets c → (size (wires (deref c net)) + 2 ≤ fuel)%nat) →
  match checkRoutedDesign fuel c with
  | Ret true => ∀ net, net ∈ nets c → net_asserts c net ∧ net_valid c net
  | Ret false => first_bad_net c (λ net, net_asserts c net ∧ ¬ net_valid c net)
  | Throw e =>
      e = log_execution_error_exception
      ∧ first_bad_net c (λ net, ¬ net_asserts c net)
  | OutOfFuel => False
  end.
Proof.
  intros Hfuel. pose proof (checkRoutedDesign_nets_verdict fuel c (nets c) Hfuel) as H.
  unfold checkRoutedDesign, first_bad_net.
  destruct (checkRoutedDesign_nets fuel c (nets c)) as [[|]|e|]; [done| | |done].
  - destruct H as (l1 & n & l2 & ? & ? & ?). by exists l1, n, l2.
  - destruct H as (-> & l1 & n & l2 & ? & ? & ?). split; [done|]. by exists l1, n, l2.
Qed.

(** ** What [router1] has done when it returns true *)

Lemma router1_loop_true fuel ndebug cfg it s s' :
  router1_loop fuel ndebug cfg it s = (Ret true, s') →
  arc_queue s' = [] ∧ emits not_warning s s'.
Proof.
  revert it s. induction fuel as [|fuel IH]; intros it s Hrun; simpl in Hrun.
  - apply bind_Ret in Hrun as (? & ? & [-> ->]%get_Ret & Hrun).
    destruct (arc_queue s) eqn:Hq; [|done].
    apply mret_Ret in Hrun as [_ ->]. split; [done | reflexivity].
  - apply bind_Ret in Hrun as (? & ? & [-> ->]%get_Ret & Hrun).
    destruct (arc_queue s) eqn:Hq.
    { apply mret_Ret in Hrun as [_ ->]. split; [done | reflexivity]. }
    apply bind_Ret in Hrun as ([] & s1 & H1 & Hrun).
    apply bind_Ret in Hrun as (arc & s2 & H2 & Hrun).
    apply bind_Ret in Hrun as (ok & s3 & H3 & Hrun).
    apply (iteration_check_emits not_warning) in H1.
    apply (arc_queue_pop_emits not_warning) in H2.
    apply (route_arc_emits not_warning) in H3; try (by intros).
    destruct ok.
    + apply IH in Hrun as [? H4]. split; [done|].
      etrans; [|done]. etrans; [|done]. by etrans.
    + apply bind_Ret in Hrun as ([] & ? & _ & Hrun).
      apply bind_Ret in Hrun as ([] & ? & _ & Hrun).
      apply bind_Ret in Hrun as ([] & ? & _ & Hrun).
      by apply mret_Ret in Hrun as [? _].
Qed.

Lemma router1_catch_false ndebug s s' : router1_catch ndebug s ≠ (Ret true, s').
Proof.
  unfold router1_catch. intros Hrun.
  apply bind_Ret in Hrun as ([] & ? & _ & Hrun).
  apply bind_Ret in Hrun as ([] & ? & _ & Hrun).
  by apply mret_Ret in Hrun as [? _].
Qed.

(** X17: when [router1] returns true the work queue is empty, no
    warning that an arc could not be routed was issued, and the context is
    what [timing_analysis] made of the routed context; unless [NDEBUG] is
    defined, the routed context passed [ctx->check()] and
    [checkRoutedDesign]. *)
Theorem router1_true_means_routed_and_checked fuel ndebug cfg c s' :
  router1 fuel ndebug cfg c = (Ret true, s') →
  arc_queue s' = [] ∧ queued_arcs s' = ∅
  ∧ (∀ a, EvWarnNoRoute a ∉ trace s')
  ∧ ∃ c1, ctx s' = timing_analysis c1
          ∧ (ndebug = false →
             ctx_check c1 = true ∧ checkRoutedDesign fuel c1 = Ret true).
Proof.
  unfold router1. intros Hrun.
  destruct (router1_try fuel ndebug cfg (Router1_new c)) as [r s1] eqn:Htry.
  assert (r = Ret true ∧ s1 = s') as [-> ->].
  { destruct r as [b|e|]; simpl in Hrun; [by simplify_eq | | done].
    destruct e; try done. by apply router1_catch_false in Hrun. }
  clear Hrun.
  pose proof (respects_router1_try keeps_queue_inv fuel ndebug cfg _ _ _ Htry
                (queue_inv_new c)) as [_ Hq].
  unfold router1_try in Htry.
  apply bind_Ret in Htry as ([] & s1 & H1 & Htry).
  apply bind_Ret in Htry as (ok & s2 & H2 & Htry).
  destruct ok; [|by apply mret_Ret in Htry as [? _]].
  apply router1_loop_true in H2 as [Hempty (t2 & T2 & F2)].
  apply (router1_enter_emits not_warning) in H1 as (t1 & T1 & F1); [|done].
  simpl in T1.
  apply bind_Ret in Htry as ([] & s3 & H3 & Htry).
  apply bind_Ret in Htry as ([] & s4 & ->%modify_Ret & Htry).
  apply bind_Ret in Htry as ([] & s5 & ->%modify_Ret & [_ ->]%mret_Ret).
  simpl in *.
  assert (H23 : arc_queue s3 = arc_queue s2 ∧ trace s3 = trace s2 ∧ ctx s3 = ctx s2
                ∧ (ndebug = false →
                   ctx_check (ctx s2) = true
                   ∧ checkRoutedDesign fuel (ctx s2) = Ret true)).
  { destruct ndebug.
    - by apply mret_Ret in H3 as [_ ->].
    - apply bind_Ret in H3 as ([] & s30 & Hc & H3).
      pose proof (neutral_check _ _ _ Hc) as (_ & [Q1 _] & _).
      apply harmless_check in Hc as (_ & C1 & Tr1).
      apply bind_Ret in H3 as ([] & s31 & Hcc & H3).
      unfold call_ctx_check in Hcc.
      apply bind_Ret in Hcc as (? & ? & [-> ->]%get_Ret & [Hok ->]%log_assert_Ret).
      unfold call_checkRoutedDesign in H3.
      apply bind_Ret in H3 as (? & ? & [-> ->]%get_Ret & H3).
      destruct (checkRoutedDesign fuel (ctx s30)) as [b| |] eqn:Hcrd; [|done|done].
      apply log_assert_Ret in H3 as [-> ->]. rewrite C1 in *. done. }
  destruct H23 as (Q3 & T3 & C3 & Hdbg).
  split; [congruence|]. split.
  - apply set_eq. intros a. rewrite Hq, Q3, Hempty. set_solver.
  - split.
    + intros a. rewrite T3, T2, T1. rewrite !elem_of_app, elem_of_cons.
      rewrite Forall_forall in F1, F2.
      intros [[[?|?]|?]|?%list_elem_of_singleton]; try done.
      * by eapply F1.
      * by eapply F2.
    + exists (ctx s2). rewrite C3. done.
Qed.

End Verdicts.

Section Edges.
Context `{A : Arch}.

(** ** Nothing to route, and a net that cannot be set up *)

Lemma foldM_cons {T U} (body : U → T → M U) x (l : list T) u :
  foldM body (x :: l) u = body u x ≫= λ u', foldM body l u'.
Proof. done. Qed.

Lemma setup_nets_skipped fuel (l : list nat) maps s :
  (∀ net, net ∈ l → skip_net (deref (ctx s) net) = true) →
  foldM (setup_net fuel) l maps s = (Ret maps, s).
Proof.
  induction l as [|net l IH]; intros Hskip; [done|]. rewrite foldM_cons.
  rewrite (bind_run _ _ _ maps s); [apply IH; intros; apply Hskip; by right|].
  unfold setup_net. rewrite bind_unfold. simpl. by rewrite Hskip by left.
Qed.

Lemma check_nets_skipped (l : list nat) v s :
  (∀ net, net ∈ l → skip_net (deref (ctx s) net) = true) →
  foldM check_net l v s = (Ret v, s).
Proof.
  induction l as [|net l IH]; intros Hskip; [done|]. rewrite foldM_cons.
  rewrite (bind_run _ _ _ v s); [apply IH; intros; apply Hskip; by right|].
  unfold check_net. rewrite bind_unfold. simpl. by rewrite Hskip by left.
Qed.

Lemma check_skipped s :
  (∀ net, net ∈ nets (ctx s) → skip_net (deref (ctx s) net) = true) →
  wire_to_arcs s = ∅ → arc_to_wires s = ∅ →
  check s = (Ret tt, s).
Proof.
  intros Hskip HW HA. unfold check. rewrite bind_unfold. simpl.
  rewrite (bind_run _ _ _ ∅ s) by (by apply check_nets_skipped).
  rewrite bind_unfold. simpl. by rewrite HW, HA, !map_to_list_empty.
Qed.

Lemma setup_skipped fuel s :
  (∀ net, net ∈ nets (ctx s) → skip_net (deref (ctx s) net) = true) →
  setup fuel s = (Ret tt, s).
Proof.
  intros Hskip. unfold setup. rewrite (bind_run _ _ _ s s) by done.
  by rewrite (bind_run _ _ _ (mk_setup_maps ∅ ∅) s) by (by apply setup_nets_skipped).
Qed.

(** X18: when every net is skipped (no cell drives it) [router1] returns
    true, for any bound on its loops, having called nothing but [lock],
    the timing analysis and [unlock], with every book of the router empty;
    in a build that checks, provided the context passes [ctx->check()] and
    [checkRoutedDesign]. *)
Theorem router1_with_nothing_to_route fuel ndebug cfg c :
  (∀ net, net ∈ nets c → skip_net (deref c net) = true) →
  (ndebug = false → ctx_check c = true ∧ checkRoutedDesign fuel c = Ret true) →
  router1 fuel ndebug cfg c
  = (Ret true, emit EvUnlock (set_ctx (timing_analysis c) (emit EvLock (Router1_new c)))).
Proof.
  intros Hskip Hdbg. unfold router1, router1_try.
  set (s0 := emit EvLock (Router1_new c)).
  assert (Hcheck : check s0 = (Ret tt, s0)) by (by apply check_skipped).
  assert (Henter : router1_enter fuel ndebug (Router1_new c) = (Ret tt, s0)).
  { unfold router1_enter. rewrite (bind_run _ _ _ tt s0) by done.
    rewrite (bind_run _ _ _ tt s0) by (by apply setup_skipped).
    by destruct ndebug. }
  rewrite (bind_run _ _ _ tt s0 Henter).
  assert (Hloop : router1_loop fuel ndebug cfg 0 s0 = (Ret true, s0)) by (by destruct fuel).
  rewrite (bind_run _ _ _ true s0 Hloop).
  destruct ndebug.
  - done.
  - destruct (Hdbg eq_refl) as [Hc Hv].
    assert (Hdebug : (check;; call_ctx_check;; call_checkRoutedDesign fuel) s0
                     = (Ret tt, s0)).
    { rewrite (bind_run _ _ _ tt s0 Hcheck).
      rewrite (bind_run _ _ _ tt s0).
      - unfold call_checkRoutedDesign. rewrite (bind_run _ _ _ s0 s0) by done.
        change (ctx s0) with c. by rewrite Hv.
      - unfold call_ctx_check. rewrite (bind_run _ _ _ s0 s0) by done.
        change (ctx s0) with c. by rewrite Hc. }
    by rewrite (bind_run _ _ _ tt s0 Hdebug).
Qed.

(** [setup] gives up at the first net it does not skip when that net has
    no source wire, or its first user, on a cell, no sink wire. *)
Lemma setup_missing_wire fuel (l1 : list nat) net (l2 : list nat) maps s :
  (∀ n, n ∈ l1 → skip_net (deref (ctx s) n) = true) →
  skip_net (deref (ctx s) net) = false →
  src_to_net maps = ∅ → dst_to_arc maps = ∅ →
  getNetinfoSourceWire (ctx s) net = WireId_none
  ∨ (∃ u us, users (deref (ctx s) net) = u :: us
             ∧ is_Some (cell u)
             ∧ getNetinfoSinkWire (ctx s) net u = WireId_none) →
  foldM (setup_net fuel) (l1 ++ net :: l2) maps s
  = (Throw log_execution_error_exception, s).
Proof.
  intros Hl1 Hnet Hsrc Hdst Hbad.
  induction l1 as [|n l1 IH]; simpl app; rewrite foldM_cons.
  - rewrite bind_unfold. unfold setup_net at 1. rewrite bind_unfold. simpl.
    rewrite Hnet. destruct Hbad as [->|(u & us & Hus & [k Hk] & Hu)]; [done|].
    case_decide; [done|]. rewrite Hsrc, Hdst, !lookup_empty.
    rewrite decide_False by (by intros [? ?]).
    rewrite decide_False by (by intros [? ?]).
    unfold indexed_users. rewrite Hus. simpl. rewrite !bind_unfold.
    unfold setup_user at 1. rewrite bind_unfold. simpl. by rewrite Hu, Hk.
  - rewrite (bind_run _ _ _ maps s).
    + apply IH. intros; apply Hl1; by right.
    + unfold setup_net. rewrite bind_unfold. simpl. by rewrite Hl1 by left.
Qed.

Lemma setup_throws fuel s e s' :
  foldM (setup_net fuel) (nets (ctx s)) (mk_setup_maps ∅ ∅) s = (Throw e, s') →
  setup fuel s = (Throw e, s').
Proof.
  intros H. unfold setup. rewrite (bind_run _ _ _ s s) by done.
  by rewrite bind_unfold, H.
Qed.

(** X19: when the first net that [setup] does not skip has no source
    wire, or its first user is on a cell and has no sink wire, [router1]
    returns false: the [log_error] of [setup] is caught, the context is
    unlocked, and nothing was bound, unbound or queued (in a build that
    checks, provided [ctx->check()] passes).  The user has to be on a
    cell: the message of the [log_error] reads the name of the cell. *)
Theorem router1_returns_false_on_missing_wire fuel ndebug cfg c l1 net l2 :
  nets c = l1 ++ net :: l2 →
  (∀ n, n ∈ l1 → skip_net (deref c n) = true) →
  skip_net (deref c net) = false →
  getNetinfoSourceWire c net = WireId_none
  ∨ (∃ u us, users (deref c net) = u :: us
             ∧ is_Some (cell u)
             ∧ getNetinfoSinkWire c net u = WireId_none) →
  (ndebug = false → ctx_check c = true) →
  router1 fuel ndebug cfg c = (Ret false, emit EvUnlock (emit EvLock (Router1_new c))).
Proof.
  intros Hnets Hl1 Hnet Hbad Hdbg. unfold router1, router1_try.
  set (s0 := emit EvLock (Router1_new c)).
  assert (Henter : router1_enter fuel ndebug (Router1_new c)
                   = (Throw log_execution_error_exception, s0)).
  { unfold router1_enter. rewrite (bind_run _ _ _ tt s0) by done.
    rewrite bind_unfold, (setup_throws fuel s0 log_execution_error_exception s0); [done|].
    change (nets (ctx s0)) with (nets c). rewrite Hnets.
    by apply setup_missing_wire. }
  rewrite bind_unfold, Henter. simpl. unfold router1_catch.
  destruct ndebug.
  - done.
  - unfold call_ctx_check. rewrite (bind_run _ _ _ tt s0); [done|].
    rewrite (bind_run _ _ _ s0 s0) by done. change (ctx s0) with c.
    by rewrite (Hdbg eq_refl).
Qed.

(** ** The search leaves the routing alone *)

Global Instance searches_preorder : PreOrder searches.
Proof.
  split.
  - intros s. split; [done|]. split; [done|]. split; [done|]. by exists 0%nat.
  - intros s1 s2 s3 (S1 & C1 & D1 & k1 & K1) (S2 & C2 & D2 & k2 & K2).
    split; [by etrans|]. split; [congruence|]. split; [congruence|].
    exists (k2 + k1)%nat. unfold after_draws in *. by rewrite Nat.iter_add, <- K1.
Qed.

Lemma searches_now s s' :
  silent s s' → arcs_with_ripup s' = arcs_with_ripup s →
  arcs_without_ripup s' = arcs_without_ripup s → ctx s' = ctx s → searches s s'.
Proof. intros. split; [done|]. split; [done|]. split; [done|]. by exists 0%nat. Qed.

Lemma searches_draw s : searches s (set_ctx (rng (ctx s)).2 s).
Proof. split; [done|]. split; [done|]. split; [done|]. by exists 1%nat. Qed.

Lemma call_rng_searches : always searches call_rng.
Proof.
  intros s r s'. unfold call_rng. destruct (rng (ctx s)) as [z c] eqn:E.
  intros ?. simplify_eq. replace c with (rng (ctx s)).2 by (by rewrite E).
  apply searches_draw.
Qed.

Lemma astar_loop_searches fuel cfg net ripup dst_wire L :
  always searches (astar_loop fuel cfg net ripup dst_wire L).
Proof.
  revert L. induction fuel as [|fuel IH]; intros L; simpl;
    alw_with ltac:(by apply searches_now);
    first [apply call_rng_searches | apply IH].
Qed.

(** X20: however the search phase of [route_arc] ends, it has changed
    neither index map, nor the arc queue, nor a score, nor [ripup_flag],
    nor a counter, and has made no call that binds, unbinds or rips up: the
    architecture is as before but for the random numbers drawn. *)
Theorem search_leaves_the_routing_alone fuel cfg net ripup src_wire dst_wire s :
  let s' := (route_arc_search fuel cfg net ripup src_wire dst_wire s).2 in
  wire_to_arcs s' = wire_to_arcs s ∧ arc_to_wires s' = arc_to_wires s
  ∧ arc_queue s' = arc_queue s ∧ queued_arcs s' = queued_arcs s
  ∧ wireScores s' = wireScores s ∧ netScores s' = netScores s
  ∧ ripup_flag s' = ripup_flag s ∧ trace s' = trace s
  ∧ arcs_with_ripup s' = arcs_with_ripup s
  ∧ arcs_without_ripup s' = arcs_without_ripup s
  ∧ ∃ k, ctx s' = after_draws k (ctx s).
Proof.
  cbv zeta.
  destruct (route_arc_search fuel cfg net ripup src_wire dst_wire s) as [r s'] eqn:Hrun.
  assert (Hs : always searches (route_arc_search fuel cfg net ripup src_wire dst_wire)).
  { alw_with ltac:(by apply searches_now);
      first [apply call_rng_searches | apply astar_loop_searches]. }
  apply Hs in Hrun as ((?&?&?&?&?&?&?&?) & ? & ? & ?). simpl. by repeat split.
Qed.

End Edges.

(** * Runs on concrete designs

    The theorems above, applied to runs of the model on the designs of
    [Toy]; and the two runs on which the specification and the code
    differ. *)


Section RunResult.
Context `{A : Arch}.

Lemma run_result {T} (m : M T) s x : (m s).1 = Ret x → m s = (Ret x, (m s).2).
Proof. destruct (m s) as [r s']. simpl. by intros ->. Qed.

Lemma run_returns {T} (m : M T) s :
  returns (m s).1 = true → ∃ x, m s = (Ret x, (m s).2).
Proof. destruct (m s) as [[x| |] s']; simpl; [by exists x | done | done]. Qed.

End RunResult.

(** Runs the model on a concrete state. *)
Ltac run_here :=
  lazymatch goal with
  | |- ?m ?s = (Ret ?x, _) => refine (run_result m s x _); vm_compute; reflexivity
  end.

Import Toy.

(** C9 on [trivial_design]: after [setup] the queue holds the one arc once;
    [arc_queue_pop] returns it and takes it out of [queued_arcs]. *)
Lemma queue_holds_each_arc_once_witness :
  queue_inv (state_after (run 20 cfg1 OpSetup) trivial_design)
  ∧ (arc_queue_pop (state_after (run 20 cfg1 OpSetup) trivial_design)).1
    = Ret (mk_arc_key 0 0)
  ∧ mk_arc_key 0 0
    ∉ queued_arcs (arc_queue_pop (state_after (run 20 cfg1 OpSetup) trivial_design)).2.
Proof.
  destruct (queue_holds_each_arc_once) as (Hnew & Hrun & _ & _ & Hpop).
  assert (Hq : queue_inv (state_after (run 20 cfg1 OpSetup) trivial_design)).
  { apply (Hrun 20%nat cfg1 OpSetup (Router1_new trivial_design));
      [apply Hnew|].
    run_here. }
  split; [exact Hq|]. split; [vm_compute; reflexivity|].
  apply (Hpop (state_after (run 20 cfg1 OpSetup) trivial_design) (mk_arc_key 0 0));
    [exact Hq|]. run_here.
Defined.

(** C2 on [trivial_design]: the index is consistent after [setup] and after
    the arc is routed. *)
Lemma index_maps_are_inverse_witness :
  index_inv (state_after (run 20 cfg1 OpSetup) trivial_design)
  ∧ index_inv (run 20 cfg1 (OpRouteArc (mk_arc_key 0 0) true)
                 (state_after (run 20 cfg1 OpSetup) trivial_design)).2.
Proof.
  destruct (index_maps_are_inverse) as (Hnew & Hrun & _).
  assert (H1 : index_inv (state_after (run 20 cfg1 OpSetup) trivial_design)).
  { apply (Hrun 20%nat cfg1 OpSetup (Router1_new trivial_design));
      [apply Hnew|].
    run_here. }
  split; [exact H1|].
  apply (Hrun 20%nat cfg1 (OpRouteArc (mk_arc_key 0 0) true)
           (state_after (run 20 cfg1 OpSetup) trivial_design)); [exact H1|].
  run_here.
Defined.

(** C8 on [routed_design]: [ripup_net] adds one to the counter of the net
    and of its two wires. *)
Lemma scores_only_grow_by_ripup_witness :
  scores_grow (Router1_new routed_design)
              (state_after (run 20 cfg1 (OpRipupNet 0)) routed_design)
  ∧ bumped_net 0 (Router1_new routed_design) (state_after (ripup_net 0) routed_design).
Proof.
  destruct (scores_only_grow_by_ripup) as (Hrun & _ & Hnet & _ & _).
  split.
  - apply (Hrun 20%nat cfg1 (OpRipupNet 0)). run_here.
  - apply Hnet. run_here.
Defined.

(** C10 on [detour_state]: the arc holds wire 5, a wire that no other arc
    uses; its sink cannot be reached, and [route_arc] returns false with
    the arc detached and wire 5 unbound. *)
Lemma failed_route_arc_leaves_arc_detached_witness :
  wires_of (arc_to_wires detour_state) (mk_arc_key 0 0) = {[5]}
  ∧ (route_arc 20 cfg1 (mk_arc_key 0 0) true detour_state).1 = Ret false
  ∧ wires_of (arc_to_wires (route_arc 20 cfg1 (mk_arc_key 0 0) true detour_state).2)
             (mk_arc_key 0 0) = ∅
  ∧ trace (route_arc 20 cfg1 (mk_arc_key 0 0) true detour_state).2
    = trace detour_state ++ [EvUnbindWire 5]
  ∧ arc_queue (route_arc 20 cfg1 (mk_arc_key 0 0) true detour_state).2
    = arc_queue detour_state.
Proof.
  split; [vm_compute; reflexivity|]. split; [vm_compute; reflexivity|].
  destruct (failed_route_arc_leaves_arc_detached 20 cfg1 (mk_arc_key 0 0) true
              detour_state (route_arc 20 cfg1 (mk_arc_key 0 0) true detour_state).2)
    as (Hw & _ & Ht & _ & _ & Hq & _); [run_here|].
  refine (conj Hw (conj _ Hq)).
  rewrite Ht. reflexivity.
Defined.

(** C4 on [unroutable_design]: the search ends without the sink wire,
    [route_arc] returns false with no rip-up, and [router1] reports the arc
    and returns false. *)
Lemma unreachable_sink_is_fatal_without_ripup_witness :
  (∃ s2, route_arc 20 cfg1 (mk_arc_key 0 0) true (state_after (setup 20) unroutable_design)
           = (Ret false, s2)
         ∧ ripup_flag s2 = false
         ∧ ∃ t, trace s2 = trace (state_after (setup 20) unroutable_design) ++ t
                ∧ Forall (λ e, is_ripup e = false) t)
  ∧ (∃ s2 s3, router1 20 true cfg1 unroutable_design = (Ret false, s3)
              ∧ trace s3 = trace s2 ++ [EvWarnNoRoute (mk_arc_key 0 0); EvUnlock]).
Proof.
  destruct (unreachable_sink_is_fatal_without_ripup) as [Hroute Hrouter].
  split.
  - set (s := state_after (setup 20) unroutable_design).
    set (sp := (route_arc_prepare (mk_arc_key 0 0) (set_ripup_flag false s)).2).
    destruct (run_returns (route_arc_search 20 cfg1 0 true 0 2) sp) as [L HL];
      [vm_compute; reflexivity|].
    eexists.
    apply (Hroute 20%nat cfg1 (mk_arc_key 0 0) true s (mk_PortRef (Some 2%nat) 5) sp L).
    + vm_compute. reflexivity.
    + run_here.
    + exact HL.
    + vm_compute. reflexivity.
  - set (s_in := state_after (router1_enter 20 true) unroutable_design).
    set (s := (arc_queue_pop s_in).2).
    exists (route_arc 20 cfg1 (mk_arc_key 0 0) true s).2.
    apply (Hrouter 20%nat true cfg1 unroutable_design s_in 19%nat 0 s_in s_in
             (mk_arc_key 0 0) s).
    + run_here.
    + apply loop_reaches_here.
    + run_here.
    + run_here.
    + run_here.
    + left. reflexivity.
Defined.

(** C1 (amended) on [budget_design]: with both arcs queued, the arc popped
    is not the one of the tighter budget. *)
Lemma arc_queue_pops_least_priority_witness :
  arc_queue (state_after (arc_queue_insert tight_arc;; arc_queue_insert loose_arc)
                         budget_design)
  = [mk_arc_entry tight_arc (3 - 1); mk_arc_entry loose_arc (3 - 10)]
  ∧ ∃ a, (arc_queue_pop
            (state_after (arc_queue_insert tight_arc;; arc_queue_insert loose_arc)
                         budget_design)).1 = Ret a
         ∧ a ≠ tight_arc.
Proof.
  destruct (arc_queue_pops_least_priority) as (_ & _ & Horder).
  set (s := state_after (arc_queue_insert tight_arc;; arc_queue_insert loose_arc)
                        budget_design).
  assert (Hq : arc_queue s = [mk_arc_entry tight_arc (3 - 1); mk_arc_entry loose_arc (3 - 10)])
    by (vm_compute; reflexivity).
  split; [exact Hq|].
  destruct (run_returns arc_queue_pop s) as [a Ha]; [vm_compute; reflexivity|].
  exists a. split; [by rewrite Ha|].
  apply (Horder s a (arc_queue_pop s).2 (mk_arc_entry tight_arc (3 - 1))
           (mk_arc_entry loose_arc (3 - 10)) 3 1 10).
  - apply (respects_run keeps_queue_inv 20%nat cfg1 (OpArcQueueInsert loose_arc)
             (state_after (arc_queue_insert tight_arc) budget_design) tt s);
      [run_here|].
    apply (respects_run keeps_queue_inv 20%nat cfg1 (OpArcQueueInsert tight_arc)
             (Router1_new budget_design) tt
             (state_after (arc_queue_insert tight_arc) budget_design));
      [run_here|].
    apply queue_inv_new.
  - rewrite Hq. apply list_elem_of_here.
  - rewrite Hq. apply list_elem_of_further, list_elem_of_here.
  - reflexivity.
  - reflexivity.
  - lia.
  - exact Ha.
Defined.

(** C1, as the specification words it, fails: with the arc of the tighter
    budget (priority 2) and the arc of the looser budget (priority -7)
    queued, both from wire 0 to wire 3, [arc_queue_pop] returns the arc of
    the looser budget, whose priority is the smaller. *)
Lemma arc_queue_pops_looser_budget_first :
  arc_queue (state_after (arc_queue_insert tight_arc;; arc_queue_insert loose_arc)
                         budget_design)
  = [mk_arc_entry tight_arc 2; mk_arc_entry loose_arc (-7)]
  ∧ (budget <$> users (deref budget_design (net_info tight_arc)) !! user_idx tight_arc)
    = Some 1
  ∧ (budget <$> users (deref budget_design (net_info loose_arc)) !! user_idx loose_arc)
    = Some 10
  ∧ (arc_queue_pop
       (state_after (arc_queue_insert tight_arc;; arc_queue_insert loose_arc)
                    budget_design)).1 = Ret loose_arc.
Proof. repeat split; vm_compute; reflexivity. Qed.

(** C3 on [contended_design]: the step onto wire 1, bound to the other net
    and ripped up three times before, costs [wireRipupPenalty * (1 + 3)]. *)
Lemma step_penalty_of_live_conflicts_witness :
  step_candidate cfg1 (set_wireScores {[1 := 3]} (Router1_new contended_design)) 0 true
    (mk_QueuedWire 0 PipId_none 1 0 0 1 42) 0 = Some (1, 3, 40, 0)
  ∧ ∃ found,
      dedup_conflicts contended_design found = mk_conflicts 1 WireId_none None None
      ∧ 40 = 0 + wire_ripup_cost cfg1
                   (set_wireScores {[1 := 3]} (Router1_new contended_design)) 1
               + 0 + 0 + 0.
Proof.
  assert (Hstep : step_candidate cfg1
            (set_wireScores {[1 := 3]} (Router1_new contended_design)) 0 true
            (mk_QueuedWire 0 PipId_none 1 0 0 1 42) 0 = Some (1, 3, 40, 0))
    by (vm_compute; reflexivity).
  split; [exact Hstep|].
  destruct (step_penalty_of_live_conflicts _ _ _ _ _ _ _ _ _ _ Hstep)
    as (found & Hfound & _ & Hpen).
  exists found.
  assert (Hd : dedup_conflicts contended_design found = mk_conflicts 1 WireId_none None None).
  { vm_compute in Hfound. injection Hfound as <-. vm_compute. reflexivity. }
  split; [exact Hd|]. cbn [ctx set_wireScores Router1_new] in Hpen.
  rewrite Hd in Hpen. exact Hpen.
Defined.

Lemma routed_design_wires :
  wires (deref routed_design 0)
  = <[0 := mk_PipMap PipId_none STRENGTH_WEAK]> {[1 := mk_PipMap 0 STRENGTH_WEAK]}.
Proof. vm_compute. reflexivity. Qed.

Lemma routed_design_walk :
  walk_path routed_design 0 0 1 [0].
Proof.
  apply (walk_path_step routed_design 0 0 1 (mk_PipMap 0 STRENGTH_WEAK) []).
  - done.
  - vm_compute. reflexivity.
  - done.
  - apply walk_path_src.
Qed.

Lemma routed_design_routed : design_routed routed_design.
Proof.
  intros net Hin _. change (net ∈ [0%nat]) in Hin.
  apply list_elem_of_singleton in Hin as ->.
  split; [intros _; by eexists|]. split.
  - intros u Hu. change (u ∈ [mk_PortRef (Some 1%nat) 5]) in Hu.
    apply list_elem_of_singleton in Hu as ->. exists [0]. apply routed_design_walk.
  - intros w Hw. exists (mk_PortRef (Some 1%nat) 5), [0].
    split; [apply list_elem_of_here|]. split; [apply routed_design_walk|].
    rewrite routed_design_wires in Hw.
    apply lookup_insert_is_Some in Hw as [<-|[_ Hw]].
    + apply list_elem_of_further, list_elem_of_here.
    + destruct (decide (w = 1)) as [->|Hne]; [apply list_elem_of_here|].
      rewrite lookup_singleton_ne in Hw by done. by destruct Hw.
Qed.

(** C6 (amended) on [routed_design]. *)
Lemma setup_adopts_routed_design_witness :
  design_routed routed_design
  ∧ ∃ fuel0, ∀ fuel, (fuel0 ≤ fuel)%nat →
      ((setup fuel (Router1_new routed_design)).1 = Throw undefined_behaviour
       ∧ reads_null_cell routed_design)
      ∨ (((setup fuel (Router1_new routed_design)).1 = Ret tt
          ∨ (setup fuel (Router1_new routed_design)).1
            = Throw log_execution_error_exception)
         ∧ arc_queue (setup fuel (Router1_new routed_design)).2 = []
         ∧ queued_arcs (setup fuel (Router1_new routed_design)).2 = ∅
         ∧ ctx (setup fuel (Router1_new routed_design)).2 = routed_design
         ∧ trace (setup fuel (Router1_new routed_design)).2 = []).
Proof.
  split; [apply routed_design_routed|].
  apply (setup_adopts_routed_design routed_design).
  apply routed_design_routed.
Defined.

Lemma unbound_source_design_wires :
  wires (deref unbound_source_design 0) = {[1 := mk_PipMap 0 STRENGTH_WEAK]}.
Proof. vm_compute. reflexivity. Qed.

Lemma unbound_source_design_walk :
  walk_path unbound_source_design 0 0 1 [0].
Proof.
  apply (walk_path_step unbound_source_design 0 0 1 (mk_PipMap 0 STRENGTH_WEAK) []).
  - done.
  - vm_compute. reflexivity.
  - done.
  - apply walk_path_src.
Qed.

(** C6, as the specification words it, fails: in [unbound_source_design]
    the walk of the one arc reaches the source wire and covers the one
    bound wire, wire 1; the source wire is not bound, and [setup], whatever
    its fuel, queues the arc and unbinds wire 1. *)
Lemma setup_requeues_when_source_unbound :
  design_routed_as_specified unbound_source_design
  ∧ wires (deref unbound_source_design 0)
    !! getNetinfoSourceWire unbound_source_design 0 = None
  ∧ ∀ fuel,
      (setup fuel (Router1_new unbound_source_design)).1 = Ret tt
      ∧ arc <$> arc_queue (setup fuel (Router1_new unbound_source_design)).2
        = [mk_arc_key 0 0]
      ∧ trace (setup fuel (Router1_new unbound_source_design)).2 = [EvUnbindWire 1].
Proof.
  split; [|split; [vm_compute; reflexivity|]].
  - intros net Hin _. change (net ∈ [0%nat]) in Hin.
    apply list_elem_of_singleton in Hin as ->. split.
    + intros u Hu. change (u ∈ [mk_PortRef (Some 1%nat) 5]) in Hu.
      apply list_elem_of_singleton in Hu as ->. exists [0].
      apply unbound_source_design_walk.
    + intros w Hw. exists (mk_PortRef (Some 1%nat) 5), [0].
      split; [apply list_elem_of_here|]. split; [apply unbound_source_design_walk|].
      rewrite unbound_source_design_wires in Hw.
      destruct (decide (w = 1)) as [->|Hne]; [apply list_elem_of_here|].
      rewrite lookup_singleton_ne in Hw by done. by destruct Hw.
  - intros fuel. split; [vm_compute; reflexivity|].
    split; vm_compute; reflexivity.
Qed.

(** C5 (amended) on [routed_design]. *)
Lemma checkRoutedDesign_accepts_witness :
  (checkRoutedDesign 10 routed_design = Ret true
   ↔ ∀ net, net ∈ nets routed_design →
            net_asserts routed_design net ∧ net_valid routed_design net)
  ∧ checkRoutedDesign 10 routed_design ≠ OutOfFuel.
Proof.
  apply (checkRoutedDesign_accepts 10 routed_design).
  intros net Hin. change (net ∈ [0%nat]) in Hin.
  apply list_elem_of_singleton in Hin as ->.
  rewrite routed_design_wires. vm_compute. lia.
Defined.

(** C5, as the specification words it, fails: the validator accepts a
    design in which wire 5 is bound to the net and cannot be reached from
    the source wire. *)
Lemma checkRoutedDesign_misses_stray_wire :
  checkRoutedDesign 10 stray_wire_design = Ret true
  ∧ is_Some (wires (deref stray_wire_design 0) !! 5)
  ∧ ¬ reached stray_wire_design 0 5
  ∧ ¬ (checkRoutedDesign 10 stray_wire_design = Ret true
       ↔ ∀ net, net ∈ nets stray_wire_design
                → net_valid_as_specified stray_wire_design net).
Proof.
  assert (Hrun : checkRoutedDesign 10 stray_wire_design = Ret true)
    by (vm_compute; reflexivity).
  assert (Hbound : is_Some (wires (deref stray_wire_design 0) !! 5)) by (by eexists).
  assert (Hno : ¬ reached stray_wire_design 0 5).
  { intros [Heq|(p & _ & it & Hit & Hpip & _)]%rtc_inv_r.
    - vm_compute in Heq. discriminate.
    - vm_compute in Hit. injection Hit as <-. by apply Hpip. }
  split; [done|]. split; [done|]. split; [done|].
  intros [Hif _]. destruct (Hif Hrun 0%nat) as (_ & _ & _ & _ & Hall).
  - apply list_elem_of_here.
  - done.
  - by apply Hno, Hall.
Qed.

(** X2 on a queue of two wires: the cheaper one is on top. *)
Lemma wire_queue_top_is_cheapest_witness :
  pq_top QueuedWire_Greater
    [mk_QueuedWire 1 0 5 0 0 2 7; mk_QueuedWire 2 1 3 0 0 1 9]
  = Some (mk_QueuedWire 2 1 3 0 0 1 9)
  ∧ (qw_cost (mk_QueuedWire 2 1 3 0 0 1 9) < qw_cost (mk_QueuedWire 1 0 5 0 0 2 7)
     ∨ (qw_cost (mk_QueuedWire 2 1 3 0 0 1 9) = qw_cost (mk_QueuedWire 1 0 5 0 0 2 7)
        ∧ qw_randtag (mk_QueuedWire 2 1 3 0 0 1 9)
          ≤ qw_randtag (mk_QueuedWire 1 0 5 0 0 2 7))).
Proof.
  assert (Htop : pq_top QueuedWire_Greater
                   [mk_QueuedWire 1 0 5 0 0 2 7; mk_QueuedWire 2 1 3 0 0 1 9]
                 = Some (mk_QueuedWire 2 1 3 0 0 1 9)) by reflexivity.
  split; [exact Htop|].
  destruct (wire_queue_top_is_cheapest _ _ Htop) as [_ Hall].
  apply Hall, list_elem_of_here.
Defined.

(** X3 on [budget_design] with both arcs queued: the arc of priority -7
    comes out before the arc of priority 2. *)
Lemma successive_pops_rise_witness :
  ∃ e1 e2, arc e1 = loose_arc ∧ arc e2 = tight_arc ∧ pri e1 ≤ pri e2.
Proof.
  set (s := state_after (arc_queue_insert tight_arc;; arc_queue_insert loose_arc)
                        budget_design).
  destruct (successive_pops_rise s loose_arc (arc_queue_pop s).2
              tight_arc (arc_queue_pop (arc_queue_pop s).2).2)
    as (e1 & e2 & _ & _ & H1 & H2 & Hle & _); [run_here | run_here |].
  by exists e1, e2.
Defined.

(** X4 on [trivial_design]. *)
Lemma insert_then_pop_on_empty_queue_witness :
  (arc_queue_insert (mk_arc_key 0 0) ≫= λ _, arc_queue_pop) (Router1_new trivial_design)
  = (Ret (mk_arc_key 0 0), Router1_new trivial_design).
Proof.
  apply (insert_then_pop_on_empty_queue (mk_arc_key 0 0) (mk_PortRef (Some 1%nat) 5));
    [reflexivity | reflexivity | vm_compute; reflexivity].
Defined.

(** X7 on [routed_design]: the step along pip 0, which the net uses
    already, with [ripup] off. *)
Lemma reused_pip_is_free_and_rewarded_witness :
  step_candidate cfg1 (Router1_new routed_design) 0 false
    (mk_QueuedWire 0 PipId_none 1 0 0 1 42) 0
  = Some (1, 3, 0, 6).
Proof.
  rewrite (reused_pip_is_free_and_rewarded cfg1 (Router1_new routed_design) 0 false
             (mk_QueuedWire 0 PipId_none 1 0 0 1 42) 0);
    vm_compute; reflexivity.
Defined.

(** The router after [setup] on [routed_design]: the arc holds wires 0
    and 1. *)
Lemma routed_setup_index_inv : index_inv (state_after (setup 20) routed_design).
Proof.
  apply (respects_setup keeps_index_inv 20 (Router1_new routed_design) tt);
    [run_here | apply index_inv_new].
Qed.

(** X8 on [routed_design] after [setup]: ripping up wire 1. *)
Lemma ripup_wire_detaches_the_wire_witness :
  arcs_of (wire_to_arcs (ripup_wire 1 (state_after (setup 20) routed_design)).2) 1 = ∅
  ∧ mk_arc_key 0 0 ∈ queued_arcs (ripup_wire 1 (state_after (setup 20) routed_design)).2
  ∧ trace (ripup_wire 1 (state_after (setup 20) routed_design)).2
    = trace (state_after (setup 20) routed_design) ++ [EvRipupWire 1; EvUnbindWire 1].
Proof.
  destruct (proj1 ripup_wire_detaches_the_wire 1 (state_after (setup 20) routed_design)
              (ripup_wire 1 (state_after (setup 20) routed_design)).2)
    as (H1 & _ & H3 & _ & H5 & _).
  - run_here.
  - vm_compute. lia.
  - apply routed_setup_index_inv.
  - split; [exact H1|]. split; [|exact H5]. apply H3. vm_compute. reflexivity.
Defined.

(** X9 on [routed_design] after [setup]: ripping up the net. *)
Lemma ripup_net_unbinds_every_wire_witness :
  ripup_flag (ripup_net 0 (state_after (setup 20) routed_design)).2 = true
  ∧ arcs_of (wire_to_arcs (ripup_net 0 (state_after (setup 20) routed_design)).2) 1 = ∅
  ∧ mk_arc_key 0 0 ∈ queued_arcs (ripup_net 0 (state_after (setup 20) routed_design)).2.
Proof.
  destruct (ripup_net_unbinds_every_wire 0 (state_after (setup 20) routed_design)
              (ripup_net 0 (state_after (setup 20) routed_design)).2)
    as (_ & Hflag & Hin & _); [run_here|].
  split; [exact Hflag|].
  destruct (Hin 1) as (H1 & H2 & _); [vm_compute; by eexists|].
  split; [exact H1|]. apply H2. vm_compute. reflexivity.
Defined.

(** X10 on [trivial_design] after [setup]: the arc is routed with no
    rip-up. *)
Lemma route_arc_counts_the_arc_once_witness :
  (route_arc 20 cfg1 (mk_arc_key 0 0) true (state_after (setup 20) trivial_design)).1
  = Ret true
  ∧ ∃ t,
      trace (route_arc 20 cfg1 (mk_arc_key 0 0) true
               (state_after (setup 20) trivial_design)).2
      = trace (state_after (setup 20) trivial_design) ++ t
      ∧ ripup_flag (route_arc 20 cfg1 (mk_arc_key 0 0) true
                      (state_after (setup 20) trivial_design)).2
        = existsb is_ripup t
      ∧ arcs_with_ripup (route_arc 20 cfg1 (mk_arc_key 0 0) true
                           (state_after (setup 20) trivial_design)).2
        = arcs_with_ripup (state_after (setup 20) trivial_design)
          + (if true && existsb is_ripup t then 1 else 0)
      ∧ arcs_without_ripup (route_arc 20 cfg1 (mk_arc_key 0 0) true
                              (state_after (setup 20) trivial_design)).2
        = arcs_without_ripup (state_after (setup 20) trivial_design)
          + (if true && negb (existsb is_ripup t) then 1 else 0).
Proof.
  split; [vm_compute; reflexivity|].
  apply (route_arc_counts_the_arc_once 20 cfg1 (mk_arc_key 0 0) true
           (state_after (setup 20) trivial_design) true).
  run_here.
Defined.

(** X11 on [trivial_design] after [setup]: the routed arc holds wire 0
    and wire 1. *)
Lemma routed_arc_holds_its_ends_witness :
  0 ∈ wires_of (arc_to_wires (route_arc 20 cfg1 (mk_arc_key 0 0) true
                                (state_after (setup 20) trivial_design)).2)
               (mk_arc_key 0 0)
  ∧ 1 ∈ wires_of (arc_to_wires (route_arc 20 cfg1 (mk_arc_key 0 0) true
                                  (state_after (setup 20) trivial_design)).2)
                 (mk_arc_key 0 0).
Proof.
  destruct (routed_arc_holds_its_ends 20 cfg1 (mk_arc_key 0 0) true
              (state_after (setup 20) trivial_design)
              (route_arc 20 cfg1 (mk_arc_key 0 0) true
                 (state_after (setup 20) trivial_design)).2
              (mk_PortRef (Some 1%nat) 5))
    as (Hsrc & _ & Hdst); [run_here | vm_compute; reflexivity |].
  split; [exact Hsrc|]. apply Hdst. vm_compute. reflexivity.
Defined.

(** X14 on [trivial_design]: the one arc of the unrouted net is queued. *)
Lemma setup_net_accounts_for_every_arc_witness :
  mk_arc_key 0 0
  ∈ queued_arcs (setup_net 20 (mk_setup_maps ∅ ∅) 0 (Router1_new trivial_design)).2.
Proof.
  destruct (run_returns (setup_net 20 (mk_setup_maps ∅ ∅) 0) (Router1_new trivial_design))
    as [maps' Hrun]; [vm_compute; reflexivity|].
  destruct (setup_net_accounts_for_every_arc 20 (mk_setup_maps ∅ ∅) 0
              (Router1_new trivial_design) maps'
              (setup_net 20 (mk_setup_maps ∅ ∅) 0 (Router1_new trivial_design)).2
              Hrun eq_refl) with (i := 0%nat) (u := mk_PortRef (Some 1%nat) 5)
    as [Hq|[Hsrc|(j & u' & Hlt & _)]].
  - intros w a Ha. simpl in Ha. rewrite lookup_empty in Ha. discriminate.
  - vm_compute. reflexivity.
  - exact Hq.
  - vm_compute in Hsrc. discriminate.
  - lia.
Defined.

(** X16 on [trivial_design], whose net is not routed: the validator
    returns false. *)
Lemma checkRoutedDesign_stops_at_first_bad_net_witness :
  checkRoutedDesign 10 trivial_design = Ret false
  ∧ first_bad_net trivial_design
      (λ net, net_asserts trivial_design net ∧ ¬ net_valid trivial_design net).
Proof.
  assert (Hrun : checkRoutedDesign 10 trivial_design = Ret false)
    by (vm_compute; reflexivity).
  split; [exact Hrun|].
  pose proof (checkRoutedDesign_stops_at_first_bad_net 10 trivial_design) as H.
  rewrite Hrun in H. apply H.
  intros net Hin. change (net ∈ [0%nat]) in Hin.
  apply list_elem_of_singleton in Hin as ->. vm_compute. lia.
Defined.

Lemma outcome_result {T S} (r : outcome T * S) x : r.1 = x → r = (x, r.2).
Proof. destruct r. simpl. by intros ->. Qed.

(** X17 on [trivial_design], in a debug build. *)
Lemma router1_true_means_routed_and_checked_witness :
  arc_queue (router1 20 false cfg1 trivial_design).2 = []
  ∧ queued_arcs (router1 20 false cfg1 trivial_design).2 = ∅
  ∧ ∃ c1, ctx (router1 20 false cfg1 trivial_design).2 = timing_analysis c1
          ∧ checkRoutedDesign 20 c1 = Ret true.
Proof.
  destruct (router1_true_means_routed_and_checked 20 false cfg1 trivial_design
              (router1 20 false cfg1 trivial_design).2)
    as (H1 & H2 & _ & c1 & H4 & H5).
  - apply outcome_result. vm_compute. reflexivity.
  - split; [exact H1|]. split; [exact H2|]. exists c1. split; [exact H4|].
    by destruct (H5 eq_refl).
Defined.

(** X18 on [undriven_design], in a build that checks. *)
Lemma router1_with_nothing_to_route_witness :
  router1 5 false cfg1 undriven_design
  = (Ret true,
     emit EvUnlock (set_ctx (timing_analysis undriven_design)
                            (emit EvLock (Router1_new undriven_design)))).
Proof.
  apply (router1_with_nothing_to_route 5 false cfg1 undriven_design).
  - intros net Hin. change (net ∈ [0%nat]) in Hin.
    apply list_elem_of_singleton in Hin as ->. reflexivity.
  - intros _. split; [reflexivity | vm_compute; reflexivity].
Defined.

(** X19 on [trivial_design] in [sinkless_arch], in a build that checks:
    the user, on the cell of wire 1, has no sink wire. *)
Lemma router1_returns_false_on_missing_wire_witness :
  @router1 sinkless_arch 5 false cfg1 trivial_design
  = (Ret false,
     @emit sinkless_arch EvUnlock
       (@emit sinkless_arch EvLock (@Router1_new sinkless_arch trivial_design))).
Proof.
  apply (@router1_returns_false_on_missing_wire sinkless_arch 5 false cfg1
           trivial_design [] 0%nat []).
  - reflexivity.
  - intros n Hn. by apply elem_of_nil in Hn.
  - reflexivity.
  - right. exists (mk_PortRef (Some 1%nat) 5), [].
    split; [reflexivity|]. split; [by eexists | reflexivity].
  - reflexivity.
Defined.
